(** * numba/targets/randomimpl.py: the random and numpy.random samplers

    A shallow embedding of the code that [randomimpl.py] generates.  The file
    is an LLVM code generator: every [builder.*] call emits one instruction,
    and the Python functions handed to [context.compile_internal] are compiled
    with their Python meaning.  The embedding gives the meaning of the
    generated code: machine integers are [Z] with their wrap-around written
    out, doubles are the kernel's binary64 floats, the two global generator
    states live in one store, and every sampler is a computation over that
    store that may return, raise, or still be inside one of its rejection
    loops when its fuel is spent. *)

From Stdlib Require Import ZArith QArith Lia Bool List.
From Stdlib Require Import Uint63 Floats.
From stdpp Require Import base list.

#[local] Open Scope Z_scope.
#[local] Set Warnings "-inexact-float".

(* ------------------------------------------------------------------ *)
(** ** Machine integers *)

Module Int.

(** An [ir.IntType(w)] value is kept as its unsigned residue below [2^w]. *)
Definition wrap (w x : Z) : Z := x mod 2 ^ w.

(** The signed reading used by [icmp_signed] and [sdiv]. *)
Definition signed (w x : Z) : Z :=
  let u := wrap w x in if u <? 2 ^ (w - 1) then u else u - 2 ^ w.

Definition add (w x y : Z) : Z := wrap w (x + y).
Definition sub (w x y : Z) : Z := wrap w (x - y).
Definition mul (w x y : Z) : Z := wrap w (x * y).

(** [builder.sdiv]: the quotient truncates toward zero.  LLVM leaves the
    division undefined for a zero divisor and for [min_int / -1], and the
    generated code traps there: [sdiv] is what the instruction computes
    where [sdiv_defined] holds, and the statements about a division are
    made under hypotheses that give it. *)
Definition sdiv (w x y : Z) : Z := wrap w (Z.quot (signed w x) (signed w y)).

Definition sdiv_defined (w x y : Z) : Prop :=
  signed w y <> 0 /\ ~ (signed w x = - 2 ^ (w - 1) /\ signed w y = -1).

Definition shl (w x k : Z) : Z := wrap w (Z.shiftl x k).
Definition lshr (x k : Z) : Z := Z.shiftr x k.
Definition and_ (x y : Z) : Z := Z.land x y.
Definition xor (x y : Z) : Z := Z.lxor x y.

Definition slt (w x y : Z) : bool := signed w x <? signed w y.
Definition sle (w x y : Z) : bool := signed w x <=? signed w y.
Definition sgt (w x y : Z) : bool := signed w y <? signed w x.
Definition sge (w x y : Z) : bool := signed w y <=? signed w x.
Definition ule (x y : Z) : bool := x <=? y.
Definition uge (x y : Z) : bool := y <=? x.

(** [llvm.ctlz.iW]: the number of leading zero bits of a [w]-bit value
    ([Z.log2 0 = 0], so the zero case is split off). *)
Definition ctlz (w x : Z) : Z :=
  let u := wrap w x in if u =? 0 then w else w - 1 - Z.log2 u.

(** [builder.trunc] and [builder.zext] on residues. *)
Definition trunc (w x : Z) : Z := wrap w x.
Definition zext (x : Z) : Z := x.

End Int.

(* ------------------------------------------------------------------ *)
(** ** The generator state *)

(** [N = 624], the number of words of the twister. *)
Definition N : Z := 624.

(** [rnd_state_t]: index, the array of [N] words, the gaussian flag and the
    cached gaussian. *)
Record rnd_state : Type := mk_state {
  st_index : Z;
  st_words : list Z;
  st_has_gauss : Z;
  st_gauss : float
}.

(** The two global states, [numba_py_random_state] and
    [numba_np_random_state]. *)
Inductive stream : Type := py | np.

Record store : Type := mk_store {
  numba_py_random_state : rnd_state;
  numba_np_random_state : rnd_state
}.

(** [get_state_ptr]: the dictionary from the name to the state. *)
Definition get_state_ptr (name : stream) (σ : store) : rnd_state :=
  match name with
  | py => numba_py_random_state σ
  | np => numba_np_random_state σ
  end.

Definition set_state (name : stream) (s : rnd_state) (σ : store) : store :=
  match name with
  | py => mk_store s (numba_np_random_state σ)
  | np => mk_store (numba_py_random_state σ) s
  end.

Definition other (name : stream) : stream :=
  match name with py => np | np => py end.

(* ------------------------------------------------------------------ *)
(** ** Computations over the store *)

(** The errors the code raises: [ValueError] (and the [RUNTIME_ERROR] code of
    an empty range), the [ZeroDivisionError] of Python's [/], and an index
    outside an array, which the generated code does not check. *)
Inductive error : Type := ValueError | ZeroDivisionError | IndexOutOfBounds.

Inductive outcome (A : Type) : Type :=
| Ret (a : A) (σ : store)
| Raise (e : error) (σ : store)
| Spin.
Arguments Ret {A} a σ.
Arguments Raise {A} e σ.
Arguments Spin {A}.

Definition M (A : Type) : Type := store -> outcome A.

#[global] Instance M_ret : MRet M := fun A a σ => Ret a σ.
#[global] Instance M_bind : MBind M := fun A B k m σ =>
  match m σ with
  | Ret a σ' => k a σ'
  | Raise e σ' => Raise e σ'
  | Spin => Spin
  end.

#[global] Instance M_fmap : FMap M := fun A B f m => a ← m; mret (f a).

Definition raise {A} (e : error) : M A := fun σ => Raise e σ.
Definition spin {A} : M A := fun _ => Spin.

Definition load {A} (name : stream) (f : rnd_state -> A) : M A :=
  fun σ => Ret (f (get_state_ptr name σ)) σ.
Definition modify (name : stream) (f : rnd_state -> rnd_state) : M unit :=
  fun σ => Ret tt (set_state name (f (get_state_ptr name σ)) σ).

Definition store_index (i : Z) (s : rnd_state) : rnd_state :=
  mk_state i (st_words s) (st_has_gauss s) (st_gauss s).
Definition store_has_gauss (h : Z) (s : rnd_state) : rnd_state :=
  mk_state (st_index s) (st_words s) h (st_gauss s).
Definition store_gauss (g : float) (s : rnd_state) : rnd_state :=
  mk_state (st_index s) (st_words s) (st_has_gauss s) g.

(** [while True:] with [continue], [break] and [return]: the body either
    goes round again with the loop variables [inl a] or leaves with
    [inr b].  Fuel bounds the number of rounds; a loop still running when it
    is spent is [Spin]. *)
Fixpoint iterate {A B} (fuel : nat) (body : A -> M (A + B)) (a : A) : M B :=
  match fuel with
  | O => spin
  | S fuel' =>
      r ← body a;
      match r with
      | inl a' => iterate fuel' body a'
      | inr b => mret b
      end
  end.

(** [builder.uitofp] of a 32-bit value. *)
Definition uitofp (x : Z) : float := PrimFloat.of_uint63 (Uint63.of_Z x).

(** The conversion of a signed 64-bit integer to a double.  [of_uint63]
    takes magnitudes below [2^63]; the smallest integer, [-2^63], is a
    double itself. *)
Definition sitofp (x : Z) : float :=
  let v := Int.signed 64 x in
  if v <? 0 then
    if v =? - 2 ^ 63 then PrimFloat.opp 0x1p63%float
    else PrimFloat.opp (PrimFloat.of_uint63 (Uint63.of_Z (- v)))
  else PrimFloat.of_uint63 (Uint63.of_Z v).

(** Python's [/] on floats, as the compiled Python functions use it:
    [ZeroDivisionError] on a zero divisor.  The [builder.fdiv] of
    [get_next_double] is the bare machine division. *)
Definition py_div (x y : float) : M float :=
  if PrimFloat.eqb y 0%float then raise ZeroDivisionError
  else mret (PrimFloat.div x y).

(* ------------------------------------------------------------------ *)
(** ** Doubles that hold integers and dyadic fractions exactly *)

(** [n * 2^k] on positives, for [k >= 0]. *)
Definition shl_pos (n : positive) (k : Z) : positive :=
  match k with Zpos p => Pos.iter xO n p | _ => n end.

(** The number of binary pdigits of [n]. *)
Definition pdigits (n : positive) : Z := Zpos (digits2_pos n).

(** The normal binary64 representation of [(-1)^s * n * 2^e], for [n] of at
    most 53 pdigits: the mantissa is shifted up to exactly 53 pdigits. *)
Definition SFnorm (s : bool) (n : positive) (e : Z) : spec_float :=
  S754_finite s (shl_pos n (53 - pdigits n)) (e + pdigits n - 53).

(** The double that holds the natural number [z]. *)
Definition SFofZ (z : Z) : spec_float :=
  match z with
  | Zpos n => SFnorm false n 0
  | _ => S754_zero false
  end.

(** The double that holds [z * 2^-53]. *)
Definition SFfrac53 (z : Z) : spec_float :=
  match z with
  | Zpos n => SFnorm false n (-53)
  | _ => S754_zero false
  end.

(** The rational value of a finite double. *)
Definition SF2Q (x : spec_float) : option Q :=
  match x with
  | S754_zero _ => Some 0%Q
  | S754_finite s m e =>
      let z := cond_Zopp s (Zpos m) in
      Some (if 0 <=? e then inject_Z (z * 2 ^ e)
            else Qmake z (Z.to_pos (2 ^ (- e))))
  | _ => None
  end.

Section Samplers.

(** The routines of [_helperlib.c] that the generated code calls, and the
    functions of the C library behind [math.*]; each C helper receives the
    pointer to one state. *)
Variable numba_rnd_shuffle : rnd_state -> rnd_state.
Variable numba_rnd_init : rnd_state -> Z -> rnd_state.
Variable numba_poisson_ptrs : rnd_state -> float -> Z * rnd_state.
Variables _log _exp _cos _acos _floor _ceil : float -> float.
Variables _pow _fmod : float -> float -> float.
Variable fptosi : float -> Z.

(* ------------------------------------------------------------------ *)
(** ** Scalar primitives *)

Definition temper (y : Z) : Z :=
  let y := Int.xor y (Int.lshr y 11) in
  let y := Int.xor y (Int.and_ (Int.shl 32 y 7) 0x9d2c5680) in
  let y := Int.xor y (Int.and_ (Int.shl 32 y 15) 0xefc60000) in
  Int.xor y (Int.lshr y 18).

Definition get_next_int32 (name : stream) : M Z :=
  idx ← load name (fun s => Int.wrap 32 (st_index s));
  (if Int.uge idx N
   then modify name numba_rnd_shuffle;; modify name (store_index 0)
   else mret tt);;
  idx ← load name (fun s => Int.wrap 32 (st_index s));
  y ← load name (fun s => Int.wrap 32 (nth (Z.to_nat idx) (st_words s) 0));
  modify name (store_index (Int.add 32 idx 1));;
  mret (temper y).

Definition get_next_double (name : stream) : M float :=
  a ← get_next_int32 name;
  let a := Int.lshr a 5 in
  b ← get_next_int32 name;
  let b := Int.lshr b 6 in
  let a := uitofp a in
  let b := uitofp b in
  mret (PrimFloat.div (PrimFloat.add b (PrimFloat.mul a 67108864%float))
                      9007199254740992%float).

Definition get_shifted_int (name : stream) (nbits : Z) : M Z :=
  let shift := Int.sub 32 32 nbits in
  y ← get_next_int32 name;
  mret (Int.lshr y (Int.zext shift)).

Definition get_next_int (name : stream) (nbits : Z) : M Z :=
  if Int.ule nbits 32 then
    low ← get_shifted_int name nbits;
    mret (Int.zext low)
  else
    low ← get_next_int32 name;
    high ← get_shifted_int name (Int.sub 32 nbits 32);
    mret (Int.add 64 (Int.zext low) (Int.shl 64 (Int.zext high) 32)).

(** [random.random] and [np.random.random]. *)
Definition random_impl (name : stream) : M float := get_next_double name.

(** The table [{"py": random.random, "np": np.random.random}]. *)
Definition _random_of (name : stream) : M float :=
  match name with
  | py => random_impl py
  | np => random_impl np
  end.

Definition _seed_impl (name : stream) (seed_value : Z) : M unit :=
  modify name (fun s => numba_rnd_init s seed_value).

Definition getrandbits_impl (nbits : Z) : M Z := get_next_int py nbits.

(* ------------------------------------------------------------------ *)
(** ** Bounded-range sampler *)

Definition randrange_n (w start stop step : Z) : Z :=
  let n := Int.sub w stop start in
  let n := if Int.slt w step 0
           then Int.sdiv w (Int.add w (Int.add w n step) 1) step else n in
  let n := if Int.sgt w step 1
           then Int.sdiv w (Int.sub w (Int.add w n step) 1) step else n in
  n.

Definition randrange_nbits (w n : Z) : Z :=
  Int.sub 32 w (Int.trunc 32 (Int.ctlz w n)).

Definition randrange_draw (w : Z) (name : stream) (n nbits : Z) (_ : unit)
  : M (unit + Z) :=
  r ← get_next_int name nbits;
  let r := Int.trunc w r in
  if Int.sge w r n then mret (inl tt) else mret (inr r).

Definition _randrange_impl (fuel : nat) (w start stop step : Z)
    (name : stream) : M Z :=
  let n := randrange_n w start stop step in
  if Int.sle w n 0 then raise ValueError
  else
    let nbits := randrange_nbits w n in
    r ← iterate fuel (randrange_draw w name n nbits) tt;
    mret (Int.add w start (Int.mul w r step)).

(** The registered entry points of the range family. *)
Definition randrange_impl_1 (fuel : nat) (w stop : Z) : M Z :=
  _randrange_impl fuel w 0 stop 1 py.
Definition randrange_impl_2 (fuel : nat) (w start stop : Z) : M Z :=
  _randrange_impl fuel w start stop 1 py.
Definition randrange_impl_3 (fuel : nat) (w start stop step : Z) : M Z :=
  _randrange_impl fuel w start stop step py.
Definition randint_impl_1 (fuel : nat) (w start stop : Z) : M Z :=
  let step := 1 in
  let stop := Int.add w stop step in
  _randrange_impl fuel w start stop step py.
Definition randint_impl_2 (fuel : nat) (w stop : Z) : M Z :=
  _randrange_impl fuel w 0 stop 1 np.
Definition np_randrange_impl_2 (fuel : nat) (w start stop : Z) : M Z :=
  _randrange_impl fuel w start stop 1 np.

(* ------------------------------------------------------------------ *)
(** ** Gaussian cache *)

#[local] Open Scope float_scope.

(** Python's comparisons on floats. *)
Definition fgt (x y : float) : bool := y <? x.
Definition fge (x y : float) : bool := y <=? x.
Definition fne (x y : float) : bool := negb (x =? y).

(** One round of [compute_gauss_pair]'s [while True]. *)
Definition gauss_pair_draw (_random : M float) (_ : unit)
  : M (unit + (float * float * float)) :=
  u1 ← _random;
  let x1 := 2.0 * u1 - 1.0 in
  u2 ← _random;
  let x2 := 2.0 * u2 - 1.0 in
  let r2 := x1 * x1 + x2 * x2 in
  if (r2 <? 1.0) && fne r2 0.0 then mret (inr (x1, x2, r2))
  else mret (inl tt).

Definition compute_gauss_pair (fuel : nat) (_random : M float)
  : M (float * float) :=
  '(x1, x2, r2) ← iterate fuel (gauss_pair_draw _random) tt;
  q ← py_div (-2.0 * _log r2) r2;
  let f := sqrt q in
  mret (f * x1, f * x2).

Definition _gauss_impl (fuel : nat) (mu sigma : float) (state : stream)
  : M float :=
  let _random := _random_of state in
  has_gauss ← load state st_has_gauss;
  ret ←
    (if negb (Int.wrap 32 has_gauss =? 0)%Z then
       g ← load state st_gauss;
       modify state (store_has_gauss 0);;
       mret g
     else
       '(first, second) ← compute_gauss_pair fuel _random;
       modify state (store_gauss first);;
       modify state (store_has_gauss 1);;
       mret second);
  mret (mu + sigma * ret).

Definition gauss_impl (fuel : nat) (mu sigma : float) : M float :=
  _gauss_impl fuel mu sigma py.
Definition np_gauss_impl (fuel : nat) (mu sigma : float) : M float :=
  _gauss_impl fuel mu sigma np.

(* ------------------------------------------------------------------ *)
(** ** Uniform and triangular *)

Definition uniform_impl (a b : float) (state : stream) : M float :=
  let width := b - a in
  r ← get_next_double state;
  mret (a + width * r).

Definition triangular_impl_2 (low high : float) : M float :=
  randval ← get_next_double py;
  let u := randval in
  let c := 0.5 in
  let '(u, low, high) :=
    if fgt u c then (1.0 - u, high, low) else (u, low, high) in
  mret (low + (high - low) * sqrt (u * c)).

Definition _triangular_impl_3 (low high mode : float) (state : stream)
  : M float :=
  randval ← get_next_double state;
  if high =? low then mret low
  else
    let u := randval in
    c ← py_div (mode - low) (high - low);
    let '(u, c, low, high) :=
      if fgt u c then (1.0 - u, 1.0 - c, high, low) else (u, c, low, high) in
    mret (low + (high - low) * sqrt (u * c)).

(** [random.triangular(low, high, mode)]. *)
Definition triangular_impl_3 (low high mode : float) : M float :=
  _triangular_impl_3 low high mode py.
(** [np.random.triangular(low, mode, high)]. *)
Definition np_triangular_impl_3 (low mode high : float) : M float :=
  _triangular_impl_3 low high mode np.

(* ------------------------------------------------------------------ *)
(** ** Gamma and beta *)

Definition _e : float := 2.718281828459045.
Definition _pi : float := 3.141592653589793.
Definition TWOPI : float := 2.0 * _pi.
Definition LOG4 : float := _log 4.0.
Definition SG_MAGICCONST : float := 1.0 + _log 4.5.

(** One round of Cheng's loop ([alpha > 1.0]). *)
Definition gamma_cheng_draw (_random : M float)
    (alpha beta ainv bbb ccc : float) (_ : unit) : M (unit + float) :=
  u1 ← _random;
  if negb ((1e-7 <? u1) && (u1 <? 0.9999999)) then mret (inl tt)
  else
    r2 ← _random;
    let u2 := 1.0 - r2 in
    t ← py_div u1 (1.0 - u1);
    v ← py_div (_log t) ainv;
    let x := alpha * _exp v in
    let z := u1 * u1 * u2 in
    let r := bbb + ccc * v - x in
    if fge (r + SG_MAGICCONST - 4.5 * z) 0.0 || fge r (_log z)
    then mret (inr (x * beta))
    else mret (inl tt).

(** [while u <= 1e-7: u = _random()] ([alpha == 1.0]). *)
Definition gamma_expo_draw (_random : M float) (u : float)
  : M (float + float) :=
  if u <=? 1e-7 then u' ← _random; mret (inl u') else mret (inr u).

(** One round of algorithm GS ([0 < alpha < 1]). *)
Definition gamma_gs_draw (_random : M float) (alpha : float) (_ : unit)
  : M (unit + float) :=
  u ← _random;
  b ← py_div (_e + alpha) _e;
  let p := b * u in
  x ← (if p <=? 1.0
       then t ← py_div 1.0 alpha; mret (_pow p t)
       else t ← py_div (b - p) alpha; mret (- _log t));
  u1 ← _random;
  if fgt p 1.0 then
    if u1 <=? _pow x (alpha - 1.0) then mret (inr x) else mret (inl tt)
  else if u1 <=? _exp (- x) then mret (inr x)
  else mret (inl tt).

Definition _gammavariate_impl (fuel : nat) (_random : M float)
    (alpha beta : float) : M float :=
  if (alpha <=? 0.0) || (beta <=? 0.0) then raise ValueError
  else if fgt alpha 1.0 then
    let ainv := sqrt (2.0 * alpha - 1.0) in
    let bbb := alpha - LOG4 in
    let ccc := alpha + ainv in
    iterate fuel (gamma_cheng_draw _random alpha beta ainv bbb ccc) tt
  else if alpha =? 1.0 then
    u ← _random;
    u ← iterate fuel (gamma_expo_draw _random) u;
    mret (- _log u * beta)
  else
    x ← iterate fuel (gamma_gs_draw _random alpha) tt;
    mret (x * beta).

(** [random.gammavariate] and [np.random.gamma]. *)
Definition gammavariate_impl (fuel : nat) (alpha beta : float) : M float :=
  _gammavariate_impl fuel (random_impl py) alpha beta.
Definition np_gammavariate_impl (fuel : nat) (alpha beta : float) : M float :=
  _gammavariate_impl fuel (random_impl np) alpha beta.

Definition _betavariate_impl (gamma : float -> float -> M float)
    (alpha beta : float) : M float :=
  y ← gamma alpha 1.0;
  if y =? 0.0 then mret 0.0
  else
    y2 ← gamma beta 1.0;
    py_div y (y + y2).

Definition betavariate_impl (fuel : nat) (alpha beta : float) : M float :=
  _betavariate_impl (gammavariate_impl fuel) alpha beta.
Definition np_betavariate_impl (fuel : nat) (alpha beta : float) : M float :=
  _betavariate_impl (np_gammavariate_impl fuel) alpha beta.

(* ------------------------------------------------------------------ *)
(** ** Exponential, log-normal, Pareto, Weibull, von Mises *)

Definition expovariate_impl (lambd : float) : M float :=
  r ← random_impl py;
  py_div (- _log (1.0 - r)) lambd.

Definition exponential_impl (scale : float) : M float :=
  r ← random_impl np;
  mret (- _log (1.0 - r) * scale).

Definition standard_exponential_impl : M float :=
  r ← random_impl np;
  mret (- _log (1.0 - r)).

Definition _lognormvariate_impl (_gauss : float -> float -> M float)
    (mu sigma : float) : M float :=
  g ← _gauss mu sigma;
  mret (_exp g).

Definition np_lognormal_impl (fuel : nat) (mu sigma : float) : M float :=
  _lognormvariate_impl (np_gauss_impl fuel) mu sigma.
Definition lognormvariate_impl (fuel : nat) (mu sigma : float) : M float :=
  _lognormvariate_impl (gauss_impl fuel) mu sigma.

Definition paretovariate_impl (alpha : float) : M float :=
  r ← random_impl py;
  let u := 1.0 - r in
  t ← py_div 1.0 alpha;
  py_div 1.0 (_pow u t).

Definition pareto_impl (alpha : float) : M float :=
  r ← random_impl np;
  let u := 1.0 - r in
  t ← py_div 1.0 alpha;
  q ← py_div 1.0 (_pow u t);
  mret (q - 1.0).

Definition weibullvariate_impl (alpha beta : float) : M float :=
  r ← random_impl py;
  let u := 1.0 - r in
  t ← py_div 1.0 beta;
  mret (alpha * _pow (- _log u) t).

Definition weibull_impl (beta : float) : M float :=
  r ← random_impl np;
  let u := 1.0 - r in
  t ← py_div 1.0 beta;
  mret (_pow (- _log u) t).

Definition vonmises_draw (_random : M float) (r : float) (_ : unit)
  : M (unit + float) :=
  u1 ← _random;
  let z := _cos (_pi * u1) in
  d ← py_div z (r + z);
  u2 ← _random;
  if (u2 <? 1.0 - d * d) || (u2 <=? (1.0 - d) * _exp d)
  then mret (inr z) else mret (inl tt).

Definition _vonmisesvariate_impl (fuel : nat) (_random : M float)
    (mu kappa : float) : M float :=
  if kappa <=? 1e-6 then
    r ← _random; mret (TWOPI * r)
  else
    s ← py_div 0.5 kappa;
    let r := s + sqrt (1.0 + s * s) in
    z ← iterate fuel (vonmises_draw _random r) tt;
    q ← py_div 1.0 r;
    f ← py_div (q + z) (1.0 + q * z);
    u3 ← _random;
    if fgt u3 0.5 then mret (_fmod (mu + _acos f) TWOPI)
    else mret (_fmod (mu - _acos f) TWOPI).

Definition vonmisesvariate_impl (fuel : nat) (mu kappa : float) : M float :=
  _vonmisesvariate_impl fuel (random_impl py) mu kappa.
Definition np_vonmisesvariate_impl (fuel : nat) (mu kappa : float)
  : M float :=
  _vonmisesvariate_impl fuel (random_impl np) mu kappa.

(* ------------------------------------------------------------------ *)
(** ** The samplers of [np.random] only *)

Definition chisquare_impl (fuel : nat) (df : float) : M float :=
  t ← py_div df 2.0;
  g ← np_gammavariate_impl fuel t 1.0;
  mret (2.0 * g).

Definition f_impl (fuel : nat) (num denom : float) : M float :=
  c1 ← chisquare_impl fuel num;
  c2 ← chisquare_impl fuel denom;
  py_div (c1 * denom) (c2 * num).

Definition geometric_sum (q U : float) (st : Z * float * float)
  : M (Z * float * float + Z) :=
  let '(X, sum, prod) := st in
  if fgt U sum then
    let prod := prod * q in
    let sum := sum + prod in
    mret (inl (Int.add 64 X 1, sum, prod))
  else mret (inr X).

Definition geometric_impl (fuel : nat) (p : float) : M Z :=
  if (p <=? 0.0) || fgt p 1.0 then raise ValueError
  else
    let q := 1.0 - p in
    if fge p 0.333333333333333333333333 then
      U ← random_impl np;
      iterate fuel (geometric_sum q U) (1%Z, p, p)
    else
      r ← random_impl np;
      t ← py_div (_log (1.0 - r)) (_log q);
      mret (fptosi (_ceil t)).

Definition gumbel_impl (loc scale : float) : M float :=
  r ← random_impl np;
  let U := 1.0 - r in
  mret (loc - scale * _log (- _log U)).

Definition hypergeometric_step (d1 : Z) (st : float * Z)
  : M (float * Z + float) :=
  let '(Y, K) := st in
  if fgt Y 0.0 && Int.sgt 64 K 0 then
    r ← random_impl np;
    t ← py_div Y (sitofp (Int.add 64 d1 K));
    mret (inl (Y - _floor (r + t), Int.sub 64 K 1))
  else mret (inr Y).

Definition hypergeometric_impl (fuel : nat) (ngood nbad nsamples : Z)
  : M Z :=
  let d1 := Int.sub 64 (Int.add 64 nbad ngood) nsamples in
  let d2 := sitofp (if Int.slt 64 ngood nbad then ngood else nbad) in
  Y ← iterate fuel (hypergeometric_step d1) (d2, nsamples);
  let Z := fptosi (d2 - Y) in
  if Int.sgt 64 ngood nbad then mret (Int.sub 64 nsamples Z)
  else mret (Int.wrap 64 Z).

Definition laplace_impl (loc scale : float) : M float :=
  U ← random_impl np;
  if U <? 0.5 then mret (loc + scale * _log (U + U))
  else mret (loc - scale * _log (2.0 - U - U)).

Definition logistic_impl (loc scale : float) : M float :=
  U ← random_impl np;
  t ← py_div U (1.0 - U);
  mret (loc + scale * _log t).

Definition logseries_draw (p r : float) (_ : unit) : M (unit + Z) :=
  V ← random_impl np;
  if fge V p then mret (inr 1%Z)
  else
    U ← random_impl np;
    let q := 1.0 - _exp (r * U) in
    if V <=? q * q then
      t ← py_div (_log V) (_log q);
      mret (inr (Int.wrap 64 (fptosi (1.0 + t))))
    else if fge V q then mret (inr 1%Z)
    else mret (inr 2%Z).

Definition logseries_impl (fuel : nat) (p : float) : M Z :=
  if (p <=? 0.0) || fgt p 1.0 then raise ValueError
  else
    let r := _log (1.0 - p) in
    iterate fuel (logseries_draw p r) tt.

(** The call of the C routine [numba_poisson_ptrs] on the [np] state. *)
Definition call_poisson_ptrs (lam : float) : M Z :=
  fun σ =>
    let '(r, s') := numba_poisson_ptrs (get_state_ptr np σ) lam in
    Ret r (set_state np s' σ).

Definition poisson_draw (enlam : float) (st : Z * float)
  : M (Z * float + Z) :=
  let '(X, prod) := st in
  U ← random_impl np;
  let prod := prod * U in
  if prod <=? enlam then mret (inr X)
  else mret (inl (Int.add 64 X 1, prod)).

(** The inner [poisson_impl(lam)], Numpy's algorithm for small [lam]. *)
Definition poisson_small (fuel : nat) (lam : float) : M Z :=
  if lam <? 0.0 then raise ValueError
  else if lam =? 0.0 then mret 0%Z
  else
    let enlam := _exp (- lam) in
    iterate fuel (poisson_draw enlam) (0%Z, 1.0).

(** [np.random.poisson], with [args] the zero or one arguments given. *)
Definition poisson_impl (fuel : nat) (args : option float) : M Z :=
  match args with
  | Some lam =>
      if fge lam 10.0 then call_poisson_ptrs lam
      else poisson_small fuel lam
  | None => poisson_small fuel 1.0
  end.

Definition negative_binomial_impl (fuel : nat) (n : Z) (p : float) : M Z :=
  if Int.sle 64 n 0 then raise ValueError
  else if (p <? 0.0) || fgt p 1.0 then raise ValueError
  else
    t ← py_div (1.0 - p) p;
    Y ← np_gammavariate_impl fuel (sitofp n) t;
    poisson_impl fuel (Some Y).

Definition power_impl (a : float) : M float :=
  if a <=? 0.0 then raise ValueError
  else
    x ← standard_exponential_impl;
    t ← py_div 1.0 a;
    mret (_pow (1.0 - _exp (- x)) t).

(* ------------------------------------------------------------------ *)
(** ** Shuffle *)

#[local] Close Scope float_scope.

Section Shuffle.
Context {A : Type}.

(** [arr[i]] for a machine index; the generated code does not check the
    bounds, so an index outside the array is an error of the model. *)
Definition getitem (arr : list A) (i : Z) : M A :=
  match (if Int.signed 64 i <? 0 then None
         else arr !! Z.to_nat (Int.signed 64 i)) with
  | Some x => mret x
  | None => raise IndexOutOfBounds
  end.

Definition setitem (arr : list A) (i : Z) (x : A) : list A :=
  <[Z.to_nat (Int.signed 64 i) := x]> arr.

Definition shuffle_step (fuel : nat) (st : list A * Z)
  : M (list A * Z + list A) :=
  let '(arr, i) := st in
  if Int.sgt 64 i 0 then
    j ← randrange_impl_1 fuel 64 (Int.add 64 i 1);
    aj ← getitem arr j;
    ai ← getitem arr i;
    let arr := setitem arr i aj in
    let arr := setitem arr j ai in
    mret (inl (arr, Int.sub 64 i 1))
  else mret (inr arr).

Definition shuffle_impl (fuel : nat) (arr : list A) : M (list A) :=
  let i := Int.sub 64 (Z.of_nat (length arr)) 1 in
  iterate fuel (shuffle_step fuel) (arr, i).

End Shuffle.

(* ------------------------------------------------------------------ *)
(** ** Definitions the statements are written with *)

(** What [get_next_int32] does to the state it is pointed at. *)
Definition next_int32 (s : rnd_state) : Z * rnd_state :=
  let s1 := if Int.uge (Int.wrap 32 (st_index s)) N
            then store_index 0 (numba_rnd_shuffle s) else s in
  let idx := Int.wrap 32 (st_index s1) in
  (temper (Int.wrap 32 (nth (Z.to_nat idx) (st_words s1) 0)),
   store_index (Int.add 32 idx 1) s1).

(** The number of bits needed to write [z >= 0] in binary (Python's
    [int.bit_length]). *)
Definition bit_length (z : Z) : Z := if z =? 0 then 0 else Z.log2 z + 1.

(** The [k]-th value that [get_next_int] produces from [σ], with the store
    it leaves. *)
Definition run_next_int (name : stream) (nbits : Z) (σ : store) : Z * store :=
  match get_next_int name nbits σ with
  | Ret r σ' => (r, σ')
  | _ => (0, σ)
  end.

Fixpoint nth_next_int (name : stream) (nbits : Z) (k : nat) (σ : store)
  : Z * store :=
  match k with
  | O => run_next_int name nbits σ
  | S k' => nth_next_int name nbits k' (snd (run_next_int name nbits σ))
  end.

(** The test that leaves the rejection loop: [r < n], signed. *)
Definition accepted (w n r : Z) : bool := negb (Int.sge w (Int.trunc w r) n).

(** Not below zero: a NaN, a zero, [+inf] or a positive finite double. *)
Definition SFnot_neg (x : spec_float) : bool :=
  match x with
  | S754_infinity s | S754_finite s _ _ => negb s
  | _ => true
  end.

(** Not a zero and not a NaN: a finite double other than zero, or an
    infinity. *)
Definition SFnonzero (x : spec_float) : bool :=
  match x with S754_finite _ _ _ | S754_infinity _ => true | _ => false end.

(** The value and the store that one call of [get_next_double] gives. *)
Definition run_next_double (name : stream) (σ : store) : float * store :=
  match get_next_double name σ with
  | Ret r σ' => (r, σ')
  | _ => (0%float, σ)
  end.

(** One round of the polar method: two uniform draws [u1], [u2] from the
    stream, [x1 = 2*u1 - 1], [x2 = 2*u2 - 1] and [r2 = x1*x1 + x2*x2]. *)
Definition gauss_round (name : stream) (σ : store)
  : float * float * float * store :=
  let '(u1, σ1) := run_next_double name σ in
  let '(u2, σ2) := run_next_double name σ1 in
  let x1 := (2.0 * u1 - 1.0)%float in
  let x2 := (2.0 * u2 - 1.0)%float in
  (x1, x2, (x1 * x1 + x2 * x2)%float, σ2).

Fixpoint nth_gauss_round (name : stream) (k : nat) (σ : store)
  : float * float * float * store :=
  match k with
  | O => gauss_round name σ
  | S k' => nth_gauss_round name k' (snd (gauss_round name σ))
  end.

(** [0 < r2 < 1]. *)
Definition in_unit_disk (r2 : float) : bool :=
  ((0 <? r2) && (r2 <? 1))%float.

(** [m] never raises [e]. *)
Definition never_raises {A} (e : error) (m : M A) : Prop :=
  forall σ σ', m σ <> Raise e σ'.

(** What [get_next_double] does to the state it is pointed at. *)
Definition next_double (s : rnd_state) : float * rnd_state :=
  let '(a, s1) := next_int32 s in
  let '(b, s2) := next_int32 s1 in
  (PrimFloat.div
     (PrimFloat.add (uitofp (Int.lshr b 6))
        (PrimFloat.mul (uitofp (Int.lshr a 5)) 67108864%float))
     9007199254740992%float, s2).

(** Two outcomes agree for stream [name]: same result, and the same state
    of that stream afterwards. *)
Definition agree (name : stream) {A} (o1 o2 : outcome A) : Prop :=
  match o1, o2 with
  | Ret a σ1, Ret b σ2 =>
      a = b /\ get_state_ptr name σ1 = get_state_ptr name σ2
  | Raise e σ1, Raise e' σ2 =>
      e = e' /\ get_state_ptr name σ1 = get_state_ptr name σ2
  | Spin, Spin => True
  | _, _ => False
  end.

(** The outcome leaves the other stream of [σ] as it was. *)
Definition keeps_other (name : stream) {A} (σ : store) (o : outcome A)
  : Prop :=
  match o with
  | Ret _ σ' | Raise _ σ' =>
      get_state_ptr (other name) σ' = get_state_ptr (other name) σ
  | Spin => True
  end.

(** [m] reads and writes the state of stream [name] only. *)
Definition local (name : stream) {A} (m : M A) : Prop :=
  (forall σ, keeps_other name σ (m σ)) /\
  (forall σ1 σ2, get_state_ptr name σ1 = get_state_ptr name σ2 ->
                 agree name (m σ1) (m σ2)).

(** The registered entry points, by the name they are registered under;
    integer arguments carry the width [w] of their type, defaults are
    filled in as [_fill_defaults] does. *)
Inductive call : Type :=
| random_seed (v : Z)
| np_random_seed (v : Z)
| random_random
| np_random_random
| random_gauss (mu sigma : float)
| np_random_normal (mu sigma : float)
| random_getrandbits (nbits : Z)
| random_randrange_1 (w stop : Z)
| random_randrange_2 (w start stop : Z)
| random_randrange (w start stop step : Z)
| random_randint (w a b : Z)
| np_random_randint_1 (w stop : Z)
| np_random_randint (w start stop : Z)
| random_uniform (a b : float)
| np_random_uniform (a b : float)
| random_triangular_2 (low high : float)
| random_triangular_3 (low high mode : float)
| np_random_triangular (low mode high : float)
| random_gammavariate (alpha beta : float)
| np_random_gamma (alpha beta : float)
| random_betavariate (alpha beta : float)
| np_random_beta (alpha beta : float)
| random_expovariate (lambd : float)
| np_random_exponential (scale : float)
| np_random_standard_exponential
| random_lognormvariate (mu sigma : float)
| np_random_lognormal (mu sigma : float)
| random_paretovariate (alpha : float)
| np_random_pareto (alpha : float)
| random_weibullvariate (alpha beta : float)
| np_random_weibull (beta : float)
| random_vonmisesvariate (mu kappa : float)
| np_random_vonmises (mu kappa : float)
| np_random_chisquare (df : float)
| np_random_f (num denom : float)
| np_random_geometric (p : float)
| np_random_gumbel (loc scale : float)
| np_random_hypergeometric (ngood nbad nsamples : Z)
| np_random_laplace (loc scale : float)
| np_random_logistic (loc scale : float)
| np_random_logseries (p : float)
| np_random_negative_binomial (n : Z) (p : float)
| np_random_poisson (args : option float)
| np_random_power (a : float)
| random_shuffle (arr : list Z).

(** What a call hands back. *)
Inductive value : Type :=
| VNone
| VInt (z : Z)
| VFloat (x : float)
| VArray (arr : list Z).

(** The stream a call is registered on: [random.*] is [py], [np.random.*]
    is [np]. *)
Definition stream_of (c : call) : stream :=
  match c with
  | random_seed _ | random_random | random_gauss _ _ | random_getrandbits _
  | random_randrange_1 _ _ | random_randrange_2 _ _ _
  | random_randrange _ _ _ _ | random_randint _ _ _ | random_uniform _ _
  | random_triangular_2 _ _ | random_triangular_3 _ _ _
  | random_gammavariate _ _ | random_betavariate _ _ | random_expovariate _
  | random_lognormvariate _ _ | random_paretovariate _
  | random_weibullvariate _ _ | random_vonmisesvariate _ _
  | random_shuffle _ => py
  | _ => np
  end.

Definition exec (fuel : nat) (c : call) : M value :=
  match c with
  | random_seed v => _seed_impl py v;; mret VNone
  | np_random_seed v => _seed_impl np v;; mret VNone
  | random_random => VFloat <$> random_impl py
  | np_random_random => VFloat <$> random_impl np
  | random_gauss mu sigma => VFloat <$> gauss_impl fuel mu sigma
  | np_random_normal mu sigma => VFloat <$> np_gauss_impl fuel mu sigma
  | random_getrandbits nbits => VInt <$> getrandbits_impl nbits
  | random_randrange_1 w stop => VInt <$> randrange_impl_1 fuel w stop
  | random_randrange_2 w start stop =>
      VInt <$> randrange_impl_2 fuel w start stop
  | random_randrange w start stop step =>
      VInt <$> randrange_impl_3 fuel w start stop step
  | random_randint w a b => VInt <$> randint_impl_1 fuel w a b
  | np_random_randint_1 w stop => VInt <$> randint_impl_2 fuel w stop
  | np_random_randint w start stop =>
      VInt <$> np_randrange_impl_2 fuel w start stop
  | random_uniform a b => VFloat <$> uniform_impl a b py
  | np_random_uniform a b => VFloat <$> uniform_impl a b np
  | random_triangular_2 low high => VFloat <$> triangular_impl_2 low high
  | random_triangular_3 low high mode =>
      VFloat <$> triangular_impl_3 low high mode
  | np_random_triangular low mode high =>
      VFloat <$> np_triangular_impl_3 low mode high
  | random_gammavariate alpha beta =>
      VFloat <$> gammavariate_impl fuel alpha beta
  | np_random_gamma alpha beta =>
      VFloat <$> np_gammavariate_impl fuel alpha beta
  | random_betavariate alpha beta =>
      VFloat <$> betavariate_impl fuel alpha beta
  | np_random_beta alpha beta => VFloat <$> np_betavariate_impl fuel alpha beta
  | random_expovariate lambd => VFloat <$> expovariate_impl lambd
  | np_random_exponential scale => VFloat <$> exponential_impl scale
  | np_random_standard_exponential => VFloat <$> standard_exponential_impl
  | random_lognormvariate mu sigma =>
      VFloat <$> lognormvariate_impl fuel mu sigma
  | np_random_lognormal mu sigma => VFloat <$> np_lognormal_impl fuel mu sigma
  | random_paretovariate alpha => VFloat <$> paretovariate_impl alpha
  | np_random_pareto alpha => VFloat <$> pareto_impl alpha
  | random_weibullvariate alpha beta =>
      VFloat <$> weibullvariate_impl alpha beta
  | np_random_weibull beta => VFloat <$> weibull_impl beta
  | random_vonmisesvariate mu kappa =>
      VFloat <$> vonmisesvariate_impl fuel mu kappa
  | np_random_vonmises mu kappa =>
      VFloat <$> np_vonmisesvariate_impl fuel mu kappa
  | np_random_chisquare df => VFloat <$> chisquare_impl fuel df
  | np_random_f num denom => VFloat <$> f_impl fuel num denom
  | np_random_geometric p => VInt <$> geometric_impl fuel p
  | np_random_gumbel loc scale => VFloat <$> gumbel_impl loc scale
  | np_random_hypergeometric ngood nbad nsamples =>
      VInt <$> hypergeometric_impl fuel ngood nbad nsamples
  | np_random_laplace loc scale => VFloat <$> laplace_impl loc scale
  | np_random_logistic loc scale => VFloat <$> logistic_impl loc scale
  | np_random_logseries p => VInt <$> logseries_impl fuel p
  | np_random_negative_binomial n p =>
      VInt <$> negative_binomial_impl fuel n p
  | np_random_poisson args => VInt <$> poisson_impl fuel args
  | np_random_power a => VFloat <$> power_impl a
  | random_shuffle arr => VArray <$> shuffle_impl fuel arr
  end.

(** What the caller sees of one call. *)
Inductive result : Type :=
| Returned (v : value)
| Raised (e : error).

(** A sequence of calls run one after the other on the store; a raise is
    seen by the caller, who goes on with the next call; a call that keeps
    running ends the sequence ([None] for the final store). *)
Fixpoint run_calls (fuel : nat) (cs : list call) (σ : store)
  : list (stream * result) * option store :=
  match cs with
  | [] => ([], Some σ)
  | c :: cs' =>
      match exec fuel c σ with
      | Ret v σ' =>
          let '(rs, fin) := run_calls fuel cs' σ' in
          ((stream_of c, Returned v) :: rs, fin)
      | Raise e σ' =>
          let '(rs, fin) := run_calls fuel cs' σ' in
          ((stream_of c, Raised e) :: rs, fin)
      | Spin => ([], None)
      end
  end.

#[global] Instance stream_eq_dec : EqDecision stream.
Proof. solve_decision. Defined.

(** The outputs of stream [s] in a run, in order. *)
Definition outputs_of (s : stream) (rs : list (stream * result))
  : list result :=
  snd <$> filter (fun x => fst x = s) rs.

(** The calls of a sequence that are made on stream [s]. *)
Definition calls_of (s : stream) (cs : list call) : list call :=
  filter (fun c => stream_of c = s) cs.

Section ShuffleSpec.
Context {A : Type}.
Implicit Types (arr : list A).

(** The loop of [shuffle_impl] written by recursion on the swap index: the
    rounds [i, i - 1, ..., 1], each with one [randrange(i + 1)] call. *)
Fixpoint fisher_yates (fuel : nat) (i : nat) arr : M (list A) :=
  match i with
  | O => mret arr
  | S i' =>
      j ← randrange_impl_1 fuel 64 (Int.add 64 (Z.of_nat i) 1);
      aj ← getitem arr j;
      ai ← getitem arr (Z.of_nat i);
      fisher_yates fuel i' (setitem (setitem arr (Z.of_nat i) aj) j ai)
  end.

(** Every [randrange] call on the [py] stream meets an accepted value
    within [B] rounds. *)
Definition rejection_bounded (B : nat) : Prop :=
  forall σ n, 0 < n < 2 ^ 63 ->
    exists k, (k < B)%nat /\
              fst (nth_next_int py (randrange_nbits 64 n) k σ) < n.

(** The index is in the array, or the array is empty and the index is
    [-1]. *)
Definition index_ok arr (i : Z) : Prop :=
  0 <= i < Z.of_nat (length arr) \/ (arr = [] /\ i = 2 ^ 64 - 1).

End ShuffleSpec.

(* ------------------------------------------------------------------ *)
(** ** Exact binary64 arithmetic on integers below [2^53] *)

Lemma iter_pos_eq {A} (f : A -> A) (p : positive) (x : A) :
  SpecFloat.iter_pos f p x = Pos.iter f x p.
Proof.
  revert x. induction p as [p IH|p IH|]; intros x; simpl.
  - rewrite !IH. rewrite <- !Pos.iter_swap. reflexivity.
  - rewrite !IH. reflexivity.
  - reflexivity.
Qed.

Lemma iter_pos_shr_1 (p : positive) (m : positive) :
  SpecFloat.iter_pos shr_1 p (Build_shr_record (Zpos (Pos.iter xO m p)) false false)
  = Build_shr_record (Zpos m) false false.
Proof.
  rewrite iter_pos_eq.
  induction p using Pos.peano_ind.
  - reflexivity.
  - rewrite !Pos.iter_succ. rewrite <- Pos.iter_swap. simpl. exact IHp.
Qed.

Lemma digits2_iter_xO (m : positive) (p : positive) :
  Zpos (digits2_pos (Pos.iter xO m p)) = Zpos (digits2_pos m) + Zpos p.
Proof.
  induction p using Pos.peano_ind.
  - simpl. lia.
  - rewrite Pos.iter_succ. simpl digits2_pos. lia.
Qed.

Lemma shl_pos_digits n k : 0 <= k ->
  Zpos (digits2_pos (shl_pos n k)) = Zpos (digits2_pos n) + k.
Proof.
  destruct k; simpl; intros; try lia. apply digits2_iter_xO.
Qed.

Lemma shl_pos_add n a b : 0 <= a -> 0 <= b ->
  shl_pos (shl_pos n a) b = shl_pos n (a + b).
Proof.
  destruct a, b; simpl; intros; try lia; try reflexivity.
  rewrite Pos.add_comm. symmetry. apply Pos.iter_add.
Qed.

Lemma shl_pos_val n k : 0 <= k -> Zpos (shl_pos n k) = Zpos n * 2 ^ k.
Proof.
  destruct k as [|p|p]; intros H; [simpl; lia| |lia].
  change (shl_pos n (Zpos p)) with (Pos.iter xO n p). clear H.
  induction p using Pos.peano_ind.
  - change (Z.pos n~0 = Z.pos n * 2). rewrite Pos2Z.inj_xO. lia.
  - rewrite Pos.iter_succ. rewrite Pos2Z.inj_xO, IHp.
    rewrite Pos2Z.inj_succ, Z.pow_succ_r by lia. ring.
Qed.

Lemma shr_fexp_exact n k e :
  let d := Zpos (digits2_pos n) in
  0 <= k -> 53 - d <= k -> d <= 53 -> -1074 <= e + d - 53 ->
  shr_fexp prec emax (Zpos (shl_pos n k)) (e - k) loc_Exact
  = (Build_shr_record (Zpos (shl_pos n (53 - d))) false false, e + d - 53).
Proof.
  intros d Hk Hd Hd' He.
  unfold shr_fexp, Zdigits2, fexp, SpecFloat.emin, prec, emax.
  rewrite shl_pos_digits by lia. fold d.
  assert (Hs : IntDef.Z.max (d + k + (e - k) - 53) (3 - 1024 - 53) - (e - k)
               = d + k - 53) by lia.
  rewrite Hs; clear Hs.
  simpl shr_record_of_loc.
  destruct (d + k - 53) as [|t|t] eqn:Et; try lia.
  - unfold shr. replace (53 - d) with k by lia. f_equal. lia.
  - unfold shr. f_equal; [|lia].
    replace k with ((53 - d) + Zpos t) by lia.
    rewrite <- shl_pos_add by lia. simpl (shl_pos _ (Zpos t)).
    apply iter_pos_shr_1.
Qed.

Lemma shr_fexp_exact53 m e :
  Zpos (digits2_pos m) = 53 -> -1074 <= e ->
  shr_fexp prec emax (Zpos m) e loc_Exact
  = (Build_shr_record (Zpos m) false false, e).
Proof.
  intros Hm He.
  pose proof (shr_fexp_exact m 0 e) as H. cbv zeta in H.
  rewrite Hm in H. change (shl_pos m 0) with m in H.
  change (shl_pos m (53 - 53)) with m in H.
  replace (e - 0) with e in H by lia.
  replace (e + 53 - 53) with e in H by lia.
  apply H; lia.
Qed.

Lemma binary_round_aux_exact s n k e :
  let d := Zpos (digits2_pos n) in
  0 <= k -> 53 - d <= k -> d <= 53 -> -1074 <= e + d - 53 <= 971 ->
  binary_round_aux prec emax s (Zpos (shl_pos n k)) (e - k) loc_Exact
  = S754_finite s (shl_pos n (53 - d)) (e + d - 53).
Proof.
  intros d Hk Hd Hd' He. unfold binary_round_aux.
  rewrite shr_fexp_exact by (fold d; lia). fold d.
  cbn [shr_m loc_of_shr_record round_nearest_even].
  rewrite shr_fexp_exact53; [| rewrite shl_pos_digits by lia; fold d; lia | lia].
  cbn [shr_m]. unfold prec, emax.
  destruct (Z.leb_spec (e + d - 53) (1024 - 53)); [reflexivity|lia].
Qed.

Lemma digits_log2 n : pdigits n = Z.log2 (Zpos n) + 1.
Proof.
  unfold pdigits. induction n as [n IH|n IH|]; try reflexivity.
  - change (Z.log2 (Zpos n~1)) with (Zpos (Pos.size n)).
    simpl digits2_pos. rewrite Pos2Z.inj_succ, IH.
    destruct n; simpl; lia.
  - change (Z.log2 (Zpos n~0)) with (Zpos (Pos.size n)).
    simpl digits2_pos. rewrite Pos2Z.inj_succ, IH.
    destruct n; simpl; lia.
Qed.

Lemma digits_pos n : 1 <= pdigits n.
Proof. unfold pdigits. lia. Qed.

Lemma digits_lt n k : 0 <= k -> Zpos n < 2 ^ k -> pdigits n <= k.
Proof.
  intros Hk H. rewrite digits_log2.
  assert (Z.log2 (Zpos n) < k) by (apply Z.log2_lt_pow2; lia). lia.
Qed.

Lemma shl_pos_inj_val p n k : 0 <= k -> Zpos p = Zpos n * 2 ^ k -> p = shl_pos n k.
Proof.
  intros Hk H. rewrite <- shl_pos_val in H by lia. congruence.
Qed.

Lemma binary_round_exact s n k e :
  0 <= k -> pdigits n <= 53 -> -1074 <= e + pdigits n - 53 <= 971 ->
  binary_round prec emax s (shl_pos n k) (e - k) = SFnorm s n e.
Proof.
  intros Hk Hd He. unfold binary_round, shl_align, fexp, SpecFloat.emin, prec, emax.
  rewrite shl_pos_digits by lia. fold (pdigits n).
  assert (Hs : IntDef.Z.max (pdigits n + k + (e - k) - 53) (3 - 1024 - 53) - (e - k)
               = pdigits n + k - 53) by lia.
  rewrite Hs; clear Hs.
  assert (Hf : IntDef.Z.max (pdigits n + k + (e - k) - 53) (3 - 1024 - 53)
               = e - (53 - pdigits n)) by lia.
  rewrite Hf; clear Hf.
  pose proof (digits_pos n).
  destruct (pdigits n + k - 53) as [|t|t] eqn:Et.
  - apply binary_round_aux_exact; fold (pdigits n); lia.
  - apply binary_round_aux_exact; fold (pdigits n); lia.
  - change (Pos.iter xO (shl_pos n k) t) with (shl_pos (shl_pos n k) (Zpos t)).
    rewrite shl_pos_add by lia.
    replace (k + Zpos t) with (53 - pdigits n) by lia.
    apply binary_round_aux_exact; fold (pdigits n); lia.
Qed.

Lemma binary_normalize_int z :
  0 <= z < 2 ^ 53 -> binary_normalize prec emax z 0 false = SFofZ z.
Proof.
  intros H. destruct z as [|n|n]; try lia; try reflexivity.
  unfold binary_normalize, SFofZ.
  pose proof (digits_lt n 53 ltac:(lia) ltac:(lia)).
  pose proof (digits_pos n).
  apply (binary_round_exact false n 0 0); lia.
Qed.

Lemma shl_align_fst n a e ez :
  0 <= a -> ez <= e ->
  fst (shl_align (shl_pos n a) e ez) = shl_pos n (a + (e - ez)).
Proof.
  intros Ha He. unfold shl_align.
  destruct (ez - e) as [|t|t] eqn:Et; try lia.
  - simpl. f_equal. lia.
  - simpl fst. change (Pos.iter xO (shl_pos n a) t) with (shl_pos (shl_pos n a) (Zpos t)).
    rewrite shl_pos_add by lia. f_equal. lia.
Qed.

Lemma shl_pos_plus x y k : 0 <= k ->
  (shl_pos x k + shl_pos y k)%positive = shl_pos (x + y) k.
Proof.
  intros Hk. apply shl_pos_inj_val; [lia|].
  rewrite Pos2Z.inj_add, !shl_pos_val by lia. rewrite Pos2Z.inj_add. ring.
Qed.

Lemma SFadd_int x y :
  0 <= x -> 0 <= y -> x + y < 2 ^ 53 ->
  SFadd prec emax (SFofZ x) (SFofZ y) = SFofZ (x + y).
Proof.
  intros Hx Hy H.
  destruct x as [|x|x], y as [|y|y]; try lia; try reflexivity.
  change (Zpos x + Zpos y) with (Zpos (x + y)) in *.
  pose proof (digits_lt x 53 ltac:(lia) ltac:(lia)).
  pose proof (digits_lt y 53 ltac:(lia) ltac:(lia)).
  pose proof (digits_lt (x + y) 53 ltac:(lia) ltac:(lia)).
  pose proof (digits_pos x). pose proof (digits_pos y).
  pose proof (digits_pos (x + y)%positive).
  unfold SFofZ, SFnorm, SFadd.
  set (ez := Z.min (0 + pdigits x - 53) (0 + pdigits y - 53)).
  rewrite !shl_align_fst by lia.
  unfold cond_Zopp.
  replace (53 - pdigits x + (0 + pdigits x - 53 - ez)) with (- ez) by lia.
  replace (53 - pdigits y + (0 + pdigits y - 53 - ez)) with (- ez) by lia.
  change (Zpos ?a + Zpos ?b) with (Zpos (a + b)).
  rewrite shl_pos_plus by lia.
  unfold binary_normalize.
  replace ez with (0 - - ez) at 2 by lia.
  apply binary_round_exact; lia.
Qed.

Lemma SFnorm_shift s n j e :
  0 <= j -> pdigits n + j <= 53 -> SFnorm s (shl_pos n j) (e - j) = SFnorm s n e.
Proof.
  intros Hj H. unfold SFnorm, pdigits. rewrite shl_pos_digits by lia.
  fold (pdigits n). rewrite shl_pos_add by lia. f_equal; f_equal; lia.
Qed.

Lemma SFmul_pow26 x :
  0 <= x < 2 ^ 27 ->
  SFmul prec emax (SFofZ x) (Prim2SF 67108864%float) = SFofZ (x * 2 ^ 26).
Proof.
  intros Hx. 
  change (Prim2SF 67108864) with (S754_finite false 4503599627370496 (-26)).
  destruct x as [|x|x]; try lia; try reflexivity.
  pose proof (digits_lt x 27 ltac:(lia) ltac:(lia)).
  pose proof (digits_pos x).
  rewrite <- (shl_pos_val x 26) by lia.
  unfold SFofZ, SFnorm, SFmul. cbn [xorb].
  unfold pdigits at 3 4. rewrite shl_pos_digits by lia. fold (pdigits x).
  rewrite shl_pos_add by lia.
  rewrite Pos.mul_comm.
  change (4503599627370496 * ?m)%positive with (shl_pos m 52).
  rewrite shl_pos_add by lia.
  replace (0 + pdigits x - 53 + -26) with (26 - (53 - pdigits x + 52)) by lia.
  rewrite binary_round_aux_exact by (fold (pdigits x); lia).
  fold (pdigits x). f_equal; f_equal; lia.
Qed.

Lemma SFdiv_pow53 x :
  0 <= x < 2 ^ 53 ->
  SFdiv prec emax (SFofZ x) (Prim2SF 9007199254740992%float) = SFfrac53 x.
Proof.
  intros Hx.
  change (Prim2SF 9007199254740992) with (S754_finite false 4503599627370496 1).
  destruct x as [|x|x]; try lia; try reflexivity.
  pose proof (digits_lt x 53 ltac:(lia) ltac:(lia)).
  pose proof (digits_pos x).
  unfold SFofZ, SFfrac53, SFnorm, SFdiv, SFdiv_core_binary.
  cbn [xorb Zdigits2].
  rewrite shl_pos_digits by lia. fold (pdigits x).
  change (Z.pos (digits2_pos 4503599627370496)) with 53.
  unfold fexp, SpecFloat.emin, prec, emax.
  assert (He : IntDef.Z.min
            (IntDef.Z.max (pdigits x + (53 - pdigits x)
                           + (0 + pdigits x - 53) - (53 + 1) - 53) (3 - 1024 - 53))
            (0 + pdigits x - 53 - 1) = pdigits x - 107) by lia.
  rewrite He; clear He.
  replace (0 + pdigits x - 53 - 1 - (pdigits x - 107)) with 53 by lia.
  cbv iota beta.
  set (m := shl_pos x (53 - pdigits x)).
  assert (Hq : Z.div_eucl (Z.shiftl (Zpos m) 53) (Zpos 4503599627370496)
               = (Zpos (shl_pos m 1), 0)).
  { rewrite Z.shiftl_mul_pow2 by lia.
    pose proof (Z_div_mod (Zpos m * 2 ^ 53) 4503599627370496 ltac:(lia)) as Hdm.
    destruct (Z.div_eucl (Zpos m * 2 ^ 53) 4503599627370496) as [q r].
    destruct Hdm as [Hdm Hr].
    change (2 ^ 53) with (2 * 4503599627370496) in Hdm.
    rewrite shl_pos_val by lia. change (2 ^ 1) with 2.
    f_equal; lia. }
  rewrite Hq. cbn [new_location].
  change (new_location 4503599627370496 0) with loc_Exact.
  unfold m. rewrite shl_pos_add by lia.
  replace (pdigits x - 107) with (-53 - (53 - pdigits x + 1)) by lia.
  rewrite binary_round_aux_exact by (fold (pdigits x); lia).
  reflexivity.
Qed.

Lemma SFfrac53_lt_one x :
  0 <= x < 2 ^ 53 -> SFltb (SFfrac53 x) (Prim2SF 1%float) = true.
Proof.
  intros Hx.
  change (Prim2SF 1) with (S754_finite false 4503599627370496 (-52)).
  destruct x as [|x|x]; try lia; try reflexivity.
  pose proof (digits_lt x 53 ltac:(lia) ltac:(lia)).
  unfold SFfrac53, SFnorm, SFltb, SFcompare.
  destruct (Z.compare_spec (-53 + pdigits x - 53) (-52)); try lia; reflexivity.
Qed.

Lemma SFfrac53_ge_zero x :
  SFleb (Prim2SF 0%float) (SFfrac53 x) = true.
Proof.
  change (Prim2SF 0) with (S754_zero false).
  destruct x; reflexivity.
Qed.

Lemma to_Z_of_small z : 0 <= z < 2 ^ 32 -> Uint63.to_Z (Uint63.of_Z z) = z.
Proof.
  intros H. rewrite Uint63.of_Z_spec. apply Z.mod_small.
  change wB with (2 ^ 63). lia.
Qed.

Lemma double_of_words a b :
  0 <= a < 2 ^ 27 -> 0 <= b < 2 ^ 26 ->
  Prim2SF (PrimFloat.div
             (PrimFloat.add (of_uint63 (of_Z b))
                (PrimFloat.mul (of_uint63 (of_Z a)) 67108864%float))
             9007199254740992%float)
  = SFfrac53 (a * 2 ^ 26 + b).
Proof.
  intros Ha Hb.
  rewrite div_spec, add_spec, mul_spec, !of_uint63_spec.
  rewrite !to_Z_of_small by lia.
  rewrite !binary_normalize_int by lia.
  unfold SF64div, SF64add, SF64mul.
  rewrite SFmul_pow26 by lia.
  rewrite SFadd_int by lia.
  rewrite Z.add_comm.
  apply SFdiv_pow53. lia.
Qed.

(* ------------------------------------------------------------------ *)
(** ** The plumbing of the monad and the engine step *)

Lemma bind_eq {A B} (m : M A) (k : A -> M B) σ :
  (m ≫= k) σ = match m σ with
               | Ret a σ' => k a σ'
               | Raise e σ' => Raise e σ'
               | Spin => Spin
               end.
Proof. reflexivity. Qed.

Lemma get_set_same name s σ : get_state_ptr name (set_state name s σ) = s.
Proof. destruct name; reflexivity. Qed.

Lemma get_set_other name s σ :
  get_state_ptr (other name) (set_state name s σ) = get_state_ptr (other name) σ.
Proof. destruct name; reflexivity. Qed.

Lemma set_set name s s' σ :
  set_state name s (set_state name s' σ) = set_state name s σ.
Proof. destruct name; reflexivity. Qed.

Lemma set_get name σ : set_state name (get_state_ptr name σ) σ = σ.
Proof. destruct name, σ; reflexivity. Qed.

(** Running the plumbing of the monad. *)
Ltac msimpl :=
  cbv beta iota delta [mbind M_bind mret M_ret load modify raise spin].

Lemma get_next_int32_eq name σ :
  get_next_int32 name σ
  = Ret (fst (next_int32 (get_state_ptr name σ)))
        (set_state name (snd (next_int32 (get_state_ptr name σ))) σ).
Proof.
  unfold get_next_int32, next_int32. msimpl.
  destruct (Int.uge (Int.wrap 32 (st_index (get_state_ptr name σ))) N).
  - msimpl. rewrite !get_set_same, !set_set. reflexivity.
  - msimpl. cbn [fst snd]. reflexivity.
Qed.

Lemma lxor_range n a b :
  0 <= n -> 0 <= a < 2 ^ n -> 0 <= b < 2 ^ n -> 0 <= Z.lxor a b < 2 ^ n.
Proof.
  intros Hn Ha Hb. split; [apply Z.lxor_nonneg; lia|].
  assert (0 < 2 ^ n) by (apply Z.pow_pos_nonneg; lia).
  destruct (Z.eq_dec (Z.lxor a b) 0) as [->|Hz]; [lia|].
  assert (0 < Z.lxor a b) by (pose proof (proj2 (Z.lxor_nonneg a b)); lia).
  assert (n <> 0).
  { intros ->. change (2 ^ 0) with 1 in *.
    assert (a = 0) by lia. assert (b = 0) by lia. subst.
    change (Z.lxor 0 0) with 0 in *. lia. }
  apply Z.log2_lt_pow2; [lia|].
  eapply Z.le_lt_trans; [apply Z.log2_lxor; lia|].
  apply Z.max_lub_lt.
  - destruct (Z.eq_dec a 0) as [->|]; [simpl; lia|apply Z.log2_lt_pow2; lia].
  - destruct (Z.eq_dec b 0) as [->|]; [simpl; lia|apply Z.log2_lt_pow2; lia].
Qed.

Lemma land_range n a b : 0 <= a < 2 ^ n -> 0 <= b -> 0 <= Z.land a b < 2 ^ n.
Proof.
  intros Ha Hb.
  assert (0 <= Z.land a b) by (apply Z.land_nonneg; lia).
  split; [assumption|].
  destruct (Z.eq_dec (Z.land a b) 0) as [->|Hz]; [lia|].
  destruct (Z.eq_dec a 0) as [->|]; [rewrite Z.land_0_l in Hz; lia|].
  destruct (Z.le_gt_cases n 0) as [Hn|Hn].
  { assert (2 ^ n <= 2 ^ 0) by (apply Z.pow_le_mono_r; lia).
    change (2 ^ 0) with 1 in *. lia. }
  apply Z.log2_lt_pow2; [lia|].
  pose proof (Z.log2_land a b ltac:(lia) ltac:(lia)).
  assert (Z.log2 a < n) by (apply Z.log2_lt_pow2; lia). lia.
Qed.

Lemma shiftr_range n a k : 0 <= k -> 0 <= a < 2 ^ n -> 0 <= Z.shiftr a k < 2 ^ n.
Proof.
  intros Hk Ha. rewrite Z.shiftr_div_pow2 by lia.
  assert (0 < 2 ^ k) by (apply Z.pow_pos_nonneg; lia).
  split; [apply Z.div_pos; lia|].
  apply Z.le_lt_trans with a; [|lia]. apply Z.div_le_upper_bound; nia.
Qed.

Lemma wrap_range w x : 0 <= w -> 0 <= Int.wrap w x < 2 ^ w.
Proof.
  intros. unfold Int.wrap. apply Z.mod_pos_bound. apply Z.pow_pos_nonneg; lia.
Qed.

Lemma temper_range y : 0 <= y < 2 ^ 32 -> 0 <= temper y < 2 ^ 32.
Proof.
  intros Hy. unfold temper, Int.xor, Int.and_, Int.lshr, Int.shl.
  repeat first
    [ apply lxor_range; [lia| |]
    | apply land_range; [|lia]
    | apply shiftr_range; [lia|]
    | apply wrap_range; lia
    | assumption ].
Qed.

Lemma next_int32_range s : 0 <= fst (next_int32 s) < 2 ^ 32.
Proof. unfold next_int32. cbn [fst]. apply temper_range, wrap_range. lia. Qed.

Lemma SFfrac53_value c :
  0 <= c < 2 ^ 53 ->
  exists q, SF2Q (SFfrac53 c) = Some q /\ (q == c # 9007199254740992)%Q.
Proof.
  intros Hc. destruct c as [|n|n]; try lia.
  - exists 0%Q. split; reflexivity.
  - pose proof (digits_lt n 53 ltac:(lia) ltac:(lia)) as Hd.
    pose proof (digits_pos n) as Hp.
    unfold SFfrac53, SFnorm, SF2Q, cond_Zopp.
    destruct (Z.leb_spec 0 (-53 + pdigits n - 53)); [lia|].
    eexists; split; [reflexivity|].
    unfold Qeq. cbn [Qnum Qden].
    assert (Hpow : 0 < 2 ^ (- (-53 + pdigits n - 53)))
      by (apply Z.pow_pos_nonneg; lia).
    rewrite Z2Pos.id by assumption.
    rewrite shl_pos_val by lia.
    replace (- (-53 + pdigits n - 53)) with ((53 - pdigits n) + 53) by lia.
    rewrite Z.pow_add_r by lia. change (Z.pos 9007199254740992) with (2 ^ 53).
    ring.
Qed.

(** C6: [get_next_double] draws two tempered words [w1] then [w2] and
    returns the double whose value is exactly
    [((w1 >> 5) * 2^26 + (w2 >> 6)) / 2^53]; that double is at least [0.0]
    and strictly below [1.0]. *)
Theorem get_next_double_unit_interval (name : stream) (σ : store) :
  exists w1 σ1 w2 σ2 r q,
    get_next_int32 name σ = Ret w1 σ1 /\
    get_next_int32 name σ1 = Ret w2 σ2 /\
    get_next_double name σ = Ret r σ2 /\
    r = PrimFloat.div
          (PrimFloat.add (uitofp (Int.lshr w2 6))
             (PrimFloat.mul (uitofp (Int.lshr w1 5)) 67108864%float))
          9007199254740992%float /\
    SF2Q (Prim2SF r) = Some q /\
    (q == (Int.lshr w1 5 * 2 ^ 26 + Int.lshr w2 6) # 9007199254740992)%Q /\
    PrimFloat.leb 0%float r = true /\
    PrimFloat.ltb r 1%float = true.
Proof.
  pose proof (get_next_int32_eq name σ) as E1.
  set (w1 := fst (next_int32 (get_state_ptr name σ))) in *.
  set (σ1 := set_state name _ σ) in E1.
  pose proof (get_next_int32_eq name σ1) as E2.
  set (w2 := fst (next_int32 (get_state_ptr name σ1))) in *.
  set (σ2 := set_state name _ σ1) in E2.
  assert (Ha : 0 <= Int.lshr w1 5 < 2 ^ 27).
  { pose proof (next_int32_range (get_state_ptr name σ)) as Hw. fold w1 in Hw.
    unfold Int.lshr. rewrite Z.shiftr_div_pow2 by lia.
    change (2 ^ 5) with 32. change (2 ^ 32) with (32 * 2 ^ 27) in Hw.
    split; [apply Z.div_pos; lia|apply Z.div_lt_upper_bound; lia]. }
  assert (Hb : 0 <= Int.lshr w2 6 < 2 ^ 26).
  { pose proof (next_int32_range (get_state_ptr name σ1)) as Hw. fold w2 in Hw.
    unfold Int.lshr. rewrite Z.shiftr_div_pow2 by lia.
    change (2 ^ 6) with 64. change (2 ^ 32) with (64 * 2 ^ 26) in Hw.
    split; [apply Z.div_pos; lia|apply Z.div_lt_upper_bound; lia]. }
  pose proof (double_of_words _ _ Ha Hb) as Hv.
  assert (Hc : 0 <= Int.lshr w1 5 * 2 ^ 26 + Int.lshr w2 6 < 2 ^ 53).
  { change (2 ^ 53) with (2 ^ 27 * 2 ^ 26). nia. }
  destruct (SFfrac53_value _ Hc) as (q & Hq & Hqv).
  eexists w1, σ1, w2, σ2, _, q.
  split; [exact E1|]. split; [exact E2|].
  split; [unfold get_next_double; msimpl; rewrite E1; msimpl; rewrite E2;
          reflexivity|].
  split; [reflexivity|].
  unfold uitofp. rewrite Hv.
  split; [exact Hq|]. split; [exact Hqv|].
  split.
  - rewrite FloatAxioms.leb_spec, Hv. apply SFfrac53_ge_zero.
  - rewrite FloatAxioms.ltb_spec, Hv. apply SFfrac53_lt_one. exact Hc.
Qed.

(* ------------------------------------------------------------------ *)
(** ** The bounded-range sampler *)

Lemma get_shifted_int_eq name nbits σ :
  get_shifted_int name nbits σ
  = Ret (Int.lshr (fst (next_int32 (get_state_ptr name σ))) (Int.sub 32 32 nbits))
        (set_state name (snd (next_int32 (get_state_ptr name σ))) σ).
Proof.
  unfold get_shifted_int. msimpl. rewrite get_next_int32_eq. reflexivity.
Qed.

Lemma get_next_int_total name nbits σ :
  get_next_int name nbits σ
  = Ret (fst (run_next_int name nbits σ)) (snd (run_next_int name nbits σ)).
Proof.
  unfold run_next_int, get_next_int.
  destruct (Int.ule nbits 32); msimpl.
  - rewrite get_shifted_int_eq. reflexivity.
  - rewrite get_next_int32_eq. msimpl. rewrite get_shifted_int_eq. reflexivity.
Qed.

Lemma get_next_int_range name nbits σ :
  1 <= nbits <= 64 -> 0 <= fst (run_next_int name nbits σ) < 2 ^ nbits.
Proof.
  intros Hn. unfold run_next_int, get_next_int, Int.ule.
  destruct (Z.leb_spec nbits 32) as [Hs|Hs]; msimpl.
  - rewrite get_shifted_int_eq. cbn [fst].
    pose proof (next_int32_range (get_state_ptr name σ)) as Hw.
    set (y := fst (next_int32 _)) in *.
    unfold Int.lshr, Int.sub, Int.wrap.
    rewrite (Z.mod_small (32 - nbits)) by lia.
    rewrite Z.shiftr_div_pow2 by lia.
    assert (0 < 2 ^ (32 - nbits)) by (apply Z.pow_pos_nonneg; lia).
    assert (2 ^ 32 = 2 ^ nbits * 2 ^ (32 - nbits))
      by (rewrite <- Z.pow_add_r by lia; f_equal; lia).
    split; [apply Z.div_pos; lia|apply Z.div_lt_upper_bound; lia].
  - rewrite get_next_int32_eq. msimpl. rewrite get_shifted_int_eq. cbn [fst].
    pose proof (next_int32_range (get_state_ptr name σ)) as Hlo.
    set (lo := fst (next_int32 (get_state_ptr name σ))) in *.
    set (σ1 := set_state name _ σ).
    pose proof (next_int32_range (get_state_ptr name σ1)) as Hhi.
    set (y := fst (next_int32 (get_state_ptr name σ1))) in *.
    unfold Int.lshr, Int.sub, Int.add, Int.shl, Int.zext, Int.wrap.
    rewrite (Z.mod_small (nbits - 32)) by lia.
    rewrite (Z.mod_small (32 - (nbits - 32))) by lia.
    rewrite Z.shiftr_div_pow2, Z.shiftl_mul_pow2 by lia.
    assert (0 < 2 ^ (32 - (nbits - 32))) by (apply Z.pow_pos_nonneg; lia).
    assert (0 < 2 ^ (nbits - 32)) by (apply Z.pow_pos_nonneg; lia).
    assert (E32 : 2 ^ 32 = 2 ^ (nbits - 32) * 2 ^ (32 - (nbits - 32)))
      by (rewrite <- Z.pow_add_r by lia; f_equal; lia).
    assert (Eh : 0 <= y / 2 ^ (32 - (nbits - 32)) < 2 ^ (nbits - 32))
      by (split; [apply Z.div_pos; lia|apply Z.div_lt_upper_bound; lia]).
    set (h := y / 2 ^ (32 - (nbits - 32))) in *.
    assert (En : 2 ^ nbits = 2 ^ (nbits - 32) * 2 ^ 32)
      by (rewrite <- Z.pow_add_r by lia; f_equal; lia).
    assert (2 ^ nbits <= 2 ^ 64) by (apply Z.pow_le_mono_r; lia).
    rewrite (Z.mod_small (h * 2 ^ 32)) by nia.
    rewrite Z.mod_small by nia. nia.
Qed.

Lemma signed_pos w n :
  1 <= w -> 0 < Int.signed w n ->
  Int.signed w n = Int.wrap w n /\ 0 < Int.wrap w n < 2 ^ (w - 1).
Proof.
  intros Hw. unfold Int.signed.
  pose proof (wrap_range w n ltac:(lia)) as Hr.
  assert (2 ^ w = 2 * 2 ^ (w - 1))
    by (rewrite <- Z.pow_succ_r by lia; f_equal; lia).
  destruct (Z.ltb_spec (Int.wrap w n) (2 ^ (w - 1))); lia.
Qed.

Lemma randrange_nbits_eq w n :
  2 <= w <= 64 -> 0 < Int.signed w n ->
  randrange_nbits w n = w - Int.ctlz w n /\
  randrange_nbits w n = bit_length (Int.signed w n) /\
  1 <= randrange_nbits w n <= w - 1 /\
  Int.signed w n < 2 ^ randrange_nbits w n.
Proof.
  intros Hw Hn. destruct (signed_pos w n ltac:(lia) Hn) as (Es & Hu).
  rewrite Es. set (u := Int.wrap w n) in *.
  assert (Hl : 0 <= Z.log2 u < w - 1)
    by (split; [apply Z.log2_nonneg|apply Z.log2_lt_pow2; lia]).
  unfold randrange_nbits, Int.ctlz, Int.trunc, Int.sub, bit_length. fold u.
  destruct (Z.eqb_spec u 0) as [|_]; [lia|].
  assert (E1 : Int.wrap 32 (w - 1 - Z.log2 u) = w - 1 - Z.log2 u)
    by (unfold Int.wrap; apply Z.mod_small; lia).
  rewrite E1.
  assert (E2 : Int.wrap 32 (w - (w - 1 - Z.log2 u)) = Z.log2 u + 1)
    by (unfold Int.wrap; rewrite Z.mod_small; lia).
  rewrite E2.
  repeat split; try lia.
  replace (w - (w - 1 - Z.log2 u)) with (Z.succ (Z.log2 u)) by lia.
  apply Z.log2_spec. lia.
Qed.

Lemma iterate_S {A B} fuel (body : A -> M (A + B)) a σ :
  iterate (S fuel) body a σ
  = match body a σ with
    | Ret (inl a') σ' => iterate fuel body a' σ'
    | Ret (inr b) σ' => Ret b σ'
    | Raise e σ' => Raise e σ'
    | Spin => Spin
    end.
Proof.
  cbn [iterate]. msimpl. destruct (body a σ) as [[a'|b] σ'|e σ'|]; reflexivity.
Qed.

Lemma randrange_draw_eq w name n nbits σ :
  randrange_draw w name n nbits tt σ
  = Ret (if accepted w n (fst (run_next_int name nbits σ))
         then inr (Int.trunc w (fst (run_next_int name nbits σ)))
         else inl tt)
        (snd (run_next_int name nbits σ)).
Proof.
  unfold randrange_draw, accepted. msimpl. rewrite get_next_int_total.
  destruct (Int.sge w _ n); reflexivity.
Qed.

Lemma randrange_loop_first w name n nbits k : forall fuel σ,
  (k < fuel)%nat ->
  (forall j, (j < k)%nat ->
     accepted w n (fst (nth_next_int name nbits j σ)) = false) ->
  accepted w n (fst (nth_next_int name nbits k σ)) = true ->
  iterate fuel (randrange_draw w name n nbits) tt σ
  = Ret (Int.trunc w (fst (nth_next_int name nbits k σ)))
        (snd (nth_next_int name nbits k σ)).
Proof.
  induction k as [|k IH]; intros fuel σ Hf Hrej Hacc;
    (destruct fuel as [|fuel]; [lia|]);
    rewrite iterate_S, randrange_draw_eq.
  - cbn [nth_next_int] in Hacc |- *. rewrite Hacc. reflexivity.
  - pose proof (Hrej O ltac:(lia)) as H0. cbn [nth_next_int] in H0.
    rewrite H0. cbn [nth_next_int]. apply IH; [lia| |exact Hacc].
    intros j Hj. apply (Hrej (S j)). lia.
Qed.

Lemma randrange_loop_spin w name n nbits : forall fuel σ,
  (forall j, (j < fuel)%nat ->
     accepted w n (fst (nth_next_int name nbits j σ)) = false) ->
  iterate fuel (randrange_draw w name n nbits) tt σ = Spin.
Proof.
  induction fuel as [|fuel IH]; intros σ Hrej; [reflexivity|].
  rewrite iterate_S, randrange_draw_eq.
  pose proof (Hrej O ltac:(lia)) as H0. cbn [nth_next_int] in H0.
  rewrite H0. apply IH. intros j Hj. apply (Hrej (S j)). lia.
Qed.

Lemma randrange_loop_no_raise w name n nbits : forall fuel σ e σ',
  iterate fuel (randrange_draw w name n nbits) tt σ <> Raise e σ'.
Proof.
  induction fuel as [|fuel IH]; intros σ e σ'; [discriminate|].
  rewrite iterate_S, randrange_draw_eq.
  destruct (accepted w n _); [discriminate|apply IH].
Qed.

Lemma nth_next_int_range name nbits : forall k σ,
  1 <= nbits <= 64 -> 0 <= fst (nth_next_int name nbits k σ) < 2 ^ nbits.
Proof.
  induction k as [|k IH]; intros σ Hn; cbn [nth_next_int].
  - apply get_next_int_range, Hn.
  - apply IH, Hn.
Qed.

Lemma accepted_range w n r :
  2 <= w <= 64 -> 0 < Int.signed w n ->
  0 <= r < 2 ^ randrange_nbits w n ->
  Int.trunc w r = r /\
  (accepted w n r = true <-> r < Int.signed w n).
Proof.
  intros Hw Hn Hr.
  destruct (randrange_nbits_eq w n Hw Hn) as (_ & _ & Hb & _).
  assert (2 ^ randrange_nbits w n <= 2 ^ (w - 1))
    by (apply Z.pow_le_mono_r; lia).
  assert (2 ^ w = 2 * 2 ^ (w - 1))
    by (rewrite <- Z.pow_succ_r by lia; f_equal; lia).
  assert (Et : Int.trunc w r = r)
    by (unfold Int.trunc, Int.wrap; apply Z.mod_small; lia).
  split; [exact Et|].
  unfold accepted, Int.sge. rewrite Et.
  assert (Int.signed w r = r).
  { unfold Int.signed, Int.wrap. rewrite Z.mod_small by lia.
    destruct (Z.ltb_spec r (2 ^ (w - 1))); lia. }
  rewrite negb_true_iff, Z.leb_gt. lia.
Qed.

Lemma signed_small w x : 2 <= w -> 0 <= x <= 1 -> Int.signed w x = x.
Proof.
  intros Hw Hx. unfold Int.signed, Int.wrap.
  assert (2 <= 2 ^ (w - 1)).
  { change 2 with (2 ^ 1) at 1. apply Z.pow_le_mono_r; lia. }
  assert (2 ^ w = 2 * 2 ^ (w - 1))
    by (rewrite <- Z.pow_succ_r by lia; f_equal; lia).
  rewrite Z.mod_small by lia.
  destruct (Z.ltb_spec x (2 ^ (w - 1))); lia.
Qed.

Lemma pow2_half w : 1 <= w -> 2 ^ w = 2 * 2 ^ (w - 1).
Proof. intros Hw. rewrite <- Z.pow_succ_r by lia. f_equal. lia. Qed.

Lemma signed_range w x :
  1 <= w -> - 2 ^ (w - 1) <= Int.signed w x < 2 ^ (w - 1).
Proof.
  intros Hw. unfold Int.signed.
  pose proof (wrap_range w x ltac:(lia)) as Hr.
  pose proof (pow2_half w Hw).
  destruct (Z.ltb_spec (Int.wrap w x) (2 ^ (w - 1))); lia.
Qed.

Lemma wrap_repr w x : 0 <= w -> exists k, Int.wrap w x = x + k * 2 ^ w.
Proof.
  intros Hw. exists (- (x / 2 ^ w)). unfold Int.wrap.
  rewrite Z.mod_eq by (apply Z.pow_nonzero; lia). ring.
Qed.

Lemma signed_repr w x : 0 <= w -> exists k, Int.signed w x = x + k * 2 ^ w.
Proof.
  intros Hw. unfold Int.signed. destruct (wrap_repr w x Hw) as (k & ->).
  destruct (_ <? _); [exists k; reflexivity|exists (k - 1); ring].
Qed.

(** The signed reading of a residue is the one number of the signed range
    that differs from it by a multiple of [2^w]. *)
Lemma signed_unique w x y k :
  1 <= w -> - 2 ^ (w - 1) <= y < 2 ^ (w - 1) -> x = y + k * 2 ^ w ->
  Int.signed w x = y.
Proof.
  intros Hw Hy ->.
  pose proof (signed_range w (y + k * 2 ^ w) Hw) as Hr.
  destruct (signed_repr w (y + k * 2 ^ w) ltac:(lia)) as (j & Hj).
  pose proof (pow2_half w Hw) as Hp.
  assert (0 < 2 ^ (w - 1)) by (apply Z.pow_pos_nonneg; lia).
  assert (j + k = 0) by nia.
  replace j with (- k) in Hj by lia. lia.
Qed.

Lemma signed_add_mul w start step r :
  1 <= w ->
  - 2 ^ (w - 1) <= Int.signed w start + r * Int.signed w step < 2 ^ (w - 1) ->
  Int.signed w (Int.add w start (Int.mul w r step))
  = Int.signed w start + r * Int.signed w step.
Proof.
  intros Hw Hr. unfold Int.add, Int.mul.
  destruct (wrap_repr w (r * step) ltac:(lia)) as (k1 & ->).
  destruct (wrap_repr w (start + (r * step + k1 * 2 ^ w)) ltac:(lia))
    as (k2 & ->).
  destruct (signed_repr w start ltac:(lia)) as (ka & Ea).
  destruct (signed_repr w step ltac:(lia)) as (ks & Es).
  apply (signed_unique w _ _ (k1 + k2 - ka - r * ks) Hw Hr).
  rewrite Ea, Es. ring.
Qed.

Lemma signed_sub w x y :
  1 <= w ->
  - 2 ^ (w - 1) <= Int.signed w x - Int.signed w y < 2 ^ (w - 1) ->
  Int.signed w (Int.sub w x y) = Int.signed w x - Int.signed w y.
Proof.
  intros Hw Hr. unfold Int.sub.
  destruct (wrap_repr w (x - y) ltac:(lia)) as (k & ->).
  destruct (signed_repr w x ltac:(lia)) as (kx & Ex).
  destruct (signed_repr w y ltac:(lia)) as (ky & Ey).
  apply (signed_unique w _ _ (k - kx + ky) Hw Hr).
  rewrite Ex, Ey. ring.
Qed.

Lemma signed_wrap_small w q :
  1 <= w -> - 2 ^ (w - 1) <= q < 2 ^ (w - 1) -> Int.signed w (Int.wrap w q) = q.
Proof.
  intros Hw Hq. destruct (wrap_repr w q ltac:(lia)) as (k & ->).
  apply (signed_unique w _ _ k Hw Hq). reflexivity.
Qed.

(** C1, as the code has it, on every input for which the division of the
    generated code is defined, that is all but [step = -1] with
    [stop - start] the smallest integer of the type (the only case of
    [min_int / -1]; the divisor is never zero).  [_randrange_impl]
    computes the span [n = stop - start] in the integer type, replaces it
    by [(n + step + 1) / step] when [step < 0] and by
    [(n + step - 1) / step] when [step > 1] (truncating division); it
    raises if and only if [n <= 0]; otherwise [nbits = width - ctlz(n)] is
    the bit length of [n] itself, and the call returns [start + r * step]
    for the first value [r] of [get_next_int(state, nbits)] with [r < n],
    the loop still running as long as no such value has come. *)
Theorem randrange_impl_spec (fuel : nat) (w start stop step : Z)
    (name : stream) (σ : store) :
  2 <= w <= 64 ->
  ~ (Int.signed w step = -1 /\
     Int.signed w (Int.sub w stop start) = - 2 ^ (w - 1)) ->
  let span := Int.sub w stop start in
  let n := randrange_n w start stop step in
  let nbits := randrange_nbits w n in
  let run := _randrange_impl fuel w start stop step name σ in
  (Int.slt w step 0 = true ->
   Int.sdiv_defined w (Int.add w (Int.add w span step) 1) step) /\
  (Int.sgt w step 1 = true ->
   Int.sdiv_defined w (Int.sub w (Int.add w span step) 1) step) /\
  n = (if Int.slt w step 0
       then Int.sdiv w (Int.add w (Int.add w span step) 1) step
       else if Int.sgt w step 1
            then Int.sdiv w (Int.sub w (Int.add w span step) 1) step
            else span) /\
  ((exists σ', run = Raise ValueError σ') <-> Int.signed w n <= 0) /\
  (0 < Int.signed w n ->
   nbits = w - Int.ctlz w n /\
   nbits = bit_length (Int.signed w n) /\
   (forall k : nat,
      (k < fuel)%nat ->
      (forall j, (j < k)%nat ->
         Int.signed w n <= fst (nth_next_int name nbits j σ)) ->
      fst (nth_next_int name nbits k σ) < Int.signed w n ->
      let r := fst (nth_next_int name nbits k σ) in
      0 <= r < Int.signed w n /\
      run = Ret (Int.add w start (Int.mul w r step))
                (snd (nth_next_int name nbits k σ))) /\
   ((forall j, (j < fuel)%nat ->
       Int.signed w n <= fst (nth_next_int name nbits j σ)) ->
    run = Spin)).
Proof.
  intros Hw Hdef span n nbits run.
  split; [|split].
  { intros Hs. unfold Int.slt in Hs. rewrite (signed_small w 0) in Hs by lia.
    apply Z.ltb_lt in Hs. split; [lia|]. intros [Hd H1]. apply Hdef.
    split; [exact H1|]. fold span. rewrite <- Hd. symmetry.
    pose proof (signed_range w span ltac:(lia)) as Hr.
    unfold Int.add.
    destruct (wrap_repr w (span + step) ltac:(lia)) as (k1 & ->).
    destruct (wrap_repr w (span + step + k1 * 2 ^ w + 1) ltac:(lia))
      as (k2 & ->).
    destruct (signed_repr w span ltac:(lia)) as (kp & Ep).
    destruct (signed_repr w step ltac:(lia)) as (ks & Es).
    apply (signed_unique w _ _ (k1 + k2 - kp - ks) ltac:(lia) Hr).
    rewrite Ep. lia. }
  { intros Hs. unfold Int.sgt in Hs. rewrite (signed_small w 1) in Hs by lia.
    apply Z.ltb_lt in Hs. split; [lia|]. intros [_ H1]. lia. }
  assert (Hrun : run = if Int.sle w n 0 then Raise ValueError σ
                       else (r ← iterate fuel (randrange_draw w name n nbits) tt;
                             mret (Int.add w start (Int.mul w r step))) σ).
  { unfold run, _randrange_impl. fold n. fold nbits.
    destruct (Int.sle w n 0); reflexivity. }
  assert (Hsle : Int.sle w n 0 = (Int.signed w n <=? 0)).
  { unfold Int.sle. rewrite (signed_small w 0) by lia. reflexivity. }
  rewrite Hsle in Hrun.
  split; [|split].
  - unfold n, randrange_n. fold span.
    unfold Int.slt, Int.sgt.
    rewrite (signed_small w 0), (signed_small w 1) by lia.
    destruct (Z.ltb_spec (Int.signed w step) 0);
      destruct (Z.ltb_spec 1 (Int.signed w step)); try reflexivity; lia.
  - rewrite Hrun. destruct (Z.leb_spec (Int.signed w n) 0) as [Hle|Hgt].
    + split; [intros _; exact Hle|intros _; eauto].
    + split; [|lia]. intros (σ' & Hr). exfalso. revert Hr. msimpl.
      destruct (iterate fuel _ tt σ) as [r σ1|e σ1|] eqn:E; try discriminate.
      exfalso. exact (randrange_loop_no_raise _ _ _ _ _ _ _ _ E).
  - intros Hpos.
    destruct (randrange_nbits_eq w n Hw Hpos) as (E1 & E2 & Hb & Hlt).
    fold nbits in E1, E2, Hb, Hlt.
    destruct (Z.leb_spec (Int.signed w n) 0) as [Hle|_]; [lia|].
    assert (Hacc : forall j,
              Int.trunc w (fst (nth_next_int name nbits j σ))
              = fst (nth_next_int name nbits j σ) /\
              (accepted w n (fst (nth_next_int name nbits j σ)) = true <->
               fst (nth_next_int name nbits j σ) < Int.signed w n)).
    { intros j. apply accepted_range; [exact Hw|exact Hpos|].
      apply nth_next_int_range. fold nbits. lia. }
    split; [exact E1|]. split; [exact E2|]. split.
    + intros k Hk Hrej Hfirst r.
      pose proof (nth_next_int_range name nbits k σ ltac:(lia)) as Hr.
      fold r in Hr, Hfirst. split; [lia|].
      rewrite Hrun. msimpl.
      rewrite (randrange_loop_first w name n nbits k fuel σ Hk).
      * rewrite (proj1 (Hacc k)). reflexivity.
      * intros j Hj. specialize (Hrej j Hj).
        destruct (accepted w n _) eqn:Ea; [|reflexivity].
        apply (proj2 (Hacc j)) in Ea. lia.
      * apply (proj2 (Hacc k)). exact Hfirst.
    + intros Hrej. rewrite Hrun. msimpl.
      rewrite randrange_loop_spin; [reflexivity|].
      intros j Hj. specialize (Hrej j Hj).
      destruct (accepted w n _) eqn:Ea; [|reflexivity].
      apply (proj2 (Hacc j)) in Ea. lia.
Qed.

(** C1: the claim's gloss of [nbits] fails when [n] is a power of two.
    For [randrange(0, 8, 1)] on 32 bits the span is [8] and
    [nbits = 32 - ctlz(8) = 4], while [n - 1 = 7] needs three bits. *)
Lemma randrange_nbits_not_bit_length_pred :
  randrange_n 32 0 8 1 = 8 /\
  randrange_nbits 32 (randrange_n 32 0 8 1) = 32 - Int.ctlz 32 8 /\
  randrange_nbits 32 (randrange_n 32 0 8 1) = 4 /\
  bit_length (randrange_n 32 0 8 1 - 1) = 3 /\
  randrange_nbits 32 (randrange_n 32 0 8 1)
  <> bit_length (randrange_n 32 0 8 1 - 1).
Proof. repeat split; vm_compute; congruence. Qed.

(* ------------------------------------------------------------------ *)
(** ** The gaussian cache *)

Lemma binary_round_aux_not_neg m e l :
  SFnot_neg (binary_round_aux prec emax false m e l) = true.
Proof.
  unfold binary_round_aux.
  destruct (shr_fexp prec emax m e l) as [mrs e'].
  destruct (shr_fexp prec emax _ e' loc_Exact) as [mrs' e''].
  destruct (shr_m mrs'); try reflexivity.
  destruct (e'' <=? emax - prec)%Z; reflexivity.
Qed.

Lemma SFmul_self_not_neg x : SFnot_neg (SFmul prec emax x x) = true.
Proof.
  destruct x as [s|s| |s m e]; cbn [SFmul]; try reflexivity.
  - destruct s; reflexivity.
  - rewrite xorb_nilpotent. apply binary_round_aux_not_neg.
Qed.

Lemma SFadd_not_neg x y :
  SFnot_neg x = true -> SFnot_neg y = true ->
  SFnot_neg (SFadd prec emax x y) = true.
Proof.
  destruct x as [sx|sx| |sx mx ex], y as [sy|sy| |sy my ey];
    cbn [SFnot_neg SFadd]; intros Hx Hy; try reflexivity; try assumption.
  - destruct sx, sy; reflexivity.
  - destruct sx, sy; try discriminate; reflexivity.
  - apply negb_true_iff in Hx, Hy. subst. cbn [cond_Zopp].
    change (Zpos ?a + Zpos ?b) with (Zpos (a + b)).
    unfold binary_normalize, binary_round.
    destruct (shl_align _ _ _) as [mz ez]. apply binary_round_aux_not_neg.
Qed.

Lemma sum_squares_not_neg (x y : float) :
  SFnot_neg (Prim2SF (x * x + y * y)%float) = true.
Proof.
  rewrite add_spec, !mul_spec. apply SFadd_not_neg; apply SFmul_self_not_neg.
Qed.

Lemma in_unit_disk_test (r : float) :
  SFnot_neg (Prim2SF r) = true ->
  ((r <? 1)%float && negb (r =? 0)%float)
  = ((0 <? r)%float && (r <? 1)%float).
Proof.
  rewrite !FloatAxioms.ltb_spec, FloatAxioms.eqb_spec.
  change (Prim2SF 0) with (S754_zero false).
  change (Prim2SF 1) with (S754_finite false 4503599627370496 (-52)).
  destruct (Prim2SF r) as [s|s| |s m e]; cbn [SFnot_neg]; intros H;
    try reflexivity.
  - apply negb_true_iff in H. subst. reflexivity.
  - apply negb_true_iff in H. subst. unfold SFltb, SFeqb. cbn [SFcompare].
    rewrite andb_comm. reflexivity.
Qed.

Lemma get_next_double_total name σ :
  get_next_double name σ
  = Ret (fst (run_next_double name σ)) (snd (run_next_double name σ)).
Proof.
  unfold run_next_double, get_next_double. msimpl.
  rewrite get_next_int32_eq. msimpl. rewrite get_next_int32_eq. reflexivity.
Qed.

Lemma _random_of_eq name : _random_of name = get_next_double name.
Proof. destruct name; reflexivity. Qed.

Lemma gauss_round_r2 name σ :
  let '(x1, x2, r2, _) := gauss_round name σ in
  r2 = (x1 * x1 + x2 * x2)%float /\
  ((r2 <? 1)%float && fne r2 0%float) = in_unit_disk r2.
Proof.
  unfold gauss_round.
  destruct (run_next_double name σ) as [u1 σ1].
  destruct (run_next_double name σ1) as [u2 σ2].
  split; [reflexivity|].
  apply in_unit_disk_test, sum_squares_not_neg.
Qed.

Lemma gauss_pair_draw_eq name σ :
  gauss_pair_draw (_random_of name) tt σ
  = let '(x1, x2, r2, σ2) := gauss_round name σ in
    Ret (if in_unit_disk r2 then inr (x1, x2, r2) else inl tt) σ2.
Proof.
  unfold gauss_pair_draw, gauss_round. rewrite _random_of_eq. msimpl.
  rewrite get_next_double_total.
  destruct (run_next_double name σ) as [u1 σ1]. cbn [fst snd].
  rewrite get_next_double_total.
  destruct (run_next_double name σ1) as [u2 σ2]. cbn [fst snd].
  rewrite in_unit_disk_test by apply sum_squares_not_neg.
  fold (in_unit_disk ((2.0 * u1 - 1.0) * (2.0 * u1 - 1.0)
                       + (2.0 * u2 - 1.0) * (2.0 * u2 - 1.0))%float).
  destruct (in_unit_disk _); reflexivity.
Qed.

Lemma gauss_loop_first name k : forall fuel σ,
  (k < fuel)%nat ->
  (forall j, (j < k)%nat ->
     in_unit_disk (snd (fst (nth_gauss_round name j σ))) = false) ->
  in_unit_disk (snd (fst (nth_gauss_round name k σ))) = true ->
  iterate fuel (gauss_pair_draw (_random_of name)) tt σ
  = Ret (fst (nth_gauss_round name k σ)) (snd (nth_gauss_round name k σ)).
Proof.
  induction k as [|k IH]; intros fuel σ Hf Hrej Hacc;
    (destruct fuel as [|fuel]; [lia|]);
    rewrite iterate_S, gauss_pair_draw_eq.
  - cbn [nth_gauss_round] in Hacc |- *.
    destruct (gauss_round name σ) as [[[x1 x2] r2] σ2]. cbn [fst snd] in *.
    rewrite Hacc. reflexivity.
  - pose proof (Hrej O ltac:(lia)) as H0.
    assert (Hrej' : forall j, (j < k)%nat ->
              in_unit_disk
                (snd (fst (nth_gauss_round name j (snd (gauss_round name σ)))))
              = false) by (intros j Hj; apply (Hrej (S j)); lia).
    clear Hrej. cbn [nth_gauss_round] in H0, Hacc |- *.
    specialize (IH fuel (snd (gauss_round name σ))).
    destruct (gauss_round name σ) as [[[x1 x2] r2] σ2]. cbn [fst snd] in *.
    rewrite H0. apply IH; [lia|exact Hrej'|exact Hacc].
Qed.


Lemma positive_not_zero (r : float) :
  (0 <? r)%float = true -> (r =? 0)%float = false.
Proof.
  rewrite FloatAxioms.ltb_spec, FloatAxioms.eqb_spec.
  change (Prim2SF 0) with (S754_zero false).
  destruct (Prim2SF r) as [s|s| |s m e]; try discriminate;
    destruct s; try discriminate; reflexivity.
Qed.

Lemma in_unit_disk_not_zero r2 :
  in_unit_disk r2 = true -> (r2 =? 0)%float = false.
Proof.
  unfold in_unit_disk. intros [H _]%andb_true_iff.
  apply positive_not_zero, H.
Qed.

Lemma gauss_cached fuel mu sigma state σ :
  Int.wrap 32 (st_has_gauss (get_state_ptr state σ)) <> 0 ->
  _gauss_impl fuel mu sigma state σ
  = Ret (mu + sigma * st_gauss (get_state_ptr state σ))%float
        (set_state state (store_has_gauss 0 (get_state_ptr state σ)) σ).
Proof.
  intros Hset. unfold _gauss_impl. msimpl.
  apply Z.eqb_neq in Hset. rewrite Hset. reflexivity.
Qed.

Lemma gauss_fresh fuel mu sigma state σ k :
  Int.wrap 32 (st_has_gauss (get_state_ptr state σ)) = 0 ->
  (k < fuel)%nat ->
  (forall j, (j < k)%nat ->
     in_unit_disk (snd (fst (nth_gauss_round state j σ))) = false) ->
  in_unit_disk (snd (fst (nth_gauss_round state k σ))) = true ->
  let '(x1, x2, r2, σk) := nth_gauss_round state k σ in
  let f := PrimFloat.sqrt (-2.0 * _log r2 / r2)%float in
  _gauss_impl fuel mu sigma state σ
  = Ret (mu + sigma * (f * x2))%float
        (set_state state
           (store_has_gauss 1
              (store_gauss (f * x1)%float (get_state_ptr state σk)))
           σk).
Proof.
  intros Hclear Hk Hrej Hacc. unfold _gauss_impl. msimpl.
  apply Z.eqb_eq in Hclear. rewrite Hclear. cbn [negb].
  unfold compute_gauss_pair. msimpl.
  rewrite (gauss_loop_first state k fuel σ Hk Hrej Hacc).
  destruct (nth_gauss_round state k σ) as [[[x1 x2] r2] σk].
  cbn [fst snd] in Hacc |- *.
  unfold py_div. rewrite (in_unit_disk_not_zero r2 Hacc). msimpl.
  rewrite !get_set_same, !set_set. reflexivity.
Qed.


Lemma run_next_double_other state τ :
  get_state_ptr (other state) (snd (run_next_double state τ))
  = get_state_ptr (other state) τ.
Proof.
  unfold run_next_double, get_next_double. msimpl.
  rewrite get_next_int32_eq. msimpl. rewrite get_next_int32_eq. cbn [snd].
  rewrite !get_set_other. reflexivity.
Qed.


Lemma nth_gauss_round_other state : forall k σ,
  get_state_ptr (other state) (snd (nth_gauss_round state k σ))
  = get_state_ptr (other state) σ.
Proof.
  assert (H0 : forall τ,
            get_state_ptr (other state) (snd (gauss_round state τ))
            = get_state_ptr (other state) τ).
  { intros τ. unfold gauss_round.
    pose proof (run_next_double_other state τ) as Ho1.
    destruct (run_next_double state τ) as [u1 σ1].
    pose proof (run_next_double_other state σ1) as Ho2.
    destruct (run_next_double state σ1) as [u2 σ2].
    cbn [fst snd] in *. congruence. }
  induction k as [|k IH]; intros σ; cbn [nth_gauss_round]; [apply H0|].
  rewrite IH. apply H0.
Qed.

(** Round [k] ends where [2 * (k + 1)] draws of [get_next_double] end. *)
Lemma nth_gauss_round_draws state : forall k σ,
  snd (nth_gauss_round state k σ)
  = Nat.iter (2 * (k + 1)) (fun τ => snd (run_next_double state τ)) σ.
Proof.
  assert (H0 : forall τ,
            snd (gauss_round state τ)
            = snd (run_next_double state (snd (run_next_double state τ)))).
  { intros τ. unfold gauss_round.
    destruct (run_next_double state τ) as [u1 σ1]. cbn [snd].
    destruct (run_next_double state σ1) as [u2 σ2]. reflexivity. }
  induction k as [|k IH]; intros σ; cbn [nth_gauss_round]; [apply H0|].
  rewrite IH, H0.
  replace (2 * (S k + 1))%nat with (S (S (2 * (k + 1))))%nat by lia.
  rewrite !Nat.iter_succ_r. reflexivity.
Qed.

(** C3: two consecutive gaussian calls, the first with the flag clear (as
    seeding leaves it).  When the first call accepts its round [k], after
    [k] rejected rounds, it has drawn exactly [2 * (k + 1)] doubles, two in
    the case without rejection, and has cached the first half of the pair;
    the second call, whatever the first call rejected and whatever its own
    fuel, returns that cached value, enters no loop and draws nothing: it
    leaves index and words as they are and clears the flag.  The other
    stream is not touched. *)
Theorem gauss_second_call_uses_cache (fuel fuel' : nat)
    (mu sigma mu' sigma' : float) (state : stream) (σ : store) (k : nat) :
  Int.wrap 32 (st_has_gauss (get_state_ptr state σ)) = 0 ->
  (k < fuel)%nat ->
  (forall j, (j < k)%nat ->
     in_unit_disk (snd (fst (nth_gauss_round state j σ))) = false) ->
  in_unit_disk (snd (fst (nth_gauss_round state k σ))) = true ->
  let x1 := fst (fst (fst (nth_gauss_round state k σ))) in
  let x2 := snd (fst (fst (nth_gauss_round state k σ))) in
  let r2 := snd (fst (nth_gauss_round state k σ)) in
  let σk := snd (nth_gauss_round state k σ) in
  let f := PrimFloat.sqrt (-2.0 * _log r2 / r2)%float in
  σk = Nat.iter (2 * (k + 1)) (fun τ => snd (run_next_double state τ)) σ /\
  exists σa σb,
    _gauss_impl fuel mu sigma state σ = Ret (mu + sigma * (f * x2))%float σa /\
    st_index (get_state_ptr state σa) = st_index (get_state_ptr state σk) /\
    st_words (get_state_ptr state σa) = st_words (get_state_ptr state σk) /\
    st_has_gauss (get_state_ptr state σa) = 1 /\
    st_gauss (get_state_ptr state σa) = (f * x1)%float /\
    _gauss_impl fuel' mu' sigma' state σa
    = Ret (mu' + sigma' * (f * x1))%float σb /\
    st_index (get_state_ptr state σb) = st_index (get_state_ptr state σa) /\
    st_words (get_state_ptr state σb) = st_words (get_state_ptr state σa) /\
    st_has_gauss (get_state_ptr state σb) = 0 /\
    get_state_ptr (other state) σb = get_state_ptr (other state) σ.
Proof.
  intros Hclear Hfuel Hrej Hacc x1 x2 r2 σk f.
  split; [apply nth_gauss_round_draws|].
  pose proof (gauss_fresh fuel mu sigma state σ k Hclear Hfuel Hrej Hacc)
    as H1k.
  pose proof (nth_gauss_round_other state k σ) as Ho.
  subst x1 x2 r2 σk f.
  destruct (nth_gauss_round state k σ) as [[[y1 y2] s2] τ].
  cbn [fst snd] in *. cbv zeta in H1k.
  eexists _, _. split; [exact H1k|].
  rewrite !get_set_same. cbn [st_index st_words st_has_gauss st_gauss
                               store_has_gauss store_gauss].
  do 4 (split; [reflexivity|]).
  split.
  { rewrite gauss_cached by (rewrite get_set_same; vm_compute; discriminate).
    rewrite !get_set_same, set_set.
    cbn [st_gauss store_has_gauss store_gauss]. reflexivity. }
  rewrite ?get_set_same. cbn [st_index st_words st_has_gauss st_gauss
                               store_has_gauss store_gauss].
  do 3 (split; [reflexivity|]).
  rewrite !get_set_other. exact Ho.
Qed.

(* ------------------------------------------------------------------ *)
(** ** Which errors a computation can raise *)

Lemma never_raises_ret {A} e (a : A) : never_raises e (mret a).
Proof. intros σ σ'. discriminate. Qed.

Lemma never_raises_raise {A} e e' : e <> e' -> never_raises e (@raise A e').
Proof. intros Hne σ σ'. unfold raise. congruence. Qed.

Lemma never_raises_bind {A B} e (m : M A) (k : A -> M B) :
  never_raises e m -> (forall a, never_raises e (k a)) ->
  never_raises e (m ≫= k).
Proof.
  intros Hm Hk σ σ'. rewrite bind_eq.
  destruct (m σ) as [a σ1|e1 σ1|] eqn:E; [apply Hk| |discriminate].
  intros [= -> ->]. exact (Hm _ _ E).
Qed.

Lemma never_raises_iterate {A B} e (body : A -> M (A + B)) :
  (forall a, never_raises e (body a)) ->
  forall fuel a, never_raises e (iterate fuel body a).
Proof.
  intros Hb. induction fuel as [|fuel IH]; intros a; [intros σ σ'; discriminate|].
  cbn [iterate]. apply never_raises_bind; [apply Hb|].
  intros [a'|b]; [apply IH|apply never_raises_ret].
Qed.

Lemma never_raises_double e name : never_raises e (get_next_double name).
Proof. intros σ σ'. rewrite get_next_double_total. discriminate. Qed.

Lemma never_raises_random e name : never_raises e (random_impl name).
Proof. apply never_raises_double. Qed.

Lemma never_raises_py_div x y : never_raises ValueError (py_div x y).
Proof.
  unfold py_div. destruct (y =? 0)%float;
    [apply never_raises_raise; discriminate|apply never_raises_ret].
Qed.

Create HintDb no_raise.
#[local] Hint Resolve never_raises_ret never_raises_random never_raises_double
  never_raises_py_div : no_raise.

(** Splitting a goal along the shape of the computation. *)
Ltac no_raise :=
  repeat first
    [ progress auto with no_raise
    | apply never_raises_bind; [|intro]
    | apply never_raises_iterate; intro
    | match goal with
      | |- never_raises _ (if ?b then _ else _) => destruct b
      | |- never_raises _ (match ?x with _ => _ end) => destruct x
      end ].

(* ------------------------------------------------------------------ *)
(** ** Gamma *)

Lemma gamma_no_value_error fuel (rnd : M float) alpha beta :
  never_raises ValueError rnd ->
  ((alpha <=? 0) || (beta <=? 0))%float = false ->
  never_raises ValueError (_gammavariate_impl fuel rnd alpha beta).
Proof.
  intros Hr Hg. unfold _gammavariate_impl. rewrite Hg.
  unfold gamma_cheng_draw, gamma_expo_draw, gamma_gs_draw. no_raise.
Qed.

(** C5: [gammavariate(alpha, beta)] raises [ValueError] if and only if
    [alpha <= 0.0] or [beta <= 0.0], and it does so before any draw: the
    store at the raise is the store of the call. *)
Theorem gammavariate_domain_error (fuel : nat) (name : stream)
    (alpha beta : float) (σ : store) :
  let run := _gammavariate_impl fuel (random_impl name) alpha beta σ in
  ((exists σ', run = Raise ValueError σ') <->
   ((alpha <=? 0) || (beta <=? 0))%float = true) /\
  (forall σ', run = Raise ValueError σ' -> σ' = σ).
Proof.
  intros run.
  assert (Hok : ((alpha <=? 0) || (beta <=? 0))%float = false ->
                forall σ', run <> Raise ValueError σ').
  { intros Hg σ'. apply gamma_no_value_error; [apply never_raises_random|].
    exact Hg. }
  assert (Hbad : ((alpha <=? 0) || (beta <=? 0))%float = true ->
                 run = Raise ValueError σ).
  { intros Hg. unfold run, _gammavariate_impl. rewrite Hg. reflexivity. }
  destruct ((alpha <=? 0) || (beta <=? 0))%float eqn:Hg.
  - specialize (Hbad eq_refl). split.
    + split; [reflexivity|intros _; eauto].
    + intros σ' H. congruence.
  - specialize (Hok eq_refl). split.
    + split; [intros (σ' & H); destruct (Hok _ H)|discriminate].
    + intros σ' H. destruct (Hok _ H).
Qed.

(* ------------------------------------------------------------------ *)
(** ** Poisson, negative binomial, triangular *)

Lemma float_zero_cases (lam : float) :
  (lam =? 0)%float = true ->
  fge lam 10 = false /\ (lam <? 0)%float = false.
Proof.
  unfold fge.
  rewrite FloatAxioms.eqb_spec, FloatAxioms.leb_spec, FloatAxioms.ltb_spec.
  change (Prim2SF 0) with (S754_zero false).
  change (Prim2SF 10) with (S754_finite false 5629499534213120 (-49)).
  destruct (Prim2SF lam) as [s|s| |s m e]; try discriminate.
  - intros _. split; reflexivity.
  - destruct s; discriminate.
  - destruct s; discriminate.
Qed.

(** C10: [np.random.poisson(lam)] with [lam == 0.0] returns [0] and leaves
    the whole store, hence index, words and gaussian cache of the stream,
    as it was: the zero case returns before the loop draws. *)
Theorem poisson_zero_no_draw (fuel : nat) (lam : float) (σ : store) :
  (lam =? 0)%float = true ->
  poisson_impl fuel (Some lam) σ = Ret 0 σ /\
  poisson_small fuel lam σ = Ret 0 σ.
Proof.
  intros Hz. destruct (float_zero_cases lam Hz) as [Hbig Hneg].
  unfold poisson_impl, poisson_small. rewrite Hbig, Hneg, Hz.
  split; reflexivity.
Qed.

Lemma eqb_one (p : float) : (p =? 1)%float = true -> p = 1%float.
Proof.
  rewrite FloatAxioms.eqb_spec. intros H. apply FloatAxioms.Prim2SF_inj.
  change (Prim2SF 1) with (S754_finite false 4503599627370496 (-52)) in *.
  unfold SFeqb, SFcompare in H.
  destruct (Prim2SF p) as [s|s| |s m e]; try discriminate H.
  - destruct s; discriminate H.
  - destruct s; [discriminate H|].
    destruct (Z.compare_spec e (-52)) as [E| |]; try discriminate H.
    destruct (Pos.compare_cont Eq m 4503599627370496) eqn:Em;
      try discriminate H.
    apply Pos.compare_eq in Em. rewrite Em, E. reflexivity.
Qed.

(** A zero is not above [1.0]. *)
Lemma zero_not_above_one (p : float) :
  (p =? 0)%float = true -> fgt p 1 = false.
Proof.
  unfold fgt. rewrite FloatAxioms.eqb_spec, FloatAxioms.ltb_spec.
  change (Prim2SF 0) with (S754_zero false).
  change (Prim2SF 1) with (S754_finite false 4503599627370496 (-52)).
  destruct (Prim2SF p) as [s|s| |s m e]; try discriminate.
  - intros _. reflexivity.
  - destruct s; discriminate.
  - destruct s; discriminate.
Qed.

(** C4: [np.random.negative_binomial(n, p)] and the two ends of the
    interval its checks accept.  The checks, [n <= 0] and
    [p < 0.0 or p > 1.0], raise [ValueError] with nothing drawn; past them,
    and for [p] not zero, the call is [poisson(gamma(n, (1 - p) / p))], with
    every outcome of the two samplers handed on.  For [n > 0] both
    [p = 1.0] and [p = 0.0] pass the checks: at [p = 1.0] the scale
    [(1 - p) / p] is [0.0] and the gamma sampler raises [ValueError] on its
    own check [beta <= 0.0]; at [p = 0.0] the division raises
    [ZeroDivisionError].  In both cases nothing has been drawn. *)
Theorem negative_binomial_closed_ends (fuel : nat) (n : Z) (p : float)
    (σ : store) :
  let run := negative_binomial_impl fuel n p σ in
  let checks := Int.sle 64 n 0 || ((p <? 0) || fgt p 1)%float in
  (checks = true -> run = Raise ValueError σ) /\
  (checks = false -> (p =? 0)%float = false ->
   run = (Y ← np_gammavariate_impl fuel (sitofp n) ((1 - p) / p)%float;
          poisson_impl fuel (Some Y)) σ) /\
  (0 < Int.signed 64 n -> (p =? 1)%float = true ->
   checks = false /\ run = Raise ValueError σ) /\
  (0 < Int.signed 64 n -> (p =? 0)%float = true ->
   checks = false /\ run = Raise ZeroDivisionError σ).
Proof.
  intros run checks. subst run. unfold negative_binomial_impl.
  assert (Hn : 0 < Int.signed 64 n -> Int.sle 64 n 0 = false).
  { intros H. unfold Int.sle. rewrite (signed_small 64 0) by lia.
    apply Z.leb_gt, H. }
  split; [|split; [|split]].
  - intros H. unfold checks in H.
    destruct (Int.sle 64 n 0); [reflexivity|].
    cbn [orb] in H. rewrite H. reflexivity.
  - intros H Hz. unfold checks in H. apply orb_false_iff in H as [H1 H2].
    rewrite H1, H2. unfold py_div. rewrite Hz. reflexivity.
  - intros Hpos Hp. apply eqb_one in Hp. subst p. unfold checks.
    rewrite (Hn Hpos). split; [reflexivity|].
    change ((1 <? 0) || fgt 1 1)%float with false. cbv iota.
    unfold py_div. change (1 =? 0)%float with false. cbv iota. msimpl.
    unfold np_gammavariate_impl, _gammavariate_impl.
    assert (Ht : ((1 - 1) / 1 <=? 0)%float = true) by reflexivity.
    rewrite Ht, orb_true_r. reflexivity.
  - intros Hpos Hz. unfold checks.
    destruct (float_zero_cases p Hz) as [_ Hneg].
    rewrite (Hn Hpos), Hneg, (zero_not_above_one p Hz).
    split; [reflexivity|]. cbn [orb]. unfold py_div. rewrite Hz.
    reflexivity.
Qed.

Lemma run_next_double_eq name τ :
  run_next_double name τ
  = (fst (next_double (get_state_ptr name τ)),
     set_state name (snd (next_double (get_state_ptr name τ))) τ).
Proof.
  unfold run_next_double, get_next_double, next_double. msimpl.
  repeat (rewrite get_next_int32_eq; msimpl).
  rewrite get_set_same, set_set.
  destruct (next_int32 (get_state_ptr name τ)) as [a s1]. cbn [fst snd].
  destruct (next_int32 s1) as [b s2]. reflexivity.
Qed.

(** C7: on equal generator states, [random.triangular(low, high, mode)]
    and [np.random.triangular(low, mode, high)] give the same outcome with
    the same value, each from one [get_next_double] draw [u] of its own
    stream and the split [c = (mode - low) / (high - low)]; both return
    [low] when [high == low]. *)
Theorem triangular_streams_agree (low high mode : float) (σA σB : store) :
  get_state_ptr py σA = get_state_ptr np σB ->
  let u := fst (run_next_double py σA) in
  let σA' := snd (run_next_double py σA) in
  let σB' := snd (run_next_double np σB) in
  let c := ((mode - low) / (high - low))%float in
  let value :=
    (if fgt u c then high + (low - high) * PrimFloat.sqrt ((1 - u) * (1 - c))
     else low + (high - low) * PrimFloat.sqrt (u * c))%float in
  fst (run_next_double np σB) = u /\
  get_state_ptr py σA' = get_state_ptr np σB' /\
  ((high =? low)%float = true ->
   triangular_impl_3 low high mode σA = Ret low σA' /\
   np_triangular_impl_3 low mode high σB = Ret low σB') /\
  ((high =? low)%float = false ->
   ((high - low =? 0)%float = false ->
    triangular_impl_3 low high mode σA = Ret value σA' /\
    np_triangular_impl_3 low mode high σB = Ret value σB') /\
   ((high - low =? 0)%float = true ->
    triangular_impl_3 low high mode σA = Raise ZeroDivisionError σA' /\
    np_triangular_impl_3 low mode high σB = Raise ZeroDivisionError σB')).
Proof.
  intros Hst u σA' σB' c value.
  assert (Hu : fst (run_next_double np σB) = u /\
               get_state_ptr py σA' = get_state_ptr np σB').
  { unfold u, σA', σB'. rewrite !run_next_double_eq. cbn [fst snd].
    rewrite <- Hst, !get_set_same. split; reflexivity. }
  destruct Hu as [Hu Hs']. split; [exact Hu|]. split; [exact Hs'|].
  unfold triangular_impl_3, np_triangular_impl_3, _triangular_impl_3. msimpl.
  rewrite !get_next_double_total. fold u σA' σB'. rewrite Hu.
  split.
  - intros ->. split; reflexivity.
  - intros ->. unfold py_div. split; intros ->; msimpl; [|split; reflexivity].
    fold c. unfold value. destruct (fgt u c); split; reflexivity.
Qed.

(* ------------------------------------------------------------------ *)
(** ** Shuffle *)

Lemma randrange_loop_ret w name n nbits : forall fuel σ r σ',
  iterate fuel (randrange_draw w name n nbits) tt σ = Ret r σ' ->
  exists k, r = Int.trunc w (fst (nth_next_int name nbits k σ)) /\
            accepted w n (fst (nth_next_int name nbits k σ)) = true.
Proof.
  induction fuel as [|fuel IH]; intros σ r σ'; [discriminate|].
  rewrite iterate_S, randrange_draw_eq.
  destruct (accepted w n (fst (run_next_int name nbits σ))) eqn:Ea.
  - intros [= <- <-]. exists O. split; [reflexivity|exact Ea].
  - intros H. destruct (IH _ _ _ H) as (k & Hr & Hk).
    exists (S k). split; assumption.
Qed.

Lemma randrange_loop_within w name n nbits : forall k fuel σ,
  (k < fuel)%nat ->
  accepted w n (fst (nth_next_int name nbits k σ)) = true ->
  exists r σ', iterate fuel (randrange_draw w name n nbits) tt σ = Ret r σ'.
Proof.
  induction k as [|k IH]; intros fuel σ Hf Hacc;
    (destruct fuel as [|fuel]; [lia|]);
    rewrite iterate_S, randrange_draw_eq; cbn [nth_next_int] in Hacc.
  - rewrite Hacc. eauto.
  - destruct (accepted w n (fst (run_next_int name nbits σ))); [eauto|].
    apply (IH fuel); [lia|exact Hacc].
Qed.

(** [randrange(i + 1)] on 64 bits, for an index [0 < i < 2^63 - 1]. *)
Lemma randrange_index fuel i σ :
  0 < i < 2 ^ 63 - 1 ->
  randrange_n 64 0 (Int.add 64 i 1) 1 = i + 1 /\
  (forall e σ', randrange_impl_1 fuel 64 (Int.add 64 i 1) σ <> Raise e σ') /\
  (forall j σ', randrange_impl_1 fuel 64 (Int.add 64 i 1) σ = Ret j σ' ->
                0 <= j <= i) /\
  (forall k, (k < fuel)%nat ->
     fst (nth_next_int py (randrange_nbits 64 (i + 1)) k σ) < i + 1 ->
     exists j σ', randrange_impl_1 fuel 64 (Int.add 64 i 1) σ = Ret j σ').
Proof.
  intros Hi.
  assert (En : randrange_n 64 0 (Int.add 64 i 1) 1 = i + 1).
  { unfold randrange_n, Int.slt, Int.sgt.
    rewrite (signed_small 64 0), (signed_small 64 1) by lia.
    cbn [Z.ltb Z.compare Pos.compare Pos.compare_cont].
    unfold Int.sub, Int.add, Int.wrap.
    rewrite Z.sub_0_r, Zmod_mod. apply Z.mod_small. lia. }
  assert (Hs : Int.signed 64 (i + 1) = i + 1).
  { unfold Int.signed, Int.wrap. rewrite Z.mod_small by lia.
    destruct (Z.ltb_spec (i + 1) (2 ^ (64 - 1))); lia. }
  assert (Hpos : 0 < Int.signed 64 (i + 1)) by lia.
  assert (Hacc : forall k,
            Int.trunc 64 (fst (nth_next_int py (randrange_nbits 64 (i + 1)) k σ))
            = fst (nth_next_int py (randrange_nbits 64 (i + 1)) k σ) /\
            0 <= fst (nth_next_int py (randrange_nbits 64 (i + 1)) k σ) /\
            (accepted 64 (i + 1)
               (fst (nth_next_int py (randrange_nbits 64 (i + 1)) k σ)) = true <->
             fst (nth_next_int py (randrange_nbits 64 (i + 1)) k σ) < i + 1)).
  { intros k.
    destruct (randrange_nbits_eq 64 (i + 1) ltac:(lia) Hpos) as (_ & _ & Hb & _).
    pose proof (nth_next_int_range py (randrange_nbits 64 (i + 1)) k σ
                  ltac:(lia)) as Hr.
    destruct (accepted_range 64 (i + 1) _ ltac:(lia) Hpos Hr) as [Et Ha].
    rewrite Hs in Ha. split; [exact Et|]. split; [lia|exact Ha]. }
  assert (Hrun : randrange_impl_1 fuel 64 (Int.add 64 i 1) σ
                 = (r ← iterate fuel (randrange_draw 64 py (i + 1)
                                        (randrange_nbits 64 (i + 1))) tt;
                    mret (Int.add 64 0 (Int.mul 64 r 1))) σ).
  { unfold randrange_impl_1, _randrange_impl. rewrite En.
    unfold Int.sle. rewrite Hs, (signed_small 64 0) by lia.
    destruct (Z.leb_spec (i + 1) 0); [lia|reflexivity]. }
  split; [exact En|]. rewrite Hrun. msimpl. split; [|split].
  - intros e σ'.
    destruct (iterate fuel _ tt σ) as [r σ1|e1 σ1|] eqn:E; try discriminate.
    exfalso. exact (randrange_loop_no_raise _ _ _ _ _ _ _ _ E).
  - intros j σ'.
    destruct (iterate fuel _ tt σ) as [r σ1|e1 σ1|] eqn:E; try discriminate.
    intros [= <- <-].
    destruct (randrange_loop_ret _ _ _ _ _ _ _ _ E) as (k & -> & Ha).
    destruct (Hacc k) as (Et & H0 & Hlt). apply Hlt in Ha. rewrite Et.
    unfold Int.add, Int.mul, Int.wrap. rewrite Z.mul_1_r, Z.add_0_l, Zmod_mod.
    rewrite Z.mod_small by lia. lia.
  - intros k Hk Hlt. apply (proj2 (proj2 (Hacc k))) in Hlt.
    destruct (randrange_loop_within _ _ _ _ k fuel σ Hk Hlt) as (r & σ1 & ->).
    eauto.
Qed.

Section ShuffleFacts.
Context {A : Type}.
Implicit Types (arr : list A).

Lemma signed_index i : 0 <= i < 2 ^ 63 -> Int.signed 64 i = i.
Proof.
  intros Hi. unfold Int.signed, Int.wrap. rewrite Z.mod_small by lia.
  destruct (Z.ltb_spec i (2 ^ (64 - 1))); lia.
Qed.

Lemma getitem_in_range arr i σ :
  0 <= i < Z.of_nat (length arr) -> Z.of_nat (length arr) < 2 ^ 63 ->
  exists x, arr !! Z.to_nat i = Some x /\ getitem arr i σ = Ret x σ.
Proof.
  intros Hi Hlen. unfold getitem. rewrite signed_index by lia.
  destruct (Z.ltb_spec i 0); [lia|].
  destruct (lookup_lt_is_Some_2 arr (Z.to_nat i) ltac:(lia)) as [x Hx].
  exists x. rewrite Hx. split; reflexivity.
Qed.

Lemma setitem_swap arr i j ai aj :
  0 <= i < 2 ^ 63 -> 0 <= j < 2 ^ 63 ->
  arr !! Z.to_nat i = Some ai -> arr !! Z.to_nat j = Some aj ->
  setitem (setitem arr i aj) j ai ≡ₚ arr.
Proof.
  intros Hi Hj Hai Haj. unfold setitem. rewrite !signed_index by lia.
  apply Permutation_insert_swap; assumption.
Qed.

Lemma setitem_length arr i x : length (setitem arr i x) = length arr.
Proof. apply length_insert. Qed.

(** One round at an index [0 < i < length arr]. *)
Lemma shuffle_step_round fuel arr i σ :
  0 < i < Z.of_nat (length arr) -> Z.of_nat (length arr) < 2 ^ 63 ->
  match shuffle_step fuel (arr, i) σ with
  | Ret (inl (arr', i')) σ' =>
      i' = i - 1 /\ arr' ≡ₚ arr /\ length arr' = length arr /\
      exists j aj ai,
        randrange_impl_1 fuel 64 (Int.add 64 i 1) σ = Ret j σ' /\
        getitem arr j σ' = Ret aj σ' /\ getitem arr i σ' = Ret ai σ' /\
        arr' = setitem (setitem arr i aj) j ai
  | Ret (inr _) _ => False
  | Raise _ _ => False
  | Spin => randrange_impl_1 fuel 64 (Int.add 64 i 1) σ = Spin
  end.
Proof.
  intros Hi Hlen. unfold shuffle_step, Int.sgt.
  rewrite (signed_small 64 0), signed_index by lia.
  destruct (Z.ltb_spec 0 i); [|lia]. msimpl.
  destruct (randrange_index fuel i σ ltac:(lia)) as (_ & Hne & Hret & _).
  destruct (randrange_impl_1 fuel 64 (Int.add 64 i 1) σ)
    as [j σ'|e σ'|] eqn:Ej; [|destruct (Hne e σ' eq_refl)|reflexivity].
  specialize (Hret j σ' eq_refl).
  destruct (getitem_in_range arr j σ' ltac:(lia) Hlen) as (aj & Haj & Egj).
  destruct (getitem_in_range arr i σ' ltac:(lia) Hlen) as (ai & Hai & Egi).
  rewrite Egj, Egi. msimpl.
  split; [unfold Int.sub, Int.wrap; apply Z.mod_small; lia|].
  split; [apply setitem_swap; auto; lia|].
  split; [rewrite !setitem_length; reflexivity|].
  exists j, aj, ai. auto.
Qed.

Lemma shuffle_step_done fuel arr i σ :
  index_ok arr i -> Z.of_nat (length arr) < 2 ^ 63 -> ~ 0 < i < 2 ^ 63 ->
  shuffle_step fuel (arr, i) σ = Ret (inr arr) σ.
Proof.
  intros Hok Hlen Hi. unfold shuffle_step, Int.sgt.
  rewrite (signed_small 64 0) by lia.
  assert (Hs : Int.signed 64 i <= 0).
  { destruct Hok as [Hr|[_ ->]]; [rewrite signed_index; lia|].
    vm_compute. discriminate. }
  destruct (Z.ltb_spec 0 (Int.signed 64 i)); [lia|reflexivity].
Qed.

Lemma shuffle_loop_inv fuel : forall rounds arr i σ,
  index_ok arr i -> Z.of_nat (length arr) < 2 ^ 63 ->
  match iterate rounds (shuffle_step fuel) (arr, i) σ with
  | Ret arr' _ => arr' ≡ₚ arr /\ length arr' = length arr
  | Raise _ _ => False
  | Spin => True
  end.
Proof.
  induction rounds as [|rounds IH]; intros arr i σ Hok Hlen; [exact I|].
  rewrite iterate_S.
  destruct (Z.le_gt_cases i 0) as [Hle|Hgt];
    [|destruct Hok as [Hr|[-> ->]]].
  - rewrite shuffle_step_done by (auto; lia). split; reflexivity.
  - pose proof (shuffle_step_round fuel arr i σ ltac:(lia) Hlen) as Hstep.
    destruct (shuffle_step fuel (arr, i) σ) as [[[arr' i']|?] σ'|e σ'|];
      try contradiction; [|exact I].
    destruct Hstep as (-> & Hp & Hl & _).
    specialize (IH arr' (i - 1) σ' ltac:(left; lia) ltac:(lia)).
    destruct (iterate rounds _ _ σ') as [arr'' σ''|e σ''|]; try assumption.
    destruct IH as [Hp' Hl']. split; [etransitivity; eassumption|congruence].
  - rewrite shuffle_step_done by (try right; auto; cbn; lia).
    split; reflexivity.
Qed.

Lemma shuffle_loop_fisher_yates fuel : forall (i : nat) rounds arr σ,
  (i < rounds)%nat -> Z.of_nat i < Z.of_nat (length arr) ->
  Z.of_nat (length arr) < 2 ^ 63 ->
  iterate rounds (shuffle_step fuel) (arr, Z.of_nat i) σ
  = fisher_yates fuel i arr σ.
Proof.
  induction i as [|i IH]; intros rounds arr σ Hr Hi Hlen;
    (destruct rounds as [|rounds]; [lia|]); rewrite iterate_S.
  - rewrite shuffle_step_done by (try left; auto; lia). reflexivity.
  - pose proof (shuffle_step_round fuel arr (Z.of_nat (S i)) σ
                  ltac:(lia) Hlen) as Hstep.
    cbn [fisher_yates]. msimpl.
    destruct (shuffle_step fuel (arr, Z.of_nat (S i)) σ)
      as [[[arr' i']|?] σ'|e σ'|]; try contradiction.
    + destruct Hstep as (-> & _ & Hl & j & aj & ai & -> & -> & -> & ->).
      replace (Z.of_nat (S i) - 1) with (Z.of_nat i) by lia.
      apply IH; [lia| |]; rewrite !setitem_length; lia.
    + rewrite Hstep. reflexivity.
Qed.

Lemma fisher_yates_returns fuel B : forall (i : nat) arr σ,
  rejection_bounded B -> (B <= fuel)%nat ->
  Z.of_nat i < Z.of_nat (length arr) -> Z.of_nat (length arr) < 2 ^ 63 ->
  exists arr' σ', fisher_yates fuel i arr σ = Ret arr' σ'.
Proof.
  induction i as [|i IH]; intros arr σ HB Hf Hi Hlen; [cbn; eauto|].
  destruct (HB σ (Z.of_nat (S i) + 1) ltac:(lia)) as (k & Hk & Hacc).
  destruct (randrange_index fuel (Z.of_nat (S i)) σ ltac:(lia))
    as (_ & _ & Hret & Hex).
  destruct (Hex k ltac:(lia) Hacc) as (j & σ' & Ej).
  specialize (Hret j σ' Ej).
  destruct (getitem_in_range arr j σ' ltac:(lia) Hlen) as (aj & _ & Egj).
  destruct (getitem_in_range arr (Z.of_nat (S i)) σ' ltac:(lia) Hlen)
    as (ai & _ & Egi).
  cbn [fisher_yates]. msimpl. rewrite Ej, Egj, Egi.
  apply IH; auto; rewrite !setitem_length; lia.
Qed.

Lemma shuffle_start arr :
  Z.of_nat (length arr) < 2 ^ 63 ->
  index_ok arr (Int.sub 64 (Z.of_nat (length arr)) 1) /\
  (arr <> [] ->
   Int.sub 64 (Z.of_nat (length arr)) 1 = Z.of_nat (length arr - 1)).
Proof.
  intros Hlen. unfold Int.sub, Int.wrap. destruct arr as [|x arr].
  - split; [right; split; reflexivity|congruence].
  - change (length (x :: arr)) with (S (length arr)) in *.
    assert (E : (Z.of_nat (S (length arr)) - 1) mod 2 ^ 64
                = Z.of_nat (length arr)) by (rewrite Z.mod_small; lia).
    rewrite E. split; [left|intros _]; cbn [length]; lia.
Qed.

(** C9: [shuffle] never raises; with fuel for [length arr] rounds its loop
    is the recursion over the swap index [length arr - 1, ..., 1], one
    [randrange(i + 1)] call per round; whenever it returns, the array holds
    a permutation of the original elements, of the same length; and it does
    return once fuel covers the rounds and the rejection rounds of the
    [randrange] calls, which are the only place the call can keep
    running. *)
Theorem shuffle_permutation (fuel : nat) arr (σ : store) :
  Z.of_nat (length arr) < 2 ^ 63 ->
  let run := shuffle_impl fuel arr σ in
  (forall arr' σ', run = Ret arr' σ' ->
     arr' ≡ₚ arr /\ length arr' = length arr) /\
  (forall e σ', run <> Raise e σ') /\
  ((0 < fuel)%nat -> (length arr <= fuel)%nat ->
   run = fisher_yates fuel (length arr - 1) arr σ) /\
  (forall B, rejection_bounded B ->
     (0 < fuel)%nat -> (B <= fuel)%nat -> (length arr <= fuel)%nat ->
     exists arr' σ', run = Ret arr' σ' /\
                     arr' ≡ₚ arr /\ length arr' = length arr).
Proof.
  intros Hlen run. destruct (shuffle_start arr Hlen) as [Hok Hidx].
  pose proof (shuffle_loop_inv fuel fuel arr _ σ Hok Hlen) as Hinv.
  fold (shuffle_impl fuel arr) in Hinv. fold run in Hinv.
  assert (Hfy : (0 < fuel)%nat -> (length arr <= fuel)%nat ->
                run = fisher_yates fuel (length arr - 1) arr σ).
  { intros Hf Hl. unfold run, shuffle_impl. destruct arr as [|x arr].
    - destruct fuel as [|fuel]; [lia|]. rewrite iterate_S.
      rewrite shuffle_step_done;
        [reflexivity|exact Hok|exact Hlen|
         vm_compute; intros [_ H]; discriminate H].
    - rewrite Hidx by congruence.
      apply shuffle_loop_fisher_yates; cbn [length] in *; lia. }
  split; [|split; [|split]].
  - intros arr' σ' E. rewrite E in Hinv. exact Hinv.
  - intros e σ' E. rewrite E in Hinv. exact Hinv.
  - exact Hfy.
  - intros B HB Hf HBf Hl. rewrite (Hfy Hf Hl) in Hinv |- *.
    destruct arr as [|x arr]; [exists [], σ; repeat split; reflexivity|].
    destruct (fisher_yates_returns fuel B (length (x :: arr) - 1) (x :: arr) σ
                HB HBf ltac:(cbn [length]; lia) Hlen) as (arr' & σ' & E).
    rewrite E in Hinv |- *. exists arr', σ'. split; [reflexivity|exact Hinv].
Qed.

End ShuffleFacts.

(* ------------------------------------------------------------------ *)
(** ** Stream independence *)

Lemma local_ret name {A} (a : A) : local name (mret a).
Proof. split; [intros σ; reflexivity|intros σ1 σ2 H; split; auto]. Qed.

Lemma local_raise name {A} e : local name (@raise A e).
Proof. split; [intros σ; reflexivity|intros σ1 σ2 H; split; auto]. Qed.

Lemma local_spin name {A} : local name (@spin A).
Proof. split; [intros σ; exact I|intros σ1 σ2 H; exact I]. Qed.

Lemma local_load name {A} (f : rnd_state -> A) : local name (load name f).
Proof.
  split; [intros σ; reflexivity|].
  intros σ1 σ2 H. unfold load. cbn. rewrite H. auto.
Qed.

Lemma local_modify name f : local name (modify name f).
Proof.
  split; [intros σ; apply get_set_other|].
  intros σ1 σ2 H. unfold modify. cbn. rewrite !get_set_same, H. auto.
Qed.

Lemma local_bind name {A B} (m : M A) (k : A -> M B) :
  local name m -> (forall a, local name (k a)) -> local name (m ≫= k).
Proof.
  intros [Hm1 Hm2] Hk. split.
  - intros σ. rewrite bind_eq. specialize (Hm1 σ).
    destruct (m σ) as [a σ'|e σ'|]; cbn in *; auto.
    pose proof (proj1 (Hk a) σ') as Hk1.
    destruct (k a σ') as [b σ''|e σ''|]; cbn in *; congruence.
  - intros σ1 σ2 H. rewrite !bind_eq. specialize (Hm2 σ1 σ2 H).
    destruct (m σ1) as [a σ1'|e σ1'|], (m σ2) as [b σ2'|e' σ2'|];
      cbn in *; try contradiction; auto.
    destruct Hm2 as [<- H']. apply (proj2 (Hk a)), H'.
Qed.

Lemma local_iterate name {A B} (body : A -> M (A + B)) :
  (forall a, local name (body a)) ->
  forall fuel a, local name (iterate fuel body a).
Proof.
  intros Hb. induction fuel as [|fuel IH]; intros a; [apply local_spin|].
  cbn [iterate]. apply local_bind; [apply Hb|].
  intros [a'|b]; [apply IH|apply local_ret].
Qed.

Lemma local_py_div name x y : local name (py_div x y).
Proof.
  unfold py_div. destruct (y =? 0)%float; [apply local_raise|apply local_ret].
Qed.

Lemma local_call_poisson_ptrs lam : local np (call_poisson_ptrs lam).
Proof.
  unfold call_poisson_ptrs. split.
  - intros σ. destruct (numba_poisson_ptrs _ lam). reflexivity.
  - intros σ1 σ2 H. cbn in H. cbn [get_state_ptr]. rewrite H.
    destruct (numba_poisson_ptrs _ lam). split; reflexivity.
Qed.

Lemma local_getitem name {A} (arr : list A) i : local name (getitem arr i).
Proof.
  unfold getitem. destruct (if (_ <? 0)%Z then _ else _);
    [apply local_ret|apply local_raise].
Qed.

Create HintDb local_db.
#[local] Hint Resolve local_ret local_raise local_spin local_load
  local_modify local_py_div local_call_poisson_ptrs local_getitem : local_db.

(** Splitting a locality goal along the shape of the computation. *)
Ltac local_tac :=
  repeat first
    [ progress auto with local_db
    | apply local_bind; [|intro]
    | apply local_iterate; intro
    | match goal with
      | |- local _ (if ?b then _ else _) => destruct b
      | |- local _ (match ?x with _ => _ end) => destruct x
      | |- local _ (let '(_, _) := ?x in _) => destruct x
      end ].

Lemma local_get_next_int32 name : local name (get_next_int32 name).
Proof. unfold get_next_int32. local_tac. Qed.

Lemma local_get_next_double name : local name (get_next_double name).
Proof.
  unfold get_next_double.
  local_tac; auto using local_get_next_int32 with local_db.
Qed.

Lemma local_random_impl name : local name (random_impl name).
Proof. apply local_get_next_double. Qed.

Lemma local__random_of name : local name (_random_of name).
Proof. destruct name; apply local_random_impl. Qed.

Lemma local_get_next_int name nbits : local name (get_next_int name nbits).
Proof.
  unfold get_next_int, get_shifted_int.
  local_tac; auto using local_get_next_int32 with local_db.
Qed.

#[local] Hint Resolve local_get_next_int32 local_get_next_double
  local_random_impl local__random_of local_get_next_int : local_db.

Lemma local__randrange_impl fuel w start stop step name :
  local name (_randrange_impl fuel w start stop step name).
Proof. unfold _randrange_impl, randrange_draw. local_tac. Qed.

Lemma local__gauss_impl fuel mu sigma name :
  local name (_gauss_impl fuel mu sigma name).
Proof.
  unfold _gauss_impl, compute_gauss_pair, gauss_pair_draw. local_tac.
Qed.

Lemma local__gammavariate_impl fuel name (rnd : M float) alpha beta :
  local name rnd -> local name (_gammavariate_impl fuel rnd alpha beta).
Proof.
  intros Hr. unfold _gammavariate_impl, gamma_cheng_draw, gamma_expo_draw,
    gamma_gs_draw. local_tac.
Qed.

#[local] Hint Resolve local__randrange_impl local__gauss_impl
  local__gammavariate_impl : local_db.

Lemma local_fmap name {A B} (f : A -> B) (m : M A) :
  local name m -> local name (f <$> m).
Proof. intros Hm. apply local_bind; [exact Hm|intro; apply local_ret]. Qed.

Lemma local_poisson_impl fuel args : local np (poisson_impl fuel args).
Proof. unfold poisson_impl, poisson_small, poisson_draw. local_tac. Qed.

Lemma local_chisquare_impl fuel df : local np (chisquare_impl fuel df).
Proof. unfold chisquare_impl, np_gammavariate_impl. local_tac. Qed.

Lemma local_shuffle_impl fuel (arr : list Z) : local py (shuffle_impl fuel arr).
Proof.
  unfold shuffle_impl, shuffle_step, randrange_impl_1. local_tac.
Qed.

#[local] Hint Resolve local_poisson_impl local_chisquare_impl
  local_shuffle_impl : local_db.

(** Every entry point reads and writes the state of its own stream only. *)
Lemma exec_local fuel c : local (stream_of c) (exec fuel c).
Proof.
  destruct c; cbn [exec stream_of];
    try (apply local_fmap);
    unfold _seed_impl, gauss_impl, np_gauss_impl, getrandbits_impl,
      randrange_impl_1, randrange_impl_2, randint_impl_2,
      randrange_impl_3, randint_impl_1, np_randrange_impl_2, uniform_impl,
      triangular_impl_2, triangular_impl_3, np_triangular_impl_3,
      _triangular_impl_3, gammavariate_impl, np_gammavariate_impl,
      betavariate_impl, np_betavariate_impl, _betavariate_impl,
      gammavariate_impl, np_gammavariate_impl,
      expovariate_impl, exponential_impl, standard_exponential_impl,
      lognormvariate_impl, np_lognormal_impl, _lognormvariate_impl,
      gauss_impl, np_gauss_impl,
      paretovariate_impl, pareto_impl, weibullvariate_impl, weibull_impl,
      vonmisesvariate_impl, np_vonmisesvariate_impl, _vonmisesvariate_impl,
      vonmises_draw, f_impl, geometric_impl, geometric_sum, gumbel_impl,
      hypergeometric_impl, hypergeometric_step, laplace_impl, logistic_impl,
      logseries_impl, logseries_draw, negative_binomial_impl,
      np_gammavariate_impl, power_impl, standard_exponential_impl;
    local_tac.
Qed.

Lemma other_ne s t : t <> s -> s = other t.
Proof. destruct s, t; cbn; congruence. Qed.

Lemma run_calls_isolated fuel s : forall cs σ σ',
  get_state_ptr s σ = get_state_ptr s σ' ->
  outputs_of s (fst (run_calls fuel cs σ))
    `prefix_of` outputs_of s (fst (run_calls fuel (calls_of s cs) σ')) /\
  (forall τ, snd (run_calls fuel cs σ) = Some τ ->
     outputs_of s (fst (run_calls fuel cs σ))
     = outputs_of s (fst (run_calls fuel (calls_of s cs) σ')) /\
     exists τ', snd (run_calls fuel (calls_of s cs) σ') = Some τ' /\
                get_state_ptr s τ = get_state_ptr s τ').
Proof.
  induction cs as [|c cs IH]; intros σ σ' Hs.
  - cbn. split; [reflexivity|]. intros τ [= <-]. split; [reflexivity|eauto].
  - unfold calls_of. rewrite filter_cons. fold (calls_of s cs).
    destruct (exec_local fuel c) as [Hkeep Hagree].
    destruct (decide (stream_of c = s)) as [Hc|Hc].
    + cbn [run_calls]. rewrite Hc in Hagree.
      specialize (Hagree σ σ' Hs).
      destruct (exec fuel c σ) as [v σ1|e σ1|],
               (exec fuel c σ') as [v' σ1'|e' σ1'|];
        cbn in Hagree; try contradiction.
      * destruct Hagree as [<- Hs1]. specialize (IH σ1 σ1' Hs1).
        destruct (run_calls fuel cs σ1) as [rs fin],
                 (run_calls fuel (calls_of s cs) σ1') as [rs' fin'].
        cbn [fst snd] in *. unfold outputs_of in *.
        rewrite !filter_cons. cbn [fst]. rewrite !decide_True by exact Hc.
        cbn [fmap list_fmap snd]. destruct IH as [IH1 IH2]. split.
        -- apply prefix_cons, IH1.
        -- intros τ Hτ. destruct (IH2 τ Hτ) as [-> Hex]. split; auto.
      * destruct Hagree as [<- Hs1]. specialize (IH σ1 σ1' Hs1).
        destruct (run_calls fuel cs σ1) as [rs fin],
                 (run_calls fuel (calls_of s cs) σ1') as [rs' fin'].
        cbn [fst snd] in *. unfold outputs_of in *.
        rewrite !filter_cons. cbn [fst]. rewrite !decide_True by exact Hc.
        cbn [fmap list_fmap snd]. destruct IH as [IH1 IH2]. split.
        -- apply prefix_cons, IH1.
        -- intros τ Hτ. destruct (IH2 τ Hτ) as [-> Hex]. split; auto.
      * cbn. split; [reflexivity|discriminate].
    + cbn [run_calls]. specialize (Hkeep σ).
      pose proof (other_ne s _ Hc) as Ho.
      destruct (exec fuel c σ) as [v σ1|e σ1|]; cbn in Hkeep;
        try rewrite <- Ho in Hkeep.
      * specialize (IH σ1 σ' ltac:(congruence)).
        destruct (run_calls fuel cs σ1) as [rs fin]. cbn [fst snd] in *.
        unfold outputs_of in *. rewrite filter_cons. cbn [fst].
        rewrite decide_False by exact Hc. exact IH.
      * specialize (IH σ1 σ' ltac:(congruence)).
        destruct (run_calls fuel cs σ1) as [rs fin]. cbn [fst snd] in *.
        unfold outputs_of in *. rewrite filter_cons. cbn [fst].
        rewrite decide_False by exact Hc. exact IH.
      * cbn. split; [apply prefix_nil|discriminate].
Qed.

(** C8: every entry point reads and writes the state of its own stream
    only; hence in any interleaved sequence of calls the outputs of a stream
    are those of its calls run alone, in the same order: all of them when
    the interleaved sequence runs to its end, and the ones produced so far
    when a call of it keeps running. *)
Theorem streams_independent (fuel : nat) (cs : list call) (σ : store)
    (s : stream) :
  (forall c, local (stream_of c) (exec fuel c)) /\
  outputs_of s (fst (run_calls fuel cs σ))
    `prefix_of` outputs_of s (fst (run_calls fuel (calls_of s cs) σ)) /\
  (forall τ, snd (run_calls fuel cs σ) = Some τ ->
     outputs_of s (fst (run_calls fuel cs σ))
     = outputs_of s (fst (run_calls fuel (calls_of s cs) σ)) /\
     exists τ', snd (run_calls fuel (calls_of s cs) σ) = Some τ' /\
                get_state_ptr s τ = get_state_ptr s τ').
Proof.
  split; [apply exec_local|]. apply run_calls_isolated. reflexivity.
Qed.

(* ------------------------------------------------------------------ *)
(** ** Further properties of the engine and the scalar primitives *)

(** X1: [get_next_int32] always returns a 32-bit value and leaves the index
    between [1] and [N]; it calls the reshuffle exactly when the index it
    finds is [N] or more (unsigned), then reads word 0; otherwise it reads
    the word at the index and changes nothing but the index.  The other
    stream is not touched. *)
Theorem get_next_int32_invariant (name : stream) (σ : store) :
  let s := get_state_ptr name σ in
  let idx := Int.wrap 32 (st_index s) in
  exists y σ',
    get_next_int32 name σ = Ret y σ' /\
    0 <= y < 2 ^ 32 /\
    1 <= st_index (get_state_ptr name σ') <= N /\
    get_state_ptr (other name) σ' = get_state_ptr (other name) σ /\
    (idx < N ->
     y = temper (Int.wrap 32 (nth (Z.to_nat idx) (st_words s) 0)) /\
     get_state_ptr name σ' = store_index (idx + 1) s) /\
    (N <= idx ->
     y = temper (Int.wrap 32 (nth 0 (st_words (numba_rnd_shuffle s)) 0)) /\
     get_state_ptr name σ' = store_index 1 (numba_rnd_shuffle s)).
Proof.
  intros s idx. rewrite get_next_int32_eq. fold s.
  eexists _, _. split; [reflexivity|].
  split; [apply next_int32_range|].
  rewrite get_set_same, get_set_other.
  pose proof (wrap_range 32 (st_index s) ltac:(lia)) as Hidx. fold idx in Hidx.
  unfold next_int32, Int.uge, N. fold idx.
  destruct (Z.leb_spec 624 idx) as [Hge|Hlt]; cbn [fst snd].
  - change (Int.wrap 32 (st_index (store_index 0 (numba_rnd_shuffle s))))
      with 0.
    change (Int.add 32 0 1) with 1. cbn [store_index st_index].
    split; [lia|]. split; [reflexivity|]. split; [lia|].
    intros _. split; reflexivity.
  - fold idx.
    assert (E : Int.add 32 idx 1 = idx + 1)
      by (unfold Int.add, Int.wrap; apply Z.mod_small; lia).
    rewrite E. cbn [store_index st_index].
    split; [lia|]. split; [reflexivity|]. split; [|lia].
    intros _. split; reflexivity.
Qed.

Lemma add_is_lor lo h :
  0 <= lo < 2 ^ 32 -> 0 <= h -> lo + Z.shiftl h 32 = Z.lor lo (Z.shiftl h 32).
Proof.
  intros Hlo Hh. rewrite <- Z.lxor_lor, Z.add_nocarry_lxor; try reflexivity;
    apply Z.bits_inj'; intros n Hn; rewrite Z.land_spec, Z.bits_0;
    (destruct (Z.lt_ge_cases n 32) as [Hlt|Hge];
     [rewrite (Z.shiftl_spec_low h 32 n Hlt); apply andb_false_r|]);
    (destruct (Z.eq_dec lo 0) as [->|Hne];
     [rewrite Z.bits_0; reflexivity|]);
    rewrite (Z.bits_above_log2 lo n); try reflexivity; try lia;
    assert (Z.log2 lo < 32) by (apply Z.log2_lt_pow2; lia); lia.
Qed.

(** X2: [get_next_int] with [1 <= nbits <= 64] always returns a value
    below [2^nbits].  For [nbits <= 32] it draws one word [y] and returns
    its top [nbits] bits, [y >> (32 - nbits)]; for [nbits > 32] it draws
    the low word [lo] and then the high word [hi], and the sum it returns
    never carries: it is [lo | ((hi >> (64 - nbits)) << 32)]. *)
Theorem get_next_int_bits (name : stream) (nbits : Z) (σ : store) :
  1 <= nbits <= 64 ->
  exists lo σ1 hi σ2 v σ',
    get_next_int32 name σ = Ret lo σ1 /\
    get_next_int32 name σ1 = Ret hi σ2 /\
    get_next_int name nbits σ = Ret v σ' /\
    0 <= v < 2 ^ nbits /\
    (nbits <= 32 -> v = Z.shiftr lo (32 - nbits) /\ σ' = σ1) /\
    (32 < nbits ->
     v = Z.lor lo (Z.shiftl (Z.shiftr hi (64 - nbits)) 32) /\ σ' = σ2).
Proof.
  intros Hn.
  pose proof (get_next_int_range name nbits σ Hn) as Hr.
  pose proof (get_next_int_total name nbits σ) as Ht.
  pose proof (get_next_int32_eq name σ) as E1.
  pose proof (next_int32_range (get_state_ptr name σ)) as Hlo.
  set (lo := fst (next_int32 (get_state_ptr name σ))) in *.
  set (σ1 := set_state name _ σ) in *.
  pose proof (get_next_int32_eq name σ1) as E2.
  pose proof (next_int32_range (get_state_ptr name σ1)) as Hhi.
  set (hi := fst (next_int32 (get_state_ptr name σ1))) in *.
  set (σ2 := set_state name _ σ1) in *.
  exists lo, σ1, hi, σ2. eexists _, _.
  split; [exact E1|]. split; [exact E2|]. split; [exact Ht|].
  split; [exact Hr|].
  unfold run_next_int, get_next_int, Int.ule.
  destruct (Z.leb_spec nbits 32) as [Hs|Hs]; msimpl.
  - rewrite get_shifted_int_eq. cbn [fst snd]. fold lo σ1.
    split; [|lia]. intros _. split; [|reflexivity].
    unfold Int.zext, Int.lshr, Int.sub, Int.wrap.
    rewrite Z.mod_small by lia. reflexivity.
  - rewrite E1. msimpl. rewrite get_shifted_int_eq. cbn [fst snd].
    fold σ1 hi σ2. split; [lia|]. intros _. split; [|reflexivity].
    unfold Int.zext, Int.lshr, Int.sub, Int.add, Int.shl, Int.wrap.
    rewrite (Z.mod_small (nbits - 32)) by lia.
    rewrite (Z.mod_small (32 - (nbits - 32))) by lia.
    replace (32 - (nbits - 32)) with (64 - nbits) by lia.
    pose proof (shiftr_range 32 hi (64 - nbits) ltac:(lia) Hhi) as Hh.
    assert (Hh' : Z.shiftr hi (64 - nbits) * 2 ^ 32 < 2 ^ 32 * 2 ^ 32) by nia.
    rewrite (Z.mod_small (Z.shiftl _ 32))
      by (rewrite Z.shiftl_mul_pow2 by lia;
          change (2 ^ 64) with (2 ^ 32 * 2 ^ 32); nia).
    rewrite Z.mod_small
      by (rewrite Z.shiftl_mul_pow2 by lia;
          change (2 ^ 64) with (2 ^ 32 * 2 ^ 32); nia).
    apply add_is_lor; lia.
Qed.

(* ------------------------------------------------------------------ *)
(** ** The tempering is one-to-one *)

Lemma xor_shr_inj k a b :
  0 < k -> 0 <= a -> 0 <= b ->
  Z.lxor a (Z.shiftr a k) = Z.lxor b (Z.shiftr b k) -> a = b.
Proof.
  intros Hk Ha Hb E.
  apply Z.lxor_eq.
  set (d := Z.lxor a b).
  assert (Hd : 0 <= d) by (apply Z.lxor_nonneg; lia).
  assert (E' : Z.lxor d (Z.shiftr d k) = 0).
  { unfold d. rewrite Z.shiftr_lxor.
    rewrite Z.lxor_assoc, <- (Z.lxor_assoc b), (Z.lxor_comm b (Z.shiftr a k)),
      Z.lxor_assoc, <- Z.lxor_assoc, E. apply Z.lxor_nilpotent. }
  apply Z.lxor_eq in E'.
  destruct (Z.eq_dec d 0) as [|Hne]; [assumption|].
  assert (0 < d) by lia.
  rewrite Z.shiftr_div_pow2 in E' by lia.
  assert (2 <= 2 ^ k)
    by (change 2 with (2 ^ 1) at 1; apply Z.pow_le_mono_r; lia).
  assert (d / 2 ^ k < d) by (apply Z.div_lt; lia). lia.
Qed.

Lemma xor_shl_and_inj k c a b :
  0 < k ->
  Z.lxor a (Z.land ((Z.shiftl a k) mod 2 ^ 32) c)
  = Z.lxor b (Z.land ((Z.shiftl b k) mod 2 ^ 32) c) -> a = b.
Proof.
  intros Hk E. apply Z.bits_inj'. intros n Hn. revert n Hn.
  apply Wf_Z.Zlt_0_ind. intros n IH Hn.
  assert (Hs : forall x, Z.testbit ((Z.shiftl x k) mod 2 ^ 32) n
               = (n <? 32) && Z.testbit x (n - k)).
  { intros x. destruct (Z.ltb_spec n 32) as [Hlt|Hge].
    - rewrite Z.mod_pow2_bits_low by lia. rewrite Z.shiftl_spec by lia.
      reflexivity.
    - rewrite Z.mod_pow2_bits_high by lia. reflexivity. }
  apply (f_equal (fun z => Z.testbit z n)) in E.
  rewrite !Z.lxor_spec, !Z.land_spec, !Hs in E.
  assert (Hab : Z.testbit a (n - k) = Z.testbit b (n - k)).
  { destruct (Z.lt_ge_cases (n - k) 0) as [Hneg|Hpos].
    - rewrite !Z.testbit_neg_r by lia. reflexivity.
    - apply IH. lia. }
  rewrite Hab in E.
  destruct (Z.testbit a n), (Z.testbit b n),
    ((n <? 32) && Z.testbit b (n - k) && Z.testbit c n);
    simpl in E; congruence.
Qed.

Lemma lxor_nonneg2 a b : 0 <= a -> 0 <= b -> 0 <= Z.lxor a b.
Proof. intros Ha Hb. apply Z.lxor_nonneg. tauto. Qed.

(** X3: the tempering of [get_next_int32] is one-to-one on 32-bit words:
    two different state words never give the same output word. *)
Theorem temper_injective (y y' : Z) :
  0 <= y < 2 ^ 32 -> 0 <= y' < 2 ^ 32 -> y <> y' -> temper y <> temper y'.
Proof.
  intros Hy Hy' Hne E. apply Hne.
  unfold temper, Int.xor, Int.lshr, Int.and_, Int.shl, Int.wrap in E.
  cbv zeta in E.
  apply xor_shr_inj in E; [|lia| |];
    try (repeat first [ apply lxor_nonneg2
                      | apply Z.land_nonneg; right; lia
                      | apply Z.shiftr_nonneg; lia
                      | lia ]).
  apply xor_shl_and_inj in E; [|lia].
  apply xor_shl_and_inj in E; [|lia].
  apply xor_shr_inj in E; [exact E|lia..].
Qed.

(* ------------------------------------------------------------------ *)
(** ** The values of the range family *)

(** A step of [0] or [1] leaves the span as it is. *)
Lemma randrange_n_plain w start stop step :
  2 <= w -> 0 <= Int.signed w step <= 1 ->
  randrange_n w start stop step = Int.sub w stop start.
Proof.
  intros Hw Hs. unfold randrange_n, Int.slt, Int.sgt.
  rewrite (signed_small w 0), (signed_small w 1) by lia.
  destruct (Z.ltb_spec (Int.signed w step) 0); [lia|].
  destruct (Z.ltb_spec 1 (Int.signed w step)); [lia|reflexivity].
Qed.

Lemma quot_range a b : b <> 0 -> - Z.abs a <= a ÷ b <= Z.abs a.
Proof.
  intros Hb.
  assert (H : Z.abs (a ÷ b) <= Z.abs a).
  { rewrite <- (Z.quot_abs a b) by exact Hb.
    destruct (Z.eq_dec (Z.abs a) 0) as [->|Ha]; [rewrite Z.quot_0_l; lia|].
    destruct (Z.eq_dec (Z.abs b) 1) as [->|Hb1];
      [rewrite Z.quot_1_r; lia|].
    apply Z.lt_le_incl, Z.quot_lt; lia. }
  lia.
Qed.

(** The number of values of a range that steps upwards. *)
Lemma randrange_n_up w start stop step :
  2 <= w ->
  let a := Int.signed w start in
  let b := Int.signed w stop in
  let s := Int.signed w step in
  1 <= s -> - 2 ^ (w - 1) <= b - a + s - 1 < 2 ^ (w - 1) ->
  Int.signed w (randrange_n w start stop step) = (b - a + s - 1) ÷ s.
Proof.
  intros Hw a b s Hs Hr.
  destruct (Z.eq_dec s 1) as [E1|Hne].
  - rewrite randrange_n_plain by (fold s; lia). fold s in E1.
    rewrite signed_sub by (fold a b; lia). fold a b. rewrite E1, Z.quot_1_r.
    lia.
  - unfold randrange_n, Int.slt, Int.sgt.
    rewrite (signed_small w 0), (signed_small w 1) by lia. fold s.
    destruct (Z.ltb_spec s 0); [lia|].
    destruct (Z.ltb_spec 1 s); [|lia].
    unfold Int.sdiv. fold s.
    assert (En : Int.signed w (Int.sub w (Int.add w (Int.sub w stop start) step) 1)
                 = b - a + s - 1).
    { unfold Int.sub, Int.add.
      destruct (wrap_repr w (stop - start) ltac:(lia)) as (k1 & ->).
      destruct (wrap_repr w (stop - start + k1 * 2 ^ w + step) ltac:(lia))
        as (k2 & ->).
      destruct (wrap_repr w
                  (stop - start + k1 * 2 ^ w + step + k2 * 2 ^ w - 1)
                  ltac:(lia)) as (k3 & ->).
      destruct (signed_repr w start ltac:(lia)) as (ka & Ea).
      destruct (signed_repr w stop ltac:(lia)) as (kb & Eb).
      destruct (signed_repr w step ltac:(lia)) as (ks & Es).
      apply (signed_unique w _ _ (k1 + k2 + k3 + ka - kb - ks) ltac:(lia) Hr).
      unfold a, b, s. rewrite Ea, Eb, Es. ring. }
    rewrite En. apply signed_wrap_small; [lia|].
    pose proof (quot_range (b - a + s - 1) s ltac:(lia)) as Hq.
    assert (Hq0 : 0 <= b - a + s - 1 -> 0 <= (b - a + s - 1) ÷ s)
      by (intros; apply Z.quot_pos; lia).
    assert (Hq1 : b - a + s - 1 <= 0 -> (b - a + s - 1) ÷ s <= 0).
    { intros Hle.
      pose proof (Z.quot_opp_l (b - a + s - 1) s ltac:(lia)) as Ho.
      assert (0 <= (- (b - a + s - 1)) ÷ s) by (apply Z.quot_pos; lia).
      lia. }
    lia.
Qed.

(** The number of values of a range that steps downwards. *)
Lemma randrange_n_down w start stop step :
  2 <= w ->
  let a := Int.signed w start in
  let b := Int.signed w stop in
  let s := Int.signed w step in
  s <= -1 -> - 2 ^ (w - 1) < b - a + s + 1 < 2 ^ (w - 1) ->
  Int.signed w (randrange_n w start stop step) = (b - a + s + 1) ÷ s.
Proof.
  intros Hw a b s Hs Hr.
  unfold randrange_n, Int.slt, Int.sgt.
  rewrite (signed_small w 0), (signed_small w 1) by lia. fold s.
  destruct (Z.ltb_spec s 0); [|lia].
  destruct (Z.ltb_spec 1 s); [lia|].
  unfold Int.sdiv. fold s.
  assert (En : Int.signed w (Int.add w (Int.add w (Int.sub w stop start) step) 1)
               = b - a + s + 1).
  { unfold Int.sub, Int.add.
    destruct (wrap_repr w (stop - start) ltac:(lia)) as (k1 & ->).
    destruct (wrap_repr w (stop - start + k1 * 2 ^ w + step) ltac:(lia))
      as (k2 & ->).
    destruct (wrap_repr w
                (stop - start + k1 * 2 ^ w + step + k2 * 2 ^ w + 1)
                ltac:(lia)) as (k3 & ->).
    destruct (signed_repr w start ltac:(lia)) as (ka & Ea).
    destruct (signed_repr w stop ltac:(lia)) as (kb & Eb).
    destruct (signed_repr w step ltac:(lia)) as (ks & Es).
    apply (signed_unique w _ (b - a + s + 1) (k1 + k2 + k3 + ka - kb - ks)
             ltac:(lia) ltac:(lia)).
    unfold a, b, s. rewrite Ea, Eb, Es. ring. }
  rewrite En. apply signed_wrap_small; [lia|].
  pose proof (quot_range (b - a + s + 1) s ltac:(lia)) as Hq. lia.
Qed.

(** What a call of [_randrange_impl] that returns has returned: a value
    [start + r * step] with [0 <= r < n]. *)
Lemma randrange_ret_inv fuel w start stop step name σ v σ' :
  2 <= w <= 64 ->
  _randrange_impl fuel w start stop step name σ = Ret v σ' ->
  0 < Int.signed w (randrange_n w start stop step) /\
  exists r, 0 <= r < Int.signed w (randrange_n w start stop step) /\
            v = Int.add w start (Int.mul w r step).
Proof.
  intros Hw. unfold _randrange_impl, Int.sle.
  rewrite (signed_small w 0) by lia.
  set (n := randrange_n w start stop step).
  destruct (Z.leb_spec (Int.signed w n) 0) as [|Hn]; [discriminate|].
  msimpl.
  destruct (iterate fuel _ tt σ) as [r σ1|e1 σ1|] eqn:E; try discriminate.
  intros [= <- <-]. split; [exact Hn|].
  destruct (randrange_loop_ret _ _ _ _ _ _ _ _ E) as (k & -> & Ha).
  destruct (randrange_nbits_eq w n Hw Hn) as (_ & _ & Hb & _).
  pose proof (nth_next_int_range name (randrange_nbits w n) k σ ltac:(lia))
    as Hr.
  destruct (accepted_range w n _ Hw Hn Hr) as [Et Hacc].
  rewrite Et. eexists. split; [|reflexivity]. apply Hacc in Ha. lia.
Qed.

(** The only error of [_randrange_impl] is the [ValueError] of an empty
    range, raised before anything is drawn. *)
Lemma randrange_raise_inv fuel w start stop step name σ e σ' :
  2 <= w <= 64 ->
  _randrange_impl fuel w start stop step name σ = Raise e σ' <->
  Int.signed w (randrange_n w start stop step) <= 0 /\
  e = ValueError /\ σ' = σ.
Proof.
  intros Hw. unfold _randrange_impl, Int.sle.
  rewrite (signed_small w 0) by lia.
  set (n := randrange_n w start stop step).
  destruct (Z.leb_spec (Int.signed w n) 0) as [Hn|Hn].
  - unfold raise. split.
    + intros [= <- <-]. auto.
    + intros (_ & -> & ->). reflexivity.
  - msimpl. split; [|lia].
    destruct (iterate fuel _ tt σ) as [r σ1|e1 σ1|] eqn:E; try discriminate.
    exfalso. exact (randrange_loop_no_raise _ _ _ _ _ _ _ _ E).
Qed.

(** X4: a range that steps upwards.  When [stop - start + step - 1] does
    not overflow the integer type, [_randrange_impl] with [step >= 1]
    raises [ValueError], with nothing drawn, exactly when [stop <= start];
    a value it returns is [start + r * step] for some [r >= 0] and lies in
    [start <= v < stop]. *)
Theorem randrange_step_up (fuel : nat) (w start stop step : Z)
    (name : stream) (σ : store) :
  2 <= w <= 64 ->
  let a := Int.signed w start in
  let b := Int.signed w stop in
  let s := Int.signed w step in
  1 <= s -> - 2 ^ (w - 1) <= b - a + s - 1 < 2 ^ (w - 1) ->
  let run := _randrange_impl fuel w start stop step name σ in
  (forall e σ', run = Raise e σ' <-> b <= a /\ e = ValueError /\ σ' = σ) /\
  (forall v σ', run = Ret v σ' ->
     exists r, 0 <= r /\ Int.signed w v = a + r * s /\
               a <= Int.signed w v < b).
Proof.
  intros Hw a b s Hs Hr run.
  pose proof (randrange_n_up w start stop step ltac:(lia) Hs Hr) as En.
  fold a b s in En.
  pose proof (signed_range w start ltac:(lia)) as Ha.
  pose proof (signed_range w stop ltac:(lia)) as Hb. fold a in Ha. fold b in Hb.
  assert (Hq : 0 < (b - a + s - 1) ÷ s <-> a < b).
  { split.
    - intros H. destruct (Z.lt_ge_cases a b) as [|Hge]; [assumption|exfalso].
      destruct (Z.lt_ge_cases (b - a + s - 1) 0) as [Hneg|Hpos].
      + pose proof (Z.quot_opp_l (a - b - s + 1) s ltac:(lia)) as Ho.
        replace (- (a - b - s + 1)) with (b - a + s - 1) in Ho by lia.
        assert (0 <= (a - b - s + 1) ÷ s) by (apply Z.quot_pos; lia). lia.
      + rewrite Z.quot_small in H by lia. lia.
    - intros H. rewrite Z.quot_div_nonneg by lia.
      apply Z.div_str_pos. lia. }
  split.
  - intros e σ'. unfold run. rewrite randrange_raise_inv by exact Hw.
    rewrite En. split; intros (H & He & Hσ); (split; [lia|auto]).
  - intros v σ' Hrun.
    destruct (randrange_ret_inv _ _ _ _ _ _ _ _ _ Hw Hrun)
      as (Hn & r & Hrn & ->).
    rewrite En in Hn, Hrn. apply Hq in Hn.
    rewrite Z.quot_div_nonneg in Hrn by lia.
    pose proof (Z.mul_div_le (b - a + s - 1) s ltac:(lia)) as Hm.
    assert (Hv : a <= a + r * s < b) by nia.
    rewrite signed_add_mul by (fold a s; lia). fold a s.
    exists r. split; [lia|]. split; [reflexivity|exact Hv].
Qed.

(** X5: a range that steps downwards.  When [stop - start + step + 1] does
    not overflow, [_randrange_impl] with [step <= -1] raises [ValueError],
    with nothing drawn, exactly when [start <= stop]; a value it returns is
    [start + r * step] for some [r >= 0] and lies in [stop < v <= start]. *)
Theorem randrange_step_down (fuel : nat) (w start stop step : Z)
    (name : stream) (σ : store) :
  2 <= w <= 64 ->
  let a := Int.signed w start in
  let b := Int.signed w stop in
  let s := Int.signed w step in
  s <= -1 -> - 2 ^ (w - 1) < b - a + s + 1 < 2 ^ (w - 1) ->
  let run := _randrange_impl fuel w start stop step name σ in
  (forall e σ', run = Raise e σ' <-> a <= b /\ e = ValueError /\ σ' = σ) /\
  (forall v σ', run = Ret v σ' ->
     exists r, 0 <= r /\ Int.signed w v = a + r * s /\
               b < Int.signed w v <= a).
Proof.
  intros Hw a b s Hs Hr run.
  pose proof (randrange_n_down w start stop step ltac:(lia) Hs Hr) as En.
  fold a b s in En.
  pose proof (signed_range w start ltac:(lia)) as Ha.
  pose proof (signed_range w stop ltac:(lia)) as Hb. fold a in Ha. fold b in Hb.
  assert (Eq : (b - a + s + 1) ÷ s = (a - b - s - 1) ÷ (- s)).
  { replace (b - a + s + 1) with (- (a - b - s - 1)) by lia.
    rewrite Z.quot_opp_l, <- Z.quot_opp_r by lia. reflexivity. }
  rewrite Eq in En.
  assert (Hq : 0 < (a - b - s - 1) ÷ (- s) <-> b < a).
  { split.
    - intros H. destruct (Z.lt_ge_cases b a) as [|Hge]; [assumption|exfalso].
      destruct (Z.lt_ge_cases (a - b - s - 1) 0) as [Hneg|Hpos].
      + pose proof (Z.quot_opp_l (b - a + s + 1) (- s) ltac:(lia)) as Ho.
        replace (- (b - a + s + 1)) with (a - b - s - 1) in Ho by lia.
        assert (0 <= (b - a + s + 1) ÷ (- s)) by (apply Z.quot_pos; lia). lia.
      + rewrite Z.quot_small in H by lia. lia.
    - intros H. rewrite Z.quot_div_nonneg by lia.
      apply Z.div_str_pos. lia. }
  split.
  - intros e σ'. unfold run. rewrite randrange_raise_inv by exact Hw.
    rewrite En. split; intros (H & He & Hσ); (split; [lia|auto]).
  - intros v σ' Hrun.
    destruct (randrange_ret_inv _ _ _ _ _ _ _ _ _ Hw Hrun)
      as (Hn & r & Hrn & ->).
    rewrite En in Hn, Hrn. apply Hq in Hn.
    rewrite Z.quot_div_nonneg in Hrn by lia.
    pose proof (Z.mul_div_le (a - b - s - 1) (- s) ltac:(lia)) as Hm.
    assert (Hv : b < a + r * s <= a) by nia.
    rewrite signed_add_mul by (fold a s; lia). fold a s.
    exists r. split; [lia|]. split; [reflexivity|exact Hv].
Qed.

(** X6: a step of zero is not rejected.  [_randrange_impl] with [step = 0]
    treats the range as one of step [1] when it tests for emptiness and
    draws, and every value it returns is [start]. *)
Theorem randrange_zero_step (fuel : nat) (w start stop step : Z)
    (name : stream) (σ : store) :
  2 <= w <= 64 -> Int.signed w step = 0 ->
  let run := _randrange_impl fuel w start stop step name σ in
  randrange_n w start stop step = Int.sub w stop start /\
  (forall e σ', run = Raise e σ' <->
     Int.signed w (Int.sub w stop start) <= 0 /\ e = ValueError /\ σ' = σ) /\
  (forall v σ', run = Ret v σ' ->
     0 < Int.signed w (Int.sub w stop start) /\ v = Int.wrap w start).
Proof.
  intros Hw Hs run.
  pose proof (randrange_n_plain w start stop step ltac:(lia) ltac:(lia)) as En.
  split; [exact En|]. split.
  - intros e σ'. unfold run. rewrite randrange_raise_inv by exact Hw.
    rewrite En. reflexivity.
  - intros v σ' Hrun.
    destruct (randrange_ret_inv _ _ _ _ _ _ _ _ _ Hw Hrun)
      as (Hn & r & Hrn & ->).
    rewrite En in Hn. split; [exact Hn|].
    unfold Int.add, Int.mul.
    destruct (signed_repr w step ltac:(lia)) as (ks & Es). rewrite Hs in Es.
    assert (step = (- ks) * 2 ^ w) as -> by lia.
    unfold Int.wrap.
    replace (r * (- ks * 2 ^ w)) with ((- r * ks) * 2 ^ w) by ring.
    rewrite Z.mod_mul by (apply Z.pow_nonzero; lia).
    f_equal. lia.
Qed.

(** X7: [random.randint(a, b)].  When the count [b - a + 1] fits the
    integer type, the call raises [ValueError], with nothing drawn, exactly
    when [b < a], and a value it returns lies in [a <= v <= b], both ends
    included, also when [b] is the largest value of the type and [b + 1]
    wraps round. *)
Theorem randint_closed_range (fuel : nat) (w start stop : Z) (σ : store) :
  2 <= w <= 64 ->
  let a := Int.signed w start in
  let b := Int.signed w stop in
  - 2 ^ (w - 1) <= b - a + 1 < 2 ^ (w - 1) ->
  let run := randint_impl_1 fuel w start stop σ in
  (forall e σ', run = Raise e σ' <-> b < a /\ e = ValueError /\ σ' = σ) /\
  (forall v σ', run = Ret v σ' -> a <= Int.signed w v <= b).
Proof.
  intros Hw a b Hr run. unfold run, randint_impl_1. cbv zeta.
  pose proof (signed_small w 1 ltac:(lia) ltac:(lia)) as E1.
  pose proof (randrange_n_plain w start (Int.add w stop 1) 1 ltac:(lia)
                ltac:(lia)) as En.
  assert (Es : Int.signed w (Int.sub w (Int.add w stop 1) start) = b - a + 1).
  { unfold Int.sub, Int.add.
    destruct (wrap_repr w (stop + 1) ltac:(lia)) as (k1 & ->).
    destruct (wrap_repr w (stop + 1 + k1 * 2 ^ w - start) ltac:(lia))
      as (k2 & ->).
    destruct (signed_repr w start ltac:(lia)) as (ka & Ea).
    destruct (signed_repr w stop ltac:(lia)) as (kb & Eb).
    apply (signed_unique w _ _ (k1 + k2 + ka - kb) ltac:(lia) Hr).
    unfold a, b. rewrite Ea, Eb. ring. }
  pose proof (signed_range w start ltac:(lia)) as Ha.
  pose proof (signed_range w stop ltac:(lia)) as Hb. fold a in Ha. fold b in Hb.
  split.
  - intros e σ'. rewrite randrange_raise_inv by exact Hw.
    rewrite En, Es. split; intros (H & He & Hσ); (split; [lia|auto]).
  - intros v σ' Hrun.
    destruct (randrange_ret_inv _ _ _ _ _ _ _ _ _ Hw Hrun)
      as (Hn & r & Hrn & ->).
    rewrite En, Es in Hn, Hrn.
    rewrite signed_add_mul by (rewrite ?E1; fold a; lia). fold a.
    rewrite E1. lia.
Qed.

(* ------------------------------------------------------------------ *)
(** ** Order on doubles, and the uniform draw *)

Lemma SFcompare_antisym x y :
  SFcompare y x = option_map CompOpp (SFcompare x y).
Proof.
  destruct x as [sx|sx| |sx mx ex], y as [sy|sy| |sy my ey];
    try reflexivity; cbn;
    try (destruct sx; reflexivity);
    try (destruct sy; reflexivity);
    try (destruct sx, sy; reflexivity).
  destruct sx, sy; cbn; try reflexivity;
    rewrite (Z.compare_antisym ex ey); destruct (ex ?= ey); cbn;
    try reflexivity; rewrite (ZC4 mx my);
    destruct (Pos.compare_cont Eq my mx); reflexivity.
Qed.

Lemma ltb_asym (x y : float) :
  (x <? y)%float = true ->
  (y <? x)%float = false /\ (y <=? x)%float = false /\
  (x =? y)%float = false /\ (y =? x)%float = false.
Proof.
  rewrite !FloatAxioms.ltb_spec, FloatAxioms.leb_spec, !FloatAxioms.eqb_spec.
  unfold SFltb, SFleb, SFeqb.
  rewrite (SFcompare_antisym (Prim2SF x) (Prim2SF y)).
  destruct (SFcompare (Prim2SF x) (Prim2SF y)) as [[]|]; cbn;
    intros H; try discriminate H; repeat split.
Qed.

Lemma eqb_leb (x y : float) :
  (x =? y)%float = true -> (x <=? y)%float = true.
Proof.
  rewrite FloatAxioms.leb_spec, FloatAxioms.eqb_spec.
  unfold SFleb, SFeqb.
  destruct (SFcompare (Prim2SF x) (Prim2SF y)) as [[]|];
    intros H; try discriminate H; reflexivity.
Qed.

(** A negative double is not [>= 10.0]. *)
Lemma negative_not_large (lam : float) :
  (lam <? 0)%float = true -> fge lam 10 = false.
Proof.
  unfold fge. rewrite FloatAxioms.ltb_spec, FloatAxioms.leb_spec.
  change (Prim2SF 0) with (S754_zero false).
  change (Prim2SF 10) with (S754_finite false 5629499534213120 (-49)).
  destruct (Prim2SF lam) as [s|s| |s m e]; try discriminate;
    destruct s; try discriminate; reflexivity.
Qed.

(** The double that [get_next_double] draws is [c * 2^-53] for a natural
    number [c < 2^53]. *)
Lemma run_next_double_frac name σ :
  exists c, 0 <= c < 2 ^ 53 /\
            Prim2SF (fst (run_next_double name σ)) = SFfrac53 c.
Proof.
  rewrite run_next_double_eq. cbn [fst]. unfold next_double.
  pose proof (next_int32_range (get_state_ptr name σ)) as Hw1.
  destruct (next_int32 (get_state_ptr name σ)) as [a s1]. cbn [fst] in Hw1.
  pose proof (next_int32_range s1) as Hw2.
  destruct (next_int32 s1) as [b s2]. cbn [fst] in Hw2 |- *.
  assert (Ha : 0 <= Int.lshr a 5 < 2 ^ 27).
  { unfold Int.lshr. rewrite Z.shiftr_div_pow2 by lia.
    change (2 ^ 5) with 32. change (2 ^ 32) with (32 * 2 ^ 27) in Hw1.
    split; [apply Z.div_pos; lia|apply Z.div_lt_upper_bound; lia]. }
  assert (Hb : 0 <= Int.lshr b 6 < 2 ^ 26).
  { unfold Int.lshr. rewrite Z.shiftr_div_pow2 by lia.
    change (2 ^ 6) with 64. change (2 ^ 32) with (64 * 2 ^ 26) in Hw2.
    split; [apply Z.div_pos; lia|apply Z.div_lt_upper_bound; lia]. }
  exists (Int.lshr a 5 * 2 ^ 26 + Int.lshr b 6). split.
  - change (2 ^ 53) with (2 ^ 27 * 2 ^ 26). nia.
  - unfold uitofp. apply double_of_words; assumption.
Qed.

Lemma run_next_double_unit name σ :
  (0 <=? fst (run_next_double name σ))%float = true /\
  (fst (run_next_double name σ) <? 1)%float = true.
Proof.
  destruct (run_next_double_frac name σ) as (c & Hc & E).
  rewrite FloatAxioms.leb_spec, FloatAxioms.ltb_spec, E. split.
  - apply SFfrac53_ge_zero.
  - apply SFfrac53_lt_one, Hc.
Qed.

Lemma random_impl_eq name σ :
  random_impl name σ
  = Ret (fst (run_next_double name σ)) (snd (run_next_double name σ)).
Proof. apply get_next_double_total. Qed.

(* ------------------------------------------------------------------ *)
(** ** Loops *)

(** A loop that returns has left through an [inr] of its body. *)
Lemma iterate_ret_inv {A B} (body : A -> M (A + B)) : forall fuel a σ b σ',
  iterate fuel body a σ = Ret b σ' ->
  exists a' σ'', body a' σ'' = Ret (inr b) σ'.
Proof.
  induction fuel as [|fuel IH]; intros a σ b σ'; [discriminate|].
  rewrite iterate_S.
  destruct (body a σ) as [[a'|b'] σ1|e σ1|] eqn:E; try discriminate.
  - apply IH.
  - intros [= <- <-]. eauto.
Qed.

(* ------------------------------------------------------------------ *)
(** ** Errors of the gaussian samplers *)

Lemma gauss_pair_draw_never_raises e name u :
  never_raises e (gauss_pair_draw (_random_of name) u).
Proof.
  intros σ σ'. destruct u. rewrite gauss_pair_draw_eq.
  destruct (gauss_round name σ) as [[[x1 x2] r2] σ2]. discriminate.
Qed.

Lemma compute_gauss_pair_never_raises e fuel name :
  never_raises e (compute_gauss_pair fuel (_random_of name)).
Proof.
  intros σ σ'. unfold compute_gauss_pair. msimpl.
  destruct (iterate fuel _ tt σ) as [[[x1 x2] r2] σ1|e1 σ1|] eqn:E;
    [| |discriminate].
  - destruct (iterate_ret_inv _ _ _ _ _ _ E) as ([] & σ0 & Hb).
    rewrite gauss_pair_draw_eq in Hb.
    destruct (gauss_round name σ0) as [[[y1 y2] s2] σ2].
    destruct (in_unit_disk s2) eqn:Hd; [|discriminate].
    injection Hb as <- <- <- <-.
    unfold py_div. rewrite (in_unit_disk_not_zero _ Hd). discriminate.
  - intros [= -> ->].
    exact (never_raises_iterate e _
             (gauss_pair_draw_never_raises e name) fuel tt σ σ' E).
Qed.

Lemma _gauss_impl_never_raises e fuel mu sigma name :
  never_raises e (_gauss_impl fuel mu sigma name).
Proof.
  unfold _gauss_impl.
  apply never_raises_bind; [intros σ σ'; discriminate|]. intros h.
  apply never_raises_bind; [|intros r σ σ'; discriminate].
  destruct (negb _).
  - intros σ σ'. discriminate.
  - apply never_raises_bind; [apply compute_gauss_pair_never_raises|].
    intros [f s] σ σ'. discriminate.
Qed.

(** X8: the gaussian samplers raise nothing.  The division by [r2] in
    [compute_gauss_pair] comes after the loop, which is left only with
    [r2 != 0.0]; so [random.gauss], [np.random.normal] and the log-normal
    samplers built on them never raise [ZeroDivisionError], or any other
    error. *)
Theorem gauss_never_raises (e : error) (fuel : nat) (mu sigma : float) :
  never_raises e (gauss_impl fuel mu sigma) /\
  never_raises e (np_gauss_impl fuel mu sigma) /\
  never_raises e (lognormvariate_impl fuel mu sigma) /\
  never_raises e (np_lognormal_impl fuel mu sigma).
Proof.
  unfold gauss_impl, np_gauss_impl, lognormvariate_impl, np_lognormal_impl,
    _lognormvariate_impl, gauss_impl, np_gauss_impl.
  repeat split; try apply _gauss_impl_never_raises;
    (apply never_raises_bind;
     [apply _gauss_impl_never_raises|intros g σ σ'; discriminate]).
Qed.

(* ------------------------------------------------------------------ *)
(** ** Domain checks of the samplers of [np.random] *)

Lemma never_raises_geometric_sum e q U st :
  never_raises e (geometric_sum q U st).
Proof.
  destruct st as [[X sum] prod]. unfold geometric_sum.
  destruct (fgt U sum); intros σ σ'; discriminate.
Qed.

(** X9: [np.random.geometric(p)] raises [ValueError], with nothing drawn,
    when [p <= 0.0] or [p > 1.0], and never otherwise; at the end of the
    domain, [p = 1.0], it draws one double and returns [1], since the
    draw is below [1.0]. *)
Theorem geometric_domain (fuel : nat) (p : float) (σ : store) :
  let run := geometric_impl fuel p σ in
  let bad := ((p <=? 0) || fgt p 1)%float in
  (bad = true -> run = Raise ValueError σ) /\
  (bad = false -> forall σ', run <> Raise ValueError σ') /\
  ((p =? 1)%float = true -> (0 < fuel)%nat ->
   run = Ret 1 (snd (run_next_double np σ))).
Proof.
  intros run bad. subst run. unfold geometric_impl. fold bad.
  split; [|split].
  - intros ->. reflexivity.
  - intros ->. intros σ'. revert σ σ'.
    change (never_raises ValueError
              (if fge p 0.333333333333333333333333
               then U ← random_impl np;
                    iterate fuel (geometric_sum (1 - p) U) (1, p, p)
               else r ← random_impl np;
                    t ← py_div (_log (1 - r)) (_log (1 - p));
                    mret (fptosi (_ceil t)))).
    destruct (fge p _).
    + apply never_raises_bind; [apply never_raises_random|]. intros U.
      apply never_raises_iterate. intros st.
      apply never_raises_geometric_sum.
    + no_raise.
  - intros Hp Hf. apply eqb_one in Hp. subst p bad.
    change ((1 <=? 0) || fgt 1 1)%float with false.
    change (fge 1 0.333333333333333333333333) with true.
    cbv iota. msimpl. rewrite random_impl_eq.
    destruct (run_next_double_unit np σ) as [_ Hlt].
    destruct fuel as [|fuel]; [lia|].
    rewrite iterate_S. unfold geometric_sum, fgt.
    destruct (ltb_asym _ _ Hlt) as (-> & _). reflexivity.
Qed.

(** X10: [np.random.logseries(p)] raises [ValueError], with nothing drawn,
    when [p <= 0.0] or [p > 1.0]; otherwise its [while 1] body leaves on
    every path, so the call takes one round: it returns [1] after one
    draw [V >= p], and after a second draw it returns or fails in the
    division by [log(q)]. *)
Theorem logseries_single_round (fuel : nat) (p : float) (σ : store) :
  let run := logseries_impl fuel p σ in
  let bad := ((p <=? 0) || fgt p 1)%float in
  let V := fst (run_next_double np σ) in
  let σ1 := snd (run_next_double np σ) in
  let σ2 := snd (run_next_double np σ1) in
  (bad = true -> run = Raise ValueError σ) /\
  (bad = false -> (0 < fuel)%nat -> fge V p = true -> run = Ret 1 σ1) /\
  (bad = false -> (0 < fuel)%nat -> fge V p = false ->
   (exists v, run = Ret v σ2) \/ run = Raise ZeroDivisionError σ2).
Proof.
  intros run bad V σ1 σ2. unfold run, logseries_impl. fold bad.
  split; [|split].
  - intros ->. reflexivity.
  - intros -> Hf HV. destruct fuel as [|fuel]; [lia|].
    rewrite iterate_S. unfold logseries_draw. msimpl.
    rewrite random_impl_eq. fold V σ1. rewrite HV. reflexivity.
  - intros -> Hf HV. destruct fuel as [|fuel]; [lia|].
    rewrite iterate_S. unfold logseries_draw. msimpl.
    rewrite random_impl_eq. fold V σ1. rewrite HV. clear HV.
    rewrite random_impl_eq. fold σ2.
    destruct (V <=? _)%float.
    + unfold py_div. destruct (_ =? 0)%float; msimpl;
        [right; reflexivity|left; eexists; reflexivity].
    + destruct (fge V _); left; eexists; reflexivity.
Qed.

Lemma never_raises_poisson_draw e enlam st :
  never_raises e (poisson_draw enlam st).
Proof.
  destruct st as [X prod]. unfold poisson_draw.
  apply never_raises_bind; [apply never_raises_random|]. intros U.
  destruct (_ <=? _)%float; intros σ σ'; discriminate.
Qed.

(** X11: [np.random.poisson(lam)] raises [ValueError], with nothing drawn,
    when [lam < 0.0]: a negative [lam] never reaches the C routine of
    [lam >= 10.0].  For any other [lam], and for the call without
    argument, it raises nothing. *)
Theorem poisson_domain (fuel : nat) (lam : float) (σ : store) :
  ((lam <? 0)%float = true ->
   poisson_impl fuel (Some lam) σ = Raise ValueError σ) /\
  ((lam <? 0)%float = false ->
   forall e σ', poisson_impl fuel (Some lam) σ <> Raise e σ') /\
  (forall e σ', poisson_impl fuel None σ <> Raise e σ').
Proof.
  assert (Hsmall : forall l e σ σ',
            (l <? 0)%float = false -> poisson_small fuel l σ <> Raise e σ').
  { intros l e τ τ' Hl. unfold poisson_small. rewrite Hl.
    destruct (l =? 0)%float; [discriminate|].
    apply never_raises_iterate. intros st. apply never_raises_poisson_draw. }
  split; [|split].
  - intros Hneg. unfold poisson_impl, poisson_small.
    rewrite (negative_not_large _ Hneg), Hneg. reflexivity.
  - intros Hneg e σ'. unfold poisson_impl. destruct (fge lam 10).
    + unfold call_poisson_ptrs.
      destruct (numba_poisson_ptrs _ lam). discriminate.
    + apply Hsmall, Hneg.
  - intros e σ'. unfold poisson_impl. apply Hsmall. reflexivity.
Qed.

(** X12: [np.random.power(a)] raises [ValueError], with nothing drawn,
    when [a <= 0.0]; otherwise it draws one double [U] and returns
    [pow(1 - exp(-x), 1 / a)] for [x = -log(1 - U)]: the check has
    excluded the zero divisor, so the division never fails. *)
Theorem power_domain (a : float) (σ : store) :
  let U := fst (run_next_double np σ) in
  ((a <=? 0)%float = true -> power_impl a σ = Raise ValueError σ) /\
  ((a <=? 0)%float = false ->
   power_impl a σ
   = Ret (_pow (1 - _exp (- - _log (1 - U))) (1 / a))%float
         (snd (run_next_double np σ))).
Proof.
  intros U. unfold power_impl. split; intros H; rewrite H; [reflexivity|].
  assert (Hz : (a =? 0)%float = false).
  { destruct (a =? 0)%float eqn:E; [|reflexivity].
    apply eqb_leb in E. congruence. }
  unfold standard_exponential_impl. msimpl. rewrite random_impl_eq.
  unfold py_div. rewrite Hz. reflexivity.
Qed.

(** The loop of [hypergeometric_impl] counts [K] down to zero. *)
Lemma hypergeometric_loop_ends d1 : forall (n : nat) fuel Y K σ,
  Int.signed 64 K <= Z.of_nat n -> (n < fuel)%nat ->
  iterate fuel (hypergeometric_step d1) (Y, K) σ <> Spin /\
  (forall e σ',
     iterate fuel (hypergeometric_step d1) (Y, K) σ = Raise e σ' ->
     e = ZeroDivisionError).
Proof.
  induction n as [|n IH]; intros fuel Y K σ HK Hf;
    (destruct fuel as [|fuel]; [lia|]);
    rewrite iterate_S; unfold hypergeometric_step, Int.sgt;
    rewrite (signed_small 64 0) by lia;
    (destruct (fgt Y 0); cbn [andb];
     [|split; [discriminate|intros; discriminate]]);
    (destruct (Z.ltb_spec 0 (Int.signed 64 K));
     [|split; [discriminate|intros; discriminate]]).
  - lia.
  - msimpl. rewrite random_impl_eq. unfold py_div.
    destruct (_ =? 0)%float; msimpl.
    + unfold raise. split; [discriminate|intros e σ' [= <- _]; reflexivity].
    + apply IH; [|lia].
      pose proof (signed_small 64 1 ltac:(lia) ltac:(lia)) as E1.
      pose proof (signed_range 64 K ltac:(lia)) as HKr.
      rewrite signed_sub; rewrite ?E1; lia.
Qed.

(** X13: the loop of [np.random.hypergeometric] ends: it goes round at
    most [nsamples] times, drawing one double each time, and the only
    error of the call is the [ZeroDivisionError] of [Y / (d1 + K)]. *)
Theorem hypergeometric_terminates (fuel : nat) (ngood nbad nsamples : Z)
    (σ : store) :
  (Z.to_nat (Int.signed 64 nsamples) < fuel)%nat ->
  hypergeometric_impl fuel ngood nbad nsamples σ <> Spin /\
  (forall e σ', hypergeometric_impl fuel ngood nbad nsamples σ = Raise e σ' ->
                e = ZeroDivisionError).
Proof.
  intros Hf. unfold hypergeometric_impl. cbv zeta. msimpl.
  destruct (hypergeometric_loop_ends
              (Int.sub 64 (Int.add 64 nbad ngood) nsamples)
              (Z.to_nat (Int.signed 64 nsamples)) fuel
              (sitofp (if Int.slt 64 ngood nbad then ngood else nbad))
              nsamples σ ltac:(lia) Hf) as [Hspin Herr].
  destruct (iterate fuel _ _ σ) as [Y σ1|e1 σ1|]; [| |contradiction].
  - split; [destruct (Int.sgt 64 ngood nbad); discriminate|].
    intros e σ'. destruct (Int.sgt 64 ngood nbad); discriminate.
  - split; [discriminate|]. intros e σ' [= <- _]. apply (Herr e1 σ1 eq_refl).
Qed.

(** X14: [np.random.chisquare(df)] raises [ValueError] exactly when
    [df / 2.0 <= 0.0], the check of the gamma sampler it calls, and then
    nothing has been drawn. *)
Theorem chisquare_domain (fuel : nat) (df : float) (σ : store) :
  let run := chisquare_impl fuel df σ in
  ((exists σ', run = Raise ValueError σ') <-> (df / 2 <=? 0)%float = true) /\
  (forall σ', run = Raise ValueError σ' -> σ' = σ).
Proof.
  intros run. unfold run, chisquare_impl, py_div.
  change (2 =? 0)%float with false. cbv iota. msimpl.
  unfold np_gammavariate_impl.
  destruct (df / 2 <=? 0)%float eqn:Ht.
  - unfold _gammavariate_impl. rewrite Ht. cbn [orb]. unfold raise. split.
    + split; eauto.
    + intros σ' [= <-]. reflexivity.
  - pose proof (gamma_no_value_error fuel (random_impl np) (df / 2) 1
                  (never_raises_random ValueError np)) as Hg.
    rewrite Ht in Hg. specialize (Hg eq_refl).
    destruct (_gammavariate_impl fuel (random_impl np) (df / 2) 1 σ)
      as [g σ1|e1 σ1|] eqn:E.
    + split; [split; [intros (σ' & H)|]; discriminate|discriminate].
    + assert (e1 <> ValueError) by (intros ->; exact (Hg _ _ E)).
      split; [split; [intros (σ' & [= -> _]); contradiction|discriminate]|].
      intros σ' [= -> _]. contradiction.
    + split; [split; [intros (σ' & H)|]; discriminate|discriminate].
Qed.

(** X15: [random.betavariate(alpha, beta)] checks its arguments through
    the gamma sampler only.  [alpha <= 0.0] raises [ValueError] with
    nothing drawn; [beta] is looked at after the draw [y] of
    [gammavariate(alpha, 1.0)]: when [beta <= 0.0], the call returns [0.0]
    if [y == 0.0] and raises [ValueError], with the draws of [y] spent,
    otherwise. *)
Theorem betavariate_checks (fuel : nat) (alpha beta : float) (σ : store) :
  let run := betavariate_impl fuel alpha beta σ in
  ((alpha <=? 0)%float = true -> run = Raise ValueError σ) /\
  ((beta <=? 0)%float = true ->
   forall y σ1,
     gammavariate_impl fuel alpha 1 σ = Ret y σ1 ->
     ((y =? 0)%float = true -> run = Ret 0%float σ1) /\
     ((y =? 0)%float = false -> run = Raise ValueError σ1)).
Proof.
  intros run. unfold run, betavariate_impl, _betavariate_impl. msimpl. split.
  - intros Ha. unfold gammavariate_impl, _gammavariate_impl. rewrite Ha.
    reflexivity.
  - intros Hb y σ1 ->. split; intros ->; [reflexivity|].
    unfold gammavariate_impl, _gammavariate_impl. rewrite Hb.
    reflexivity.
Qed.

(** X16: [random.shuffle] of an array of length zero or one returns the
    array as it is and draws nothing. *)
Theorem shuffle_short {A} (fuel : nat) (arr : list A) (σ : store) :
  (length arr <= 1)%nat -> (0 < fuel)%nat ->
  shuffle_impl fuel arr σ = Ret arr σ.
Proof.
  intros Hl Hf. destruct fuel as [|fuel]; [lia|].
  unfold shuffle_impl. rewrite iterate_S. unfold shuffle_step.
  destruct arr as [|x [|y l]]; cbn [length] in *; [| |lia].
  - change (Int.sgt 64 (Int.sub 64 (Z.of_nat 0) 1) 0) with false.
    reflexivity.
  - change (Int.sgt 64 (Int.sub 64 (Z.of_nat 1) 1) 0) with false.
    reflexivity.
Qed.

(* ------------------------------------------------------------------ *)
(** ** The complement [1.0 - random()] *)

(** [1.0 - n * 2^-53] is computed exactly. *)
Lemma SFsub_one_frac n :
  Zpos n < 2 ^ 53 ->
  SFsub prec emax (Prim2SF 1%float) (SFfrac53 (Zpos n))
  = SFfrac53 (2 ^ 53 - Zpos n).
Proof.
  intros Hn.
  change (Prim2SF 1) with (S754_finite false (shl_pos 1 52) (-52)).
  pose proof (digits_lt n 53 ltac:(lia) Hn) as Hd.
  pose proof (digits_pos n) as Hd1.
  destruct (2 ^ 53 - Zpos n) as [|m|m] eqn:Em; try lia.
  assert (Hm : Zpos m < 2 ^ 53) by lia.
  pose proof (digits_lt m 53 ltac:(lia) Hm) as Hdm.
  pose proof (digits_pos m) as Hdm1.
  unfold SFfrac53, SFnorm, SFsub.
  set (ez := Z.min (-52) (-53 + pdigits n - 53)).
  assert (Eez : ez = pdigits n - 106) by (unfold ez; lia).
  rewrite !shl_align_fst by lia.
  unfold cond_Zopp.
  assert (Ed : Zpos (shl_pos 1 (52 + (-52 - ez)))
               - Zpos (shl_pos n (53 - pdigits n
                                  + (-53 + pdigits n - 53 - ez)))
               = Zpos (shl_pos m (53 - pdigits n))).
  { rewrite !shl_pos_val by lia.
    replace (52 + (-52 - ez)) with (53 + (53 - pdigits n)) by lia.
    replace (53 - pdigits n + (-53 + pdigits n - 53 - ez))
      with (53 - pdigits n) by lia.
    rewrite Z.pow_add_r by lia. rewrite <- Em. ring. }
  rewrite Ed. unfold binary_normalize.
  replace ez with (-53 - (53 - pdigits n)) by lia.
  apply binary_round_exact; lia.
Qed.

(** The complement of a draw is in [(0, 1]]: it is [1.0] or an exact
    [c * 2^-53] with [0 < c < 2^53]. *)
Lemma complement_of_draw name σ :
  let u := (1 - fst (run_next_double name σ))%float in
  (0 <? u)%float = true /\ (u <=? 1)%float = true /\
  (u =? 0)%float = false.
Proof.
  intros u. destruct (run_next_double_frac name σ) as (c & Hc & E).
  assert (Hu : Prim2SF u = Prim2SF 1
               \/ exists c', 0 < c' < 2 ^ 53 /\ Prim2SF u = SFfrac53 c').
  { unfold u. rewrite FloatAxioms.sub_spec, E.
    destruct c as [|n|n]; try lia.
    - left. reflexivity.
    - right. exists (2 ^ 53 - Zpos n). split; [lia|].
      apply SFsub_one_frac. lia. }
  assert (Hpos : (0 <? u)%float = true).
  { rewrite FloatAxioms.ltb_spec.
    destruct Hu as [->|(c' & Hc' & ->)]; [reflexivity|].
    destruct c' as [|n|n]; try lia. reflexivity. }
  split; [exact Hpos|]. split.
  - rewrite FloatAxioms.leb_spec.
    destruct Hu as [->|(c' & Hc' & ->)]; [reflexivity|].
    pose proof (SFfrac53_lt_one c' ltac:(lia)) as Hlt.
    unfold SFltb in Hlt. unfold SFleb.
    destruct (SFcompare _ _) as [[]|]; try discriminate Hlt; reflexivity.
  - apply (ltb_asym _ _ Hpos).
Qed.

(** X17: [random.expovariate] takes the logarithm of [1.0 - random()],
    which is never zero: the complement of a draw lies in [(0, 1]].  The
    call draws one double; it raises [ZeroDivisionError] when [lambd] is
    zero and returns [-log(1.0 - U) / lambd] otherwise. *)
Theorem expovariate_log_argument (lambd : float) (σ : store) :
  let U := fst (run_next_double py σ) in
  let σ1 := snd (run_next_double py σ) in
  let u := (1 - U)%float in
  (0 <? u)%float = true /\ (u <=? 1)%float = true /\
  ((lambd =? 0)%float = true ->
   expovariate_impl lambd σ = Raise ZeroDivisionError σ1) /\
  ((lambd =? 0)%float = false ->
   expovariate_impl lambd σ = Ret (- _log u / lambd)%float σ1).
Proof.
  intros U σ1 u.
  destruct (complement_of_draw py σ) as (Hpos & Hle & _).
  split; [exact Hpos|]. split; [exact Hle|].
  unfold expovariate_impl. msimpl. rewrite random_impl_eq. fold U σ1.
  unfold py_div. split; intros ->; reflexivity.
Qed.

(** X18: [np.random.logistic] always returns: the divisor [1.0 - U] of
    [U / (1.0 - U)] is never zero, since the draw [U] is below [1.0] and
    the subtraction is exact. *)
Theorem logistic_always_returns (loc scale : float) (σ : store) :
  let U := fst (run_next_double np σ) in
  logistic_impl loc scale σ
  = Ret (loc + scale * _log (U / (1 - U)))%float
        (snd (run_next_double np σ)).
Proof.
  intros U. destruct (complement_of_draw np σ) as (_ & _ & Hz).
  unfold logistic_impl. msimpl. rewrite random_impl_eq. fold U.
  unfold py_div. fold U in Hz. rewrite Hz. reflexivity.
Qed.

(* ------------------------------------------------------------------ *)
(** ** One reshuffle serves [N] words *)

Lemma next_int32_fresh (s : rnd_state) :
  N <= Int.wrap 32 (st_index s) ->
  next_int32 s
  = (temper (Int.wrap 32 (nth 0 (st_words (numba_rnd_shuffle s)) 0)),
     store_index 1 (numba_rnd_shuffle s)).
Proof.
  intros Hge. unfold next_int32, Int.uge.
  destruct (Z.leb_spec N (Int.wrap 32 (st_index s))); [reflexivity|lia].
Qed.

Lemma next_int32_served (t : rnd_state) (k : Z) :
  0 <= k < N ->
  next_int32 (store_index k t)
  = (temper (Int.wrap 32 (nth (Z.to_nat k) (st_words t) 0)),
     store_index (k + 1) t).
Proof.
  intros Hk. unfold N in Hk. unfold next_int32, Int.uge.
  cbn [store_index st_index].
  assert (E : Int.wrap 32 k = k) by (unfold Int.wrap; apply Z.mod_small; lia).
  rewrite E. unfold N.
  destruct (Z.leb_spec 624 k); [lia|].
  cbn [store_index st_index st_words]. rewrite E.
  assert (E1 : Int.add 32 k 1 = k + 1)
    by (unfold Int.add, Int.wrap; apply Z.mod_small; lia).
  rewrite E1. reflexivity.
Qed.

Lemma run_next_int_32 name σ :
  run_next_int name 32 σ
  = (fst (next_int32 (get_state_ptr name σ)),
     set_state name (snd (next_int32 (get_state_ptr name σ))) σ).
Proof.
  unfold run_next_int, get_next_int. change (Int.ule 32 32) with true.
  msimpl. rewrite get_shifted_int_eq.
  unfold Int.zext, Int.lshr. change (Int.sub 32 32 32) with 0.
  rewrite Z.shiftr_0_r. reflexivity.
Qed.

Lemma nth_next_int_served name (t : rnd_state) : forall (k : nat) (j : Z) σ,
  0 <= j -> j + Z.of_nat k < N ->
  get_state_ptr name σ = store_index j t ->
  nth_next_int name 32 k σ
  = (temper (Int.wrap 32 (nth (Z.to_nat j + k) (st_words t) 0)),
     set_state name (store_index (j + Z.of_nat k + 1) t) σ).
Proof.
  induction k as [|k IH]; intros j σ Hj Hk Hs; cbn [nth_next_int];
    rewrite run_next_int_32, Hs, next_int32_served by (unfold N in *; lia).
  - cbn [fst snd]. rewrite Nat.add_0_r.
    replace (j + Z.of_nat 0 + 1) with (j + 1) by lia. reflexivity.
  - cbn [snd].
    rewrite (IH (j + 1)); [|lia|lia|apply get_set_same].
    rewrite set_set.
    replace (Z.to_nat (j + 1) + k)%nat with (Z.to_nat j + S k)%nat by lia.
    replace (j + 1 + Z.of_nat k + 1) with (j + Z.of_nat (S k) + 1) by lia.
    reflexivity.
Qed.

(** X19: one reshuffle serves [N = 624] words.  From a state whose index
    has reached [N], the [k]-th of the next 624 calls of
    [get_next_int(state, 32)], [k = 0 .. 623], returns the tempered word
    [k] of the one reshuffled state and leaves that state with index
    [k + 1]: the reshuffle runs on the first of these calls only. *)
Theorem reshuffle_serves_N_words (name : stream) (σ : store) (k : nat) :
  N <= Int.wrap 32 (st_index (get_state_ptr name σ)) -> (k < 624)%nat ->
  let t := numba_rnd_shuffle (get_state_ptr name σ) in
  nth_next_int name 32 k σ
  = (temper (Int.wrap 32 (nth k (st_words t) 0)),
     set_state name (store_index (Z.of_nat k + 1) t) σ).
Proof.
  intros Hge Hk t. destruct k as [|k]; cbn [nth_next_int];
    rewrite run_next_int_32, next_int32_fresh by exact Hge.
  - reflexivity.
  - cbn [snd].
    rewrite (nth_next_int_served name t k 1);
      [|lia|unfold N; lia|apply get_set_same].
    rewrite set_set.
    replace (1 + Z.of_nat k + 1) with (Z.of_nat (S k) + 1) by lia.
    reflexivity.
Qed.

(* ------------------------------------------------------------------ *)
(** ** The gamma sampler for [alpha <= 1.0] *)

Lemma never_raises_py_div_nonzero e x y :
  (y =? 0)%float = false -> never_raises e (py_div x y).
Proof. intros Hy σ σ'. unfold py_div. rewrite Hy. discriminate. Qed.

(** X20: [gammavariate(alpha, beta)] with [0 < alpha <= 1.0] and
    [beta > 0] raises nothing: its divisors are [alpha], excluded from
    zero by the check on entry, and the constant [e]. *)
Theorem gamma_small_alpha_never_raises (e : error) (fuel : nat)
    (name : stream) (alpha beta : float) :
  ((alpha <=? 0) || (beta <=? 0))%float = false ->
  fgt alpha 1 = false ->
  never_raises e (_gammavariate_impl fuel (random_impl name) alpha beta).
Proof.
  intros Hg Hgt. unfold _gammavariate_impl. rewrite Hg, Hgt.
  assert (Ha : (alpha =? 0)%float = false).
  { destruct (alpha =? 0)%float eqn:E; [|reflexivity].
    apply eqb_leb in E. rewrite E in Hg. discriminate Hg. }
  pose proof (fun x => never_raises_py_div_nonzero e x alpha Ha) as Hdiv.
  pose proof (fun x => never_raises_py_div_nonzero e x _e eq_refl) as Hdive.
  clear Hg Hgt.
  destruct (alpha =? 1)%float.
  - apply never_raises_bind; [apply never_raises_random|]. intros u.
    apply never_raises_bind; [|intros u' σ σ'; discriminate].
    apply never_raises_iterate. intros v. unfold gamma_expo_draw.
    destruct (v <=? _)%float; [|intros σ σ'; discriminate].
    apply never_raises_bind; [apply never_raises_random|].
    intros u' σ σ'. discriminate.
  - apply never_raises_bind; [|intros x σ σ'; discriminate].
    apply never_raises_iterate. intros []. unfold gamma_gs_draw.
    apply never_raises_bind; [apply never_raises_random|]. intros u.
    apply never_raises_bind; [apply Hdive|]. intros b.
    apply never_raises_bind.
    { destruct (_ <=? _)%float;
        (apply never_raises_bind; [apply Hdiv|intros t σ σ'; discriminate]). }
    intros x.
    apply never_raises_bind; [apply never_raises_random|]. intros u1.
    destruct (fgt _ _); [destruct (_ <=? _)%float|destruct (_ <=? _)%float];
      intros σ σ'; discriminate.
Qed.

(* ------------------------------------------------------------------ *)
(** ** The difference of two doubles that are not equal *)

Lemma shr_1_m mrs : 0 <= shr_m mrs -> shr_m (shr_1 mrs) = Z.div2 (shr_m mrs).
Proof.
  destruct mrs as [m r s]. cbn [shr_m]. intros Hm.
  destruct m as [|[p|p|]|p]; try lia; reflexivity.
Qed.

Lemma iter_shr_1_m (p : positive) : forall mrs,
  0 <= shr_m mrs ->
  shr_m (SpecFloat.iter_pos shr_1 p mrs) = shr_m mrs / 2 ^ Zpos p.
Proof.
  intros mrs Hm. rewrite iter_pos_eq. revert mrs Hm.
  induction p as [|p IH] using Pos.peano_ind; intros mrs Hm.
  - cbn [Pos.iter]. rewrite shr_1_m by exact Hm. rewrite Z.div2_div.
    reflexivity.
  - rewrite Pos.iter_succ, shr_1_m.
    + rewrite IH by exact Hm. rewrite Z.div2_div, Z.div_div by lia.
      rewrite Pos2Z.inj_succ, Z.pow_succ_r by lia. f_equal. lia.
    + rewrite IH by exact Hm. apply Z.div_pos; lia.
Qed.

Lemma shr_record_of_loc_m m l : shr_m (shr_record_of_loc m l) = m.
Proof. destruct l as [|[]]; reflexivity. Qed.

Lemma shr_fexp_pos (m : positive) e l :
  -1074 <= e ->
  0 < shr_m (fst (shr_fexp prec emax (Zpos m) e l)) /\
  -1074 <= snd (shr_fexp prec emax (Zpos m) e l).
Proof.
  intros He. unfold shr_fexp, shr, fexp, SpecFloat.emin, prec, emax, Zdigits2.
  fold (pdigits m). pose proof (digits_pos m) as Hd.
  destruct (IntDef.Z.max (pdigits m + e - 53) (3 - 1024 - 53) - e)
    as [|n|n] eqn:En;
    cbn [fst snd]; rewrite ?shr_record_of_loc_m; try lia.
  rewrite iter_shr_1_m by (rewrite shr_record_of_loc_m; lia).
  rewrite shr_record_of_loc_m. split; [|lia].
  assert (Hn : Zpos n <= pdigits m - 1) by lia.
  rewrite digits_log2 in Hn.
  assert (2 ^ Zpos n <= Zpos m).
  { etransitivity; [apply Z.pow_le_mono_r; [lia|exact Hn]|].
    replace (Z.log2 (Zpos m) + 1 - 1) with (Z.log2 (Zpos m)) by lia.
    apply Z.log2_spec. lia. }
  apply Z.div_str_pos. lia.
Qed.

Lemma round_nearest_even_ge m l : m <= round_nearest_even m l.
Proof. destruct l as [|[]]; cbn; try lia. destruct (Z.even m); lia. Qed.

Lemma binary_round_aux_nonzero s (m : positive) e l :
  -1074 <= e -> SFnonzero (binary_round_aux prec emax s (Zpos m) e l) = true.
Proof.
  intros He. unfold binary_round_aux.
  destruct (shr_fexp_pos m e l He) as [H1 H2].
  destruct (shr_fexp prec emax (Zpos m) e l) as [mrs' e']. cbn [fst snd] in *.
  pose proof (round_nearest_even_ge (shr_m mrs') (loc_of_shr_record mrs'))
    as Hr.
  destruct (round_nearest_even (shr_m mrs') (loc_of_shr_record mrs'))
    as [|m1|m1];
    try lia.
  destruct (shr_fexp_pos m1 e' loc_Exact H2) as [H3 H4].
  destruct (shr_fexp prec emax (Zpos m1) e' loc_Exact) as [mrs'' e''].
  cbn [fst snd] in *.
  destruct (shr_m mrs'') as [|m2|m2]; try lia.
  destruct (e'' <=? emax - prec); reflexivity.
Qed.

Lemma binary_round_nonzero s (m : positive) e :
  -1074 <= e -> SFnonzero (binary_round prec emax s m e) = true.
Proof.
  intros He. unfold binary_round, shl_align.
  destruct (fexp prec emax (Zpos (digits2_pos m) + e) - e) as [|d|d] eqn:Ed;
    apply binary_round_aux_nonzero; try lia.
  unfold fexp, SpecFloat.emin, prec, emax in *. lia.
Qed.

(** A valid finite double: [e >= -1074], at most 53 digits, and exactly 53
    above the least exponent. *)
Lemma bounded_digits m e :
  bounded prec emax m e = true ->
  -1074 <= e /\ pdigits m <= 53 /\ (-1074 < e -> pdigits m = 53).
Proof.
  unfold bounded, canonical_mantissa, fexp, SpecFloat.emin, prec, emax.
  fold (pdigits m). intros H. apply andb_true_iff in H as [H _].
  apply Z.eqb_eq in H. lia.
Qed.

Lemma pdigits_bounds m : 2 ^ (pdigits m - 1) <= Zpos m < 2 ^ pdigits m.
Proof.
  rewrite digits_log2.
  replace (Z.log2 (Zpos m) + 1 - 1) with (Z.log2 (Zpos m)) by lia.
  replace (Z.log2 (Zpos m) + 1) with (Z.succ (Z.log2 (Zpos m))) by lia.
  apply Z.log2_spec. lia.
Qed.

Lemma shl_align_val m e ez :
  ez <= e -> Zpos (fst (shl_align m e ez)) = Zpos m * 2 ^ (e - ez).
Proof.
  intros He. unfold shl_align.
  destruct (ez - e) as [|d|d] eqn:Ed; try lia; cbn [fst].
  - replace (e - ez) with 0 by lia. lia.
  - change (Pos.iter xO m d) with (shl_pos m (Zpos d)).
    rewrite shl_pos_val by lia. f_equal. f_equal. lia.
Qed.

(** Two valid finite doubles that are not equal have different values at
    their common exponent. *)
Lemma aligned_differ sx mx ex sy my ey :
  bounded prec emax mx ex = true -> bounded prec emax my ey = true ->
  SFeqb (S754_finite sx mx ex) (S754_finite sy my ey) = false ->
  let ez := Z.min ex ey in
  cond_Zopp sx (Zpos (fst (shl_align mx ex ez)))
  - cond_Zopp sy (Zpos (fst (shl_align my ey ez))) <> 0.
Proof.
  intros Hx Hy Hne ez.
  destruct (bounded_digits _ _ Hx) as (Hex & Hdx & Hnx).
  destruct (bounded_digits _ _ Hy) as (Hey & Hdy & Hny).
  pose proof (pdigits_bounds mx) as Bx. pose proof (pdigits_bounds my) as By.
  rewrite !shl_align_val by (unfold ez; lia).
  assert (Px : 0 < Zpos mx * 2 ^ (ex - ez))
    by (apply Z.mul_pos_pos;
        [lia|apply Z.pow_pos_nonneg; unfold ez; lia]).
  assert (Py : 0 < Zpos my * 2 ^ (ey - ez))
    by (apply Z.mul_pos_pos;
        [lia|apply Z.pow_pos_nonneg; unfold ez; lia]).
  unfold SFeqb, SFcompare in Hne.
  assert (Hmag : sx = sy -> Zpos mx * 2 ^ (ex - ez) <> Zpos my * 2 ^ (ey - ez)).
  { intros ->.
    assert (Hc : match ex ?= ey with
                 | Eq => Pos.compare_cont Eq mx my <> Eq
                 | _ => True
                 end).
    { destruct sy; destruct (ex ?= ey); try exact I;
        destruct (Pos.compare_cont Eq mx my); try discriminate Hne;
        discriminate. }
    destruct (Z.compare_spec ex ey) as [E|Hlt|Hgt].
    - subst ey. unfold ez. rewrite Z.min_id, Z.sub_diag, !Z.mul_1_r.
      intros [= E]. apply Hc. rewrite E. apply Pos.compare_cont_refl.
    - assert (Ez : ez = ex) by (unfold ez; lia).
      rewrite Ez, Z.sub_diag, Z.mul_1_r.
      specialize (Hny ltac:(lia)). rewrite Hny in By.
      assert (2 <= 2 ^ (ey - ex))
        by (change 2 with (2 ^ 1) at 1; apply Z.pow_le_mono_r; lia).
      assert (2 ^ pdigits mx <= 2 ^ 53) by (apply Z.pow_le_mono_r; lia).
      change (2 ^ (53 - 1)) with 4503599627370496 in By.
      change (2 ^ 53) with 9007199254740992 in *. nia.
    - assert (Ez : ez = ey) by (unfold ez; lia).
      rewrite Ez, Z.sub_diag, Z.mul_1_r.
      specialize (Hnx ltac:(lia)). rewrite Hnx in Bx.
      assert (2 <= 2 ^ (ex - ey))
        by (change 2 with (2 ^ 1) at 1; apply Z.pow_le_mono_r; lia).
      assert (2 ^ pdigits my <= 2 ^ 53) by (apply Z.pow_le_mono_r; lia).
      change (2 ^ (53 - 1)) with 4503599627370496 in Bx.
      change (2 ^ 53) with 9007199254740992 in *. nia. }
  destruct sx, sy; unfold cond_Zopp; try lia;
    specialize (Hmag eq_refl); lia.
Qed.

(** Two doubles that are not equal have a difference that is not zero. *)
Lemma sub_nonzero (x y : float) :
  (x =? y)%float = false -> (x - y =? 0)%float = false.
Proof.
  intros Hne.
  rewrite FloatAxioms.eqb_spec in *. rewrite FloatAxioms.sub_spec.
  change (Prim2SF 0) with (S754_zero false).
  pose proof (FloatAxioms.Prim2SF_valid x) as Vx.
  pose proof (FloatAxioms.Prim2SF_valid y) as Vy.
  destruct (Prim2SF x) as [sx|sx| |sx mx ex], (Prim2SF y) as [sy|sy| |sy my ey];
    try reflexivity;
    try (destruct sx, sy; try discriminate Hne; reflexivity);
    try (destruct sx; reflexivity); try (destruct sy; reflexivity).
  cbn [valid_binary] in Vx, Vy. unfold SF64sub, SFsub.
  pose proof (aligned_differ sx mx ex sy my ey Vx Vy Hne) as Hd. cbv zeta in Hd.
  destruct (bounded_digits _ _ Vx) as (Hex & _).
  destruct (bounded_digits _ _ Vy) as (Hey & _).
  set (ez := Z.min ex ey) in *.
  destruct (cond_Zopp sx (Zpos (fst (shl_align mx ex ez)))
            - cond_Zopp sy (Zpos (fst (shl_align my ey ez)))) as [|z|z];
    [contradiction| |]; unfold binary_normalize.
  - pose proof (binary_round_nonzero false z ez ltac:(unfold ez; lia)) as Hnz.
    destruct (binary_round prec emax false z ez) as [s|s| |s m e];
      try discriminate Hnz; destruct s; reflexivity.
  - pose proof (binary_round_nonzero true z ez ltac:(unfold ez; lia)) as Hnz.
    destruct (binary_round prec emax true z ez) as [s|s| |s m e];
      try discriminate Hnz; destruct s; reflexivity.
Qed.

(** X21: [random.triangular] and [np.random.triangular] raise nothing.
    The three-argument form divides by [high - low] only after the test
    [high == low] has failed, and the difference of two doubles that are
    not equal is never zero; the two-argument form does not divide. *)
Theorem triangular_never_raises (e : error) (low high mode : float)
    (state : stream) :
  never_raises e (_triangular_impl_3 low high mode state) /\
  never_raises e (triangular_impl_2 low high).
Proof.
  split.
  - unfold _triangular_impl_3.
    apply never_raises_bind; [apply never_raises_double|]. intros r.
    destruct (high =? low)%float eqn:E; [intros σ σ'; discriminate|].
    apply never_raises_bind;
      [apply never_raises_py_div_nonzero, sub_nonzero, E|].
    intros c. destruct (fgt r c); intros σ σ'; discriminate.
  - unfold triangular_impl_2.
    apply never_raises_bind; [apply never_raises_double|]. intros r.
    destruct (fgt r 0.5); intros σ σ'; discriminate.
Qed.

(* ------------------------------------------------------------------ *)
(** ** The hypergeometric sampler on valid arguments *)

Lemma signed_add w x y :
  1 <= w ->
  - 2 ^ (w - 1) <= Int.signed w x + Int.signed w y < 2 ^ (w - 1) ->
  Int.signed w (Int.add w x y) = Int.signed w x + Int.signed w y.
Proof.
  intros Hw Hr. unfold Int.add.
  destruct (wrap_repr w (x + y) ltac:(lia)) as (k & ->).
  destruct (signed_repr w x ltac:(lia)) as (kx & Ex).
  destruct (signed_repr w y ltac:(lia)) as (ky & Ey).
  apply (signed_unique w _ _ (k - kx - ky) Hw Hr).
  rewrite Ex, Ey. ring.
Qed.

(** The double of a positive 64-bit integer is not zero. *)
Lemma sitofp_nonzero x :
  0 < Int.signed 64 x -> (sitofp x =? 0)%float = false.
Proof.
  intros Hx. pose proof (signed_range 64 x ltac:(lia)) as Hr.
  unfold sitofp. destruct (Z.ltb_spec (Int.signed 64 x) 0); [lia|].
  rewrite FloatAxioms.eqb_spec, FloatAxioms.of_uint63_spec.
  change (Prim2SF 0) with (S754_zero false).
  rewrite Uint63.of_Z_spec.
  change (2 ^ (64 - 1)) with 9223372036854775808 in Hr.
  rewrite Z.mod_small by (change wB with 9223372036854775808; lia).
  destruct (Int.signed 64 x) as [|p|p]; try lia.
  unfold binary_normalize.
  pose proof (binary_round_nonzero false p 0 ltac:(lia)) as Hnz.
  destruct (binary_round prec emax false p 0) as [s|s| |s m e];
    try discriminate Hnz; destruct s; reflexivity.
Qed.

Lemma hypergeometric_loop_returns d1 : forall (n : nat) fuel Y K σ,
  0 <= Int.signed 64 d1 -> Int.signed 64 d1 + Z.of_nat n < 2 ^ 63 ->
  Int.signed 64 K <= Z.of_nat n -> (n < fuel)%nat ->
  exists Y' σ', iterate fuel (hypergeometric_step d1) (Y, K) σ = Ret Y' σ'.
Proof.
  induction n as [|n IH]; intros fuel Y K σ Hd Hn HK Hf;
    (destruct fuel as [|fuel]; [lia|]);
    rewrite iterate_S; unfold hypergeometric_step, Int.sgt;
    rewrite (signed_small 64 0) by lia;
    (destruct (fgt Y 0); cbn [andb]; [|eexists _, _; reflexivity]);
    (destruct (Z.ltb_spec 0 (Int.signed 64 K));
     [|eexists _, _; reflexivity]).
  - lia.
  - msimpl. rewrite random_impl_eq. unfold py_div.
    pose proof (signed_range 64 K ltac:(lia)) as HKr.
    change (2 ^ (64 - 1)) with (2 ^ 63) in HKr.
    rewrite sitofp_nonzero
      by (rewrite signed_add; change (2 ^ (64 - 1)) with (2 ^ 63); lia).
    msimpl. apply IH; [exact Hd|lia| |lia].
    pose proof (signed_small 64 1 ltac:(lia) ltac:(lia)) as E1.
    rewrite signed_sub; rewrite ?E1; change (2 ^ (64 - 1)) with (2 ^ 63); lia.
Qed.

(** X22: [np.random.hypergeometric(ngood, nbad, nsamples)] with
    [0 <= nsamples <= ngood + nbad] and [ngood + nbad] within the 64-bit
    range always returns: the divisor [d1 + K] stays positive while the
    loop counts [K] down from [nsamples], so no division fails, and the
    loop ends after at most [nsamples] rounds. *)
Theorem hypergeometric_returns (fuel : nat) (ngood nbad nsamples : Z)
    (σ : store) :
  let g := Int.signed 64 ngood in
  let b := Int.signed 64 nbad in
  let n := Int.signed 64 nsamples in
  0 <= n <= g + b -> g + b < 2 ^ 63 -> (Z.to_nat n < fuel)%nat ->
  exists v σ', hypergeometric_impl fuel ngood nbad nsamples σ = Ret v σ'.
Proof.
  intros g b n Hn Hgb Hf. unfold hypergeometric_impl. cbv zeta. msimpl.
  assert (Ed : Int.signed 64 (Int.sub 64 (Int.add 64 nbad ngood) nsamples)
               = g + b - n).
  { unfold Int.sub, Int.add.
    destruct (wrap_repr 64 (nbad + ngood) ltac:(lia)) as (k1 & ->).
    destruct (wrap_repr 64 (nbad + ngood + k1 * 2 ^ 64 - nsamples)
                ltac:(lia)) as (k2 & ->).
    destruct (signed_repr 64 ngood ltac:(lia)) as (kg & Eg).
    destruct (signed_repr 64 nbad ltac:(lia)) as (kb & Eb).
    destruct (signed_repr 64 nsamples ltac:(lia)) as (kn & En).
    apply (signed_unique 64 _ (g + b - n) (k1 + k2 - kg - kb + kn)
             ltac:(lia)).
    - change (2 ^ (64 - 1)) with (2 ^ 63). lia.
    - unfold g, b, n. rewrite Eg, Eb, En. ring. }
  destruct (hypergeometric_loop_returns
              (Int.sub 64 (Int.add 64 nbad ngood) nsamples)
              (Z.to_nat n) fuel
              (sitofp (if Int.slt 64 ngood nbad then ngood else nbad))
              nsamples σ) as (Y & σ1 & ->);
    [rewrite Ed; lia|rewrite Ed; lia|fold n; lia|exact Hf|].
  destruct (Int.sgt 64 ngood nbad); eexists _, _; reflexivity.
Qed.

End Samplers.

(* ------------------------------------------------------------------ *)
(** ** Concrete runs *)

Module Run.

(** A reshuffle that leaves the words as they are: the runs below stop
    before the index reaches [N]. *)
Definition keep_words (s : rnd_state) : rnd_state := s.

(** A large-lambda Poisson routine that returns [0] and draws nothing. *)
Definition no_poisson (s : rnd_state) (lam : float) : Z * rnd_state := (0, s).

(** Stand-ins for the functions of the C library; [below_one] is negative
    on [(0, 1)], as a logarithm is. *)
Definition same (x : float) : float := x.
Definition below_one (x : float) : float := (x - 1)%float.
Definition left_arg (x y : float) : float := x.

(** Words whose tempered values are [0xC0000000], [0], [0xA0000000], [0],
    then zeros. *)
Definition words0 : list Z :=
  3423711798 :: 0 :: 2752555541 :: 0 :: repeat 0 620.

Definition state0 : rnd_state := mk_state 0 words0 0 0%float.

(** Both streams in the same state. *)
Definition σ0 : store := mk_store state0 state0.

(** A reshuffle that clears the words: every word read after it is [0]. *)
Definition clear_words (s : rnd_state) : rnd_state :=
  mk_state 0 [] (st_has_gauss s) (st_gauss s).

(** The next word comes after a reshuffle or from cleared words. *)
Definition settled (s : rnd_state) : Prop :=
  st_words s = [] \/ 624 <= Int.wrap 32 (st_index s).

(** Settled, or at least [j] words away from the start of the array. *)
Definition advanced (j : Z) (σ : store) : Prop :=
  settled (get_state_ptr py σ) \/
  j <= Int.wrap 32 (st_index (get_state_ptr py σ)).

Lemma settled_next s :
  settled s ->
  fst (next_int32 clear_words s) = 0 /\
  st_words (snd (next_int32 clear_words s)) = [].
Proof.
  intros Hs. unfold next_int32, Int.uge, N.
  destruct (Z.leb_spec 624 (Int.wrap 32 (st_index s))) as [Hge|Hlt].
  - cbn [fst snd store_index clear_words st_words st_index].
    split; reflexivity.
  - destruct Hs as [Hw|Hi]; [|lia].
    cbn [fst snd store_index st_words]. rewrite Hw.
    split; [|reflexivity].
    destruct (Z.to_nat (Int.wrap 32 (st_index s))); reflexivity.
Qed.

Lemma advanced_next j s :
  0 <= j ->
  settled s \/ j <= Int.wrap 32 (st_index s) ->
  settled (snd (next_int32 clear_words s)) \/
  j + 1 <= Int.wrap 32 (st_index (snd (next_int32 clear_words s))).
Proof.
  intros Hj [Hs|Hi]; [left; left; apply settled_next, Hs|].
  destruct (Z.le_gt_cases 624 (Int.wrap 32 (st_index s))) as [Hge|Hlt].
  - left. left. apply settled_next. right. exact Hge.
  - right. unfold next_int32, Int.uge, N.
    destruct (Z.leb_spec 624 (Int.wrap 32 (st_index s))); [lia|].
    cbn [snd store_index st_index]. unfold Int.add.
    pose proof (wrap_range 32 (st_index s) ltac:(lia)).
    unfold Int.wrap at 1 2. rewrite Zmod_mod, Z.mod_small; lia.
Qed.

Lemma run_next_int_state nbits σ :
  get_state_ptr py (snd (run_next_int clear_words py nbits σ))
  = (if Int.ule nbits 32
     then snd (next_int32 clear_words (get_state_ptr py σ))
     else snd (next_int32 clear_words
                 (snd (next_int32 clear_words (get_state_ptr py σ))))).
Proof.
  unfold run_next_int, get_next_int. destruct (Int.ule nbits 32).
  - cbv beta iota delta [mbind M_bind mret M_ret].
    rewrite get_shifted_int_eq. reflexivity.
  - cbv beta iota delta [mbind M_bind mret M_ret].
    rewrite get_next_int32_eq. cbv beta iota.
    rewrite get_shifted_int_eq. reflexivity.
Qed.

Lemma advanced_draw j nbits σ :
  0 <= j -> advanced j σ ->
  advanced (j + 1) (snd (run_next_int clear_words py nbits σ)).
Proof.
  intros Hj Ha. unfold advanced. rewrite run_next_int_state.
  destruct (Int.ule nbits 32); [apply advanced_next; assumption|].
  pose proof (advanced_next j _ Hj Ha) as H1.
  destruct (advanced_next (j + 1) _ ltac:(lia) H1) as [H2|H2];
    [left; exact H2|right; lia].
Qed.

Lemma settled_draw nbits σ :
  settled (get_state_ptr py σ) ->
  fst (run_next_int clear_words py nbits σ) = 0.
Proof.
  intros Hs. unfold run_next_int, get_next_int.
  destruct (settled_next _ Hs) as [H0 Hw].
  destruct (Int.ule nbits 32);
    cbv beta iota delta [mbind M_bind mret M_ret].
  - rewrite get_shifted_int_eq. cbn [fst]. rewrite H0.
    unfold Int.zext, Int.lshr. apply Z.shiftr_0_l.
  - rewrite get_next_int32_eq. cbv beta iota.
    rewrite get_shifted_int_eq. cbn [fst]. rewrite get_set_same, H0.
    destruct (settled_next (snd (next_int32 clear_words (get_state_ptr py σ)))
                ltac:(left; exact Hw)) as [H1 _].
    rewrite H1. unfold Int.zext, Int.lshr. rewrite Z.shiftr_0_l. reflexivity.
Qed.

Lemma advanced_nth nbits : forall k j σ,
  0 <= j -> advanced j σ -> 624 <= j + Z.of_nat k ->
  fst (nth_next_int clear_words py nbits k σ) = 0.
Proof.
  induction k as [|k IH]; intros j σ Hj Ha Hk; cbn [nth_next_int].
  - apply settled_draw. destruct Ha as [Hs|Hi]; [exact Hs|right; lia].
  - apply (IH (j + 1)); [lia|apply advanced_draw; assumption|lia].
Qed.

(** With words cleared at the reshuffle, every [randrange] call meets an
    accepted value within 625 rounds, whatever the state. *)
Lemma clear_words_bounded : rejection_bounded clear_words 625.
Proof.
  intros σ n Hn. exists 624%nat. split; [lia|].
  rewrite (advanced_nth _ 624 0 σ); [lia|lia| |lia].
  right. apply wrap_range. lia.
Qed.

End Run.

(** [np.random.negative_binomial(1, 1.0)] and
    [np.random.negative_binomial(1, 0.0)]. *)
Lemma negative_binomial_closed_ends_witness :
  0 < Int.signed 64 1 /\
  negative_binomial_impl Run.keep_words Run.no_poisson Run.same Run.same
    Run.left_arg 1 1 1%float Run.σ0 = Raise ValueError Run.σ0 /\
  negative_binomial_impl Run.keep_words Run.no_poisson Run.same Run.same
    Run.left_arg 1 1 0%float Run.σ0 = Raise ZeroDivisionError Run.σ0.
Proof.
  assert (H : 0 < Int.signed 64 1) by reflexivity.
  destruct (negative_binomial_closed_ends Run.keep_words Run.no_poisson
              Run.same Run.same Run.left_arg 1 1 1%float Run.σ0)
    as (_ & _ & H1 & _).
  destruct (negative_binomial_closed_ends Run.keep_words Run.no_poisson
              Run.same Run.same Run.left_arg 1 1 0%float Run.σ0)
    as (_ & _ & _ & H0).
  split; [exact H|]. split.
  - exact (proj2 (H1 H eq_refl)).
  - exact (proj2 (H0 H eq_refl)).
Defined.

(** A run of [randrange(10, 0, -3)] on 32 bits: the division
    [(-10 - 3 + 1) / -3] is defined and gives [n = 4]; the first value
    drawn, [6], is rejected and the second, [0], gives [10]. *)
Lemma randrange_impl_spec_witness :
  2 <= 32 <= 64 /\
  ~ (Int.signed 32 (Int.wrap 32 (-3)) = -1 /\
     Int.signed 32 (Int.sub 32 0 10) = - 2 ^ (32 - 1)) /\
  Int.sdiv_defined 32
    (Int.add 32 (Int.add 32 (Int.sub 32 0 10) (Int.wrap 32 (-3))) 1)
    (Int.wrap 32 (-3)) /\
  _randrange_impl Run.keep_words 2 32 10 0 (Int.wrap 32 (-3)) py Run.σ0
  = Ret 10 (snd (nth_next_int Run.keep_words py 3 1 Run.σ0)).
Proof.
  assert (Hdef : ~ (Int.signed 32 (Int.wrap 32 (-3)) = -1 /\
                    Int.signed 32 (Int.sub 32 0 10) = - 2 ^ (32 - 1)))
    by (intros [H _]; vm_compute in H; discriminate H).
  split; [lia|]. split; [exact Hdef|].
  destruct (randrange_impl_spec Run.keep_words 2 32 10 0 (Int.wrap 32 (-3))
              py Run.σ0 ltac:(lia) Hdef) as (Hdiv & _ & _ & _ & H).
  split; [exact (Hdiv eq_refl)|].
  destruct (H ltac:(vm_compute; reflexivity)) as (_ & _ & Hk & _).
  refine (proj2 (Hk 1%nat ltac:(lia) _ ltac:(vm_compute; reflexivity))).
  intros j Hj. assert (j = O) as -> by lia. vm_compute. discriminate.
Defined.

(** Two gaussian calls on the [py] stream, from index [620]: the first
    round draws words [620 .. 623], all zero, and is rejected
    ([x1 = x2 = -1]); the index has reached [N], and the second round,
    [x1 = 0.5] and [x2 = 0.25], is accepted.  The first call has drawn four
    doubles; the second call runs without fuel and draws nothing. *)
Lemma gauss_second_call_uses_cache_witness :
  let σ := set_state py (store_index 620 Run.state0) Run.σ0 in
  Int.wrap 32 (st_has_gauss (get_state_ptr py σ)) = 0 /\
  (1 < 2)%nat /\
  in_unit_disk (snd (fst (nth_gauss_round Run.keep_words py 0 σ))) = false /\
  in_unit_disk (snd (fst (nth_gauss_round Run.keep_words py 1 σ))) = true /\
  exists v1 v2 σa σb,
    _gauss_impl Run.keep_words Run.below_one 2 0 1 py σ = Ret v1 σa /\
    st_index (get_state_ptr py σa) = 4 /\
    st_has_gauss (get_state_ptr py σa) = 1 /\
    _gauss_impl Run.keep_words Run.below_one 0 0 1 py σa = Ret v2 σb /\
    st_index (get_state_ptr py σb) = st_index (get_state_ptr py σa) /\
    st_words (get_state_ptr py σb) = st_words (get_state_ptr py σa) /\
    st_has_gauss (get_state_ptr py σb) = 0.
Proof.
  intros σ.
  assert (H1 : Int.wrap 32 (st_has_gauss (get_state_ptr py σ)) = 0)
    by reflexivity.
  assert (H2 : (1 < 2)%nat) by lia.
  assert (H3 : in_unit_disk
                 (snd (fst (nth_gauss_round Run.keep_words py 0 σ))) = false)
    by (vm_compute; reflexivity).
  assert (H4 : in_unit_disk
                 (snd (fst (nth_gauss_round Run.keep_words py 1 σ))) = true)
    by (vm_compute; reflexivity).
  split; [exact H1|]. split; [exact H2|]. split; [exact H3|].
  split; [exact H4|].
  destruct (gauss_second_call_uses_cache Run.keep_words Run.below_one 2 0
              0 1 0 1 py σ 1 H1 H2
              ltac:(intros j Hj; assert (j = O) as -> by lia; exact H3) H4)
    as (_ & σa & σb & E1 & Eia & _ & Eha & _ & E2 & Ei & Ew & Eh & _).
  eexists _, _, σa, σb.
  split; [exact E1|]. split; [rewrite Eia; vm_compute; reflexivity|].
  split; [exact Eha|]. split; [exact E2|].
  split; [exact Ei|]. split; [exact Ew|exact Eh].
Defined.

(** [random.triangular(0, 1, 0.5)] and [np.random.triangular(0, 0.5, 1)]
    on equal states. *)
Lemma triangular_streams_agree_witness :
  get_state_ptr py Run.σ0 = get_state_ptr np Run.σ0 /\
  exists v σa σb,
    triangular_impl_3 Run.keep_words 0 1 0.5 Run.σ0 = Ret v σa /\
    np_triangular_impl_3 Run.keep_words 0 0.5 1 Run.σ0 = Ret v σb /\
    get_state_ptr py σa = get_state_ptr np σb.
Proof.
  split; [reflexivity|].
  destruct (triangular_streams_agree Run.keep_words 0 1 0.5 Run.σ0 Run.σ0
              eq_refl) as (_ & Hs & _ & H).
  destruct (H eq_refl) as [Hv _]. destruct (Hv eq_refl) as [Ea Eb].
  eexists _, _, _. split; [exact Ea|]. split; [exact Eb|exact Hs].
Defined.

(** A shuffle of three elements, on an engine whose rejection rounds are
    bounded. *)
Lemma shuffle_permutation_witness :
  Z.of_nat (length [10; 20; 30]) < 2 ^ 63 /\
  exists arr' σ',
    shuffle_impl Run.clear_words 625 [10; 20; 30] Run.σ0 = Ret arr' σ' /\
    arr' ≡ₚ [10; 20; 30] /\ length arr' = length [10; 20; 30].
Proof.
  assert (H : Z.of_nat (length [10; 20; 30]) < 2 ^ 63) by reflexivity.
  split; [exact H|].
  destruct (shuffle_permutation Run.clear_words 625 [10; 20; 30] Run.σ0 H)
    as (_ & _ & _ & Hret).
  apply (Hret 625%nat Run.clear_words_bounded); cbn [length]; lia.
Defined.

(** [np.random.poisson(0.0)]. *)
Lemma poisson_zero_no_draw_witness :
  (0 =? 0)%float = true /\
  poisson_impl Run.keep_words Run.no_poisson Run.same 5 (Some 0%float) Run.σ0
  = Ret 0 Run.σ0.
Proof.
  split; [reflexivity|].
  exact (proj1 (poisson_zero_no_draw Run.keep_words Run.no_poisson Run.same
                  5 0%float Run.σ0 eq_refl)).
Defined.

(** [getrandbits(40)]: two words are drawn, and the value is below
    [2^40]. *)
Lemma get_next_int_bits_witness :
  1 <= 40 <= 64 /\
  exists lo σ1 hi σ2 v,
    get_next_int32 Run.keep_words py Run.σ0 = Ret lo σ1 /\
    get_next_int32 Run.keep_words py σ1 = Ret hi σ2 /\
    get_next_int Run.keep_words py 40 Run.σ0 = Ret v σ2 /\
    0 <= v < 2 ^ 40 /\
    v = Z.lor lo (Z.shiftl (Z.shiftr hi (64 - 40)) 32).
Proof.
  split; [lia|].
  destruct (get_next_int_bits Run.keep_words py 40 Run.σ0 ltac:(lia))
    as (lo & σ1 & hi & σ2 & v & σ' & E1 & E2 & E & Hv & _ & Hhi).
  destruct (Hhi ltac:(lia)) as [-> ->].
  exists lo, σ1, hi, σ2. eexists.
  split; [exact E1|]. split; [exact E2|]. split; [exact E|].
  split; [exact Hv|reflexivity].
Defined.

(** Two state words and their outputs. *)
Lemma temper_injective_witness :
  0 <= 3423711798 < 2 ^ 32 /\ 0 <= 2752555541 < 2 ^ 32 /\
  temper 3423711798 <> temper 2752555541.
Proof.
  split; [lia|]. split; [lia|].
  apply temper_injective; lia.
Defined.

(** [randrange(0, 10, 3)] on 32 bits. *)
Lemma randrange_step_up_witness :
  2 <= 32 <= 64 /\ 1 <= Int.signed 32 3 /\
  forall v σ',
    _randrange_impl Run.keep_words 2 32 0 10 3 py Run.σ0 = Ret v σ' ->
    exists r, 0 <= r /\ Int.signed 32 v = 0 + r * 3 /\
              0 <= Int.signed 32 v < 10.
Proof.
  split; [lia|]. split; [change (1 <= 3); lia|].
  exact (proj2 (randrange_step_up Run.keep_words 2 32 0 10 3 py Run.σ0
                  ltac:(lia) ltac:(change (1 <= 3); lia)
                  ltac:(change (- 2147483648 <= 12 < 2147483648); lia))).
Defined.

(** [randrange(10, 0, -3)] on 32 bits. *)
Lemma randrange_step_down_witness :
  2 <= 32 <= 64 /\ Int.signed 32 (Int.wrap 32 (-3)) <= -1 /\
  forall v σ',
    _randrange_impl Run.keep_words 2 32 10 0 (Int.wrap 32 (-3)) py Run.σ0
    = Ret v σ' ->
    exists r, 0 <= r /\ Int.signed 32 v = 10 + r * -3 /\
              0 < Int.signed 32 v <= 10.
Proof.
  split; [lia|]. split; [change (-3 <= -1); lia|].
  exact (proj2 (randrange_step_down Run.keep_words 2 32 10 0
                  (Int.wrap 32 (-3)) py Run.σ0
                  ltac:(lia) ltac:(change (-3 <= -1); lia)
                  ltac:(change (- 2147483648 < -12 < 2147483648); lia))).
Defined.

(** [randrange(5, 10, 0)] on 32 bits returns [5]: the first value drawn,
    [6], is rejected and the second, [0], is multiplied by the step. *)
Lemma randrange_zero_step_witness :
  2 <= 32 <= 64 /\ Int.signed 32 0 = 0 /\
  exists σ', _randrange_impl Run.keep_words 2 32 5 10 0 py Run.σ0 = Ret 5 σ'.
Proof.
  split; [lia|]. split; [reflexivity|].
  destruct (randrange_zero_step Run.keep_words 2 32 5 10 0 py Run.σ0
              ltac:(lia) eq_refl) as (_ & _ & Hret).
  destruct (_randrange_impl Run.keep_words 2 32 5 10 0 py Run.σ0)
    as [v σ'|e σ'|] eqn:E.
  - destruct (Hret v σ' eq_refl) as [_ ->]. exists σ'. reflexivity.
  - vm_compute in E. discriminate E.
  - vm_compute in E. discriminate E.
Defined.

(** [randint(100, 127)] on 8 bits, where [127 + 1] wraps round to
    [-128]. *)
Lemma randint_closed_range_witness :
  2 <= 8 <= 64 /\
  - 2 ^ (8 - 1) <= Int.signed 8 127 - Int.signed 8 100 + 1 < 2 ^ (8 - 1) /\
  Int.signed 8 (Int.add 8 127 1) = -128 /\
  forall v σ',
    randint_impl_1 Run.keep_words 2 8 100 127 Run.σ0 = Ret v σ' ->
    100 <= Int.signed 8 v <= 127.
Proof.
  assert (H : - 2 ^ (8 - 1) <= Int.signed 8 127 - Int.signed 8 100 + 1
              < 2 ^ (8 - 1)) by (change (-128 <= 28 < 128); lia).
  split; [lia|]. split; [exact H|]. split; [reflexivity|].
  exact (proj2 (randint_closed_range Run.keep_words 2 8 100 127 Run.σ0
                  ltac:(lia) H)).
Defined.

(** [np.random.hypergeometric(5, 4, 3)] with four rounds of fuel. *)
Lemma hypergeometric_terminates_witness :
  (Z.to_nat (Int.signed 64 3) < 4)%nat /\
  hypergeometric_impl Run.keep_words Run.same (fun _ => 0) 4 5 4 3 Run.σ0
  <> Spin.
Proof.
  assert (H : (Z.to_nat (Int.signed 64 3) < 4)%nat)
    by (change (3 < 4)%nat; lia).
  split; [exact H|].
  exact (proj1 (hypergeometric_terminates Run.keep_words Run.same
                  (fun _ => 0) 4 5 4 3 Run.σ0 H)).
Defined.

(** A shuffle of one element. *)
Lemma shuffle_short_witness :
  (length [7] <= 1)%nat /\ (0 < 1)%nat /\
  shuffle_impl Run.keep_words 1 [7] Run.σ0 = Ret [7] Run.σ0.
Proof.
  split; [cbn; lia|]. split; [lia|].
  apply shuffle_short; cbn; lia.
Defined.

(** The words served after a reshuffle: the third is word [2]. *)
Lemma reshuffle_serves_N_words_witness :
  let σ := set_state py (store_index 624 Run.state0) Run.σ0 in
  N <= Int.wrap 32 (st_index (get_state_ptr py σ)) /\
  (2 < 624)%nat /\
  nth_next_int Run.keep_words py 32 2 σ
  = (0xA0000000, set_state py (store_index 3 Run.state0) Run.σ0).
Proof.
  intros σ.
  assert (H : N <= Int.wrap 32 (st_index (get_state_ptr py σ)))
    by (change (624 <= 624); lia).
  split; [exact H|]. split; [lia|].
  exact (reshuffle_serves_N_words Run.keep_words py σ 2 H ltac:(lia)).
Defined.

(** [random.gammavariate(0.5, 1.0)]. *)
Lemma gamma_small_alpha_never_raises_witness :
  ((0.5 <=? 0) || (1 <=? 0))%float = false /\ fgt 0.5%float 1%float = false /\
  forall e σ σ',
    gammavariate_impl Run.keep_words Run.same Run.same Run.left_arg
      2 0.5%float 1%float σ <> Raise e σ'.
Proof.
  split; [reflexivity|]. split; [reflexivity|].
  intros e.
  exact (gamma_small_alpha_never_raises Run.keep_words Run.same Run.same
           Run.left_arg e 2 py 0.5%float 1%float eq_refl eq_refl).
Defined.

(** [np.random.hypergeometric(5, 4, 3)]: three samples from nine. *)
Lemma hypergeometric_returns_witness :
  0 <= Int.signed 64 3 <= Int.signed 64 5 + Int.signed 64 4 /\
  Int.signed 64 5 + Int.signed 64 4 < 2 ^ 63 /\
  (Z.to_nat (Int.signed 64 3) < 4)%nat /\
  exists v σ',
    hypergeometric_impl Run.keep_words Run.same (fun _ => 0) 4 5 4 3 Run.σ0
    = Ret v σ'.
Proof.
  assert (H1 : 0 <= Int.signed 64 3 <= Int.signed 64 5 + Int.signed 64 4)
    by (change (0 <= 3 <= 5 + 4); lia).
  assert (H2 : Int.signed 64 5 + Int.signed 64 4 < 2 ^ 63)
    by (change (5 + 4 < 2 ^ 63); lia).
  assert (H3 : (Z.to_nat (Int.signed 64 3) < 4)%nat)
    by (change (3 < 4)%nat; lia).
  split; [exact H1|]. split; [exact H2|]. split; [exact H3|].
  exact (hypergeometric_returns Run.keep_words Run.same (fun _ => 0)
           4 5 4 3 Run.σ0 H1 H2 H3).
Defined.

(* ------------------------------------------------------------------ *)
(** ** The model at work *)

Example temper_words :
  temper 3423711798 = 0xC0000000 /\ temper 2752555541 = 0xA0000000.
Proof. split; reflexivity. Qed.

Example first_double :
  fst (run_next_double Run.keep_words py Run.σ0) = 0.75%float.
Proof. vm_compute. reflexivity. Qed.

Example getrandbits_40 :
  fst (run_next_int Run.keep_words py 40 Run.σ0) = 0xC0000000.
Proof. vm_compute. reflexivity. Qed.

(** The smallest 64-bit integer as a double. *)
Example sitofp_min_int :
  Int.signed 64 (2 ^ 63) = - 2 ^ 63 /\
  Prim2SF (sitofp (2 ^ 63)) = S754_finite true 4503599627370496 11.
Proof. split; reflexivity. Qed.

(** [randrange(0, min_int, -1)] on 64 bits: the one division that is not
    defined, [min_int / -1]. *)
Example sdiv_undefined_at_min_int :
  Int.signed 64 (Int.wrap 64 (-1)) = -1 /\
  Int.signed 64 (Int.sub 64 (2 ^ 63) 0) = - 2 ^ (64 - 1) /\
  ~ Int.sdiv_defined 64
      (Int.add 64 (Int.add 64 (Int.sub 64 (2 ^ 63) 0) (Int.wrap 64 (-1))) 1)
      (Int.wrap 64 (-1)).
Proof.
  split; [reflexivity|]. split; [reflexivity|].
  intros [_ H]. apply H. split; reflexivity.
Qed.

Example randrange_empty :
  _randrange_impl Run.keep_words 1 32 5 5 1 py Run.σ0
  = Raise ValueError Run.σ0.
Proof. reflexivity. Qed.

(** [randrange(10, 0, -3)]: the span is [(-10 - 3 + 1) / -3 = 4], the
    first value drawn, [6], is rejected and the second, [0], gives [10]. *)
Example randrange_negative_step :
  randrange_n 32 10 0 (Int.wrap 32 (-3)) = 4 /\
  exists σ', _randrange_impl Run.keep_words 2 32 10 0 (Int.wrap 32 (-3)) py
               Run.σ0 = Ret 10 σ'.
Proof. split; [reflexivity|]. eexists. vm_compute. reflexivity. Qed.

Example gauss_pair_values :
  exists σ',
    _gauss_impl Run.keep_words Run.below_one 1 0 1 py Run.σ0
    = Ret (PrimFloat.sqrt 4.4 * 0.25)%float σ' /\
    st_gauss (get_state_ptr py σ') = (PrimFloat.sqrt 4.4 * 0.5)%float /\
    st_index (get_state_ptr py σ') = 4.
Proof. eexists. vm_compute. repeat split; reflexivity. Qed.

Example triangular_value :
  exists σ', triangular_impl_3 Run.keep_words 0 1 0.5 Run.σ0
             = Ret (1 + (0 - 1) * PrimFloat.sqrt (0.25 * 0.5))%float σ'.
Proof. eexists. vm_compute. reflexivity. Qed.

Example shuffle_three :
  exists σ', shuffle_impl Run.keep_words 3 [10; 20; 30] Run.σ0
             = Ret [20; 30; 10] σ' /\
             st_index (get_state_ptr py σ') = 4 /\
             get_state_ptr np σ' = get_state_ptr np Run.σ0.
Proof. eexists. vm_compute. repeat split; reflexivity. Qed.
